(** * lawyernews1: the markdown-safe text transform, the delivery chain,
      image selection and the daily schedule.

    The development follows [main.py] and [ai_content_processor.py].
    Python strings are sequences of Unicode code points, so a string is a
    list of code points ([N]); Python integers are [Z]. *)

From Stdlib Require Import List ZArith NArith Lia Bool Arith.
From Stdlib Require String Ascii.
Import ListNotations.

(** ** Python strings *)

Module Text.

Definition char := N.
Definition str := list char.

Definition NEWLINE    : char := 10%N.
Definition SPACE      : char := 32%N.
Definition BANG       : char := 33%N.
Definition HASH       : char := 35%N.
Definition LPAREN     : char := 40%N.
Definition RPAREN     : char := 41%N.
Definition STAR       : char := 42%N.
Definition PLUS       : char := 43%N.
Definition MINUS      : char := 45%N.
Definition DOT        : char := 46%N.
Definition EQUALS     : char := 61%N.
Definition GREATER    : char := 62%N.
Definition LBRACKET   : char := 91%N.
Definition BACKSLASH  : char := 92%N.
Definition RBRACKET   : char := 93%N.
Definition UNDERSCORE : char := 95%N.
Definition BACKTICK   : char := 96%N.
Definition LBRACE     : char := 123%N.
Definition PIPE       : char := 124%N.
Definition RBRACE     : char := 125%N.
Definition TILDE      : char := 126%N.
(** U+2026, the one-character ellipsis appended by the truncator. *)
Definition ELLIPSIS   : char := 8230%N.

(** [len(s)] *)
Definition len (s : str) : Z := Z.of_nat (length s).

Definition ch_eq (c d : char) : bool := N.eqb c d.

(** Number of occurrences of a character. *)
Fixpoint count (c : char) (s : str) : nat :=
  match s with
  | [] => 0
  | d :: t => (if ch_eq d c then 1 else 0) + count c t
  end.

(** [s.startswith(p)], returning what follows the prefix. *)
Fixpoint strip_prefix (p s : str) : option str :=
  match p, s with
  | [], _ => Some s
  | _ :: _, [] => None
  | a :: p', b :: s' => if ch_eq a b then strip_prefix p' s' else None
  end.

(** Left-to-right, non-overlapping rewriting, the scanning discipline
    shared by [str.replace] and [re.sub]: at each position the matcher
    either recognises an occurrence, giving its replacement and the input
    that follows it, or the character is copied and the scan moves on by
    one.  Every matcher used below consumes at least one character, so a
    fuel equal to the length of the input is never exhausted
    (see [rewrite_fuel_enough]). *)
Section Rewrite.
Variable matcher : str -> option (str * str).

Fixpoint rewrite_fuel (fuel : nat) (s : str) : str :=
  match fuel with
  | O => s
  | S f =>
      match matcher s with
      | Some (out, rest) => out ++ rewrite_fuel f rest
      | None =>
          match s with
          | [] => []
          | c :: t => c :: rewrite_fuel f t
          end
      end
  end.

Definition rewrite_all (s : str) : str := rewrite_fuel (length s) s.
End Rewrite.

(** [s.replace(old, new)] for a non-empty [old]. *)
Definition replace_matcher (old new : str) (s : str) : option (str * str) :=
  match old with
  | [] => None
  | _ :: _ =>
      match strip_prefix old s with
      | Some rest => Some (new, rest)
      | None => None
      end
  end.

Definition replace (old new : str) (s : str) : str :=
  rewrite_all (replace_matcher old new) s.

(** [str.isspace] on one code point: the characters removed by
    [str.strip], [str.rstrip] without argument. *)
Definition isspace (c : char) : bool :=
  ((9 <=? c) && (c <=? 13) || (28 <=? c) && (c <=? 32)
   || ch_eq c 133 || ch_eq c 160 || ch_eq c 5760
   || (8192 <=? c) && (c <=? 8202)
   || ch_eq c 8232 || ch_eq c 8233 || ch_eq c 8239 || ch_eq c 8287 || ch_eq c 12288)%N.

(** [s.rstrip()] *)
Fixpoint rstrip (s : str) : str :=
  match s with
  | [] => []
  | c :: t =>
      match rstrip t with
      | [] => if isspace c then [] else [c]
      | r => c :: r
      end
  end.

(** [s[:k]] for any integer [k]. *)
Definition slice_to (s : str) (k : Z) : str :=
  if (k <? 0)%Z then firstn (Z.to_nat (Z.max 0 (len s + k))) s
  else firstn (Z.to_nat k) s.

(** [s.lstrip()], [s.strip()] *)
Fixpoint lstrip (s : str) : str :=
  match s with
  | c :: t => if isspace c then lstrip t else s
  | [] => []
  end.

Definition strip (s : str) : str := rstrip (lstrip s).

(** [needle in hay] *)
Fixpoint contains (needle hay : str) : bool :=
  match strip_prefix needle hay with
  | Some _ => true
  | None =>
      match hay with
      | [] => false
      | _ :: t => contains needle t
      end
  end.

(** [s.endswith(suffix)] *)
Definition endswith (s suffix : str) : bool :=
  match strip_prefix (rev suffix) (rev s) with
  | Some _ => true
  | None => false
  end.

(** An ASCII literal as a Python string. *)
Definition lit (s : String.string) : str :=
  map Ascii.N_of_ascii (String.list_ascii_of_string s).

Module Literals.
Import String.
Local Open Scope string_scope.
Definition IMAGE : str := lit "image".
Definition SVG : str := lit "svg".
Definition PNG : str := lit "png".
Definition WEBP : str := lit "webp".
Definition DOT_SVG : str := lit ".svg".
Definition DOT_PNG : str := lit ".png".
Definition DOT_WEBP : str := lit ".webp".
Definition DOT_JPG : str := lit ".jpg".
Definition COLON_SPACE : str := lit ": ".
Definition THREE_DOTS : str := lit "...".
End Literals.
Export Literals.

End Text.

Import Text.

(** ** The formatter: [_escape_md_v2_preserving_formatting] *)

Module Formatter.

(** The private-use placeholders. *)
Definition BOLD_MASK   : char := 57345%N.  (* U+E001 *)
Definition ITALIC_MASK : char := 57346%N.  (* U+E002 *)

(** The character class [[^_\n]]. *)
Definition in_span_class (c : char) : bool :=
  negb (ch_eq c UNDERSCORE) && negb (ch_eq c NEWLINE).

(** Longest prefix of characters of the class, and what follows it. *)
Fixpoint span_class (s : str) : str * str :=
  match s with
  | [] => ([], [])
  | c :: t =>
      if in_span_class c
      then let (run, rest) := span_class t in (c :: run, rest)
      else ([], s)
  end.

(** One attempt of the pattern [delim ([^_\n]+?) delim] at the head of the
    input.  The class excludes the underscore, so the lazy group can only
    stop at the end of the run of class characters: the attempt succeeds
    exactly when that run is non-empty and followed by the delimiter.
    The replacement is [mark \1 mark]. *)
Definition span_matcher (delim mark : str) (s : str) : option (str * str) :=
  match strip_prefix delim s with
  | None => None
  | Some after =>
      match span_class after with
      | ([], _) => None
      | (inner, rest) =>
          match strip_prefix delim rest with
          | Some rest' => Some (mark ++ inner ++ mark, rest')
          | None => None
          end
      end
  end.

(** [re.sub(r"__([^_\n]+?)__", r"**\1**", text)] *)
Definition underscores_to_bold : str -> str :=
  rewrite_all (span_matcher [UNDERSCORE; UNDERSCORE] [STAR; STAR]).

(** [re.sub(r"_([^_\n]+?)_", r"*\1*", text)] *)
Definition underscores_to_italic : str -> str :=
  rewrite_all (span_matcher [UNDERSCORE] [STAR]).

(** The class [[_\[\]\(\)~`>#+\-=|{}\.!]]. *)
Definition reserved_chars : list char :=
  [UNDERSCORE; LBRACKET; RBRACKET; LPAREN; RPAREN; TILDE; BACKTICK;
   GREATER; HASH; PLUS; MINUS; EQUALS; PIPE; LBRACE; RBRACE; DOT; BANG].

Definition is_reserved (c : char) : bool := existsb (ch_eq c) reserved_chars.

(** [re.sub(r"([_\[\]\(\)~`>#+\-=|{}\.!])", r"\\\1", text)] *)
Definition reserved_matcher (s : str) : option (str * str) :=
  match s with
  | c :: t => if is_reserved c then Some ([BACKSLASH; c], t) else None
  | [] => None
  end.

Definition escape_reserved : str -> str := rewrite_all reserved_matcher.

Definition normalize (text : str) : str :=
  underscores_to_italic (underscores_to_bold text).

Definition mask (text : str) : str :=
  replace [STAR] [ITALIC_MASK] (replace [STAR; STAR] [BOLD_MASK] text).

Definition escape_backslashes : str -> str :=
  replace [BACKSLASH] [BACKSLASH; BACKSLASH].

Definition unmask (text : str) : str :=
  replace [ITALIC_MASK] [STAR] (replace [BOLD_MASK] [STAR; STAR] text).

Definition _escape_md_v2_preserving_formatting (text : str) : str :=
  (* Convert underscore formatting to asterisk variants *)
  let text := underscores_to_bold text in
  let text := underscores_to_italic text in
  (* Mask formatting tokens *)
  let text := replace [STAR; STAR] [BOLD_MASK] text in
  let text := replace [STAR] [ITALIC_MASK] text in
  (* Escape backslashes first *)
  let text := replace [BACKSLASH] [BACKSLASH; BACKSLASH] text in
  (* Escape remaining special characters *)
  let text := escape_reserved text in
  (* Unmask *)
  let text := replace [BOLD_MASK] [STAR; STAR] text in
  replace [ITALIC_MASK] [STAR] text.

(** What one character becomes in the two escaping passes taken together. *)
Definition escape_char (c : char) : str :=
  if ch_eq c BACKSLASH || is_reserved c then [BACKSLASH; c] else [c].

(** What one character of the masked text becomes in the output: the two
    escaping passes, then the unmasking. *)
Definition output_of (c : char) : str :=
  if ch_eq c BACKSLASH || is_reserved c then [BACKSLASH; c]
  else if ch_eq c BOLD_MASK then [STAR; STAR]
  else if ch_eq c ITALIC_MASK then [STAR]
  else [c].

(** A string is well escaped when, read from the left, it splits into
    backslash pairs whose second character is reserved or a backslash, and
    single characters that are neither reserved nor a backslash. *)
Fixpoint well_escaped (s : str) : bool :=
  match s with
  | [] => true
  | c :: t =>
      if ch_eq c BACKSLASH then
        match t with
        | [] => false
        | d :: t' => (is_reserved d || ch_eq d BACKSLASH) && well_escaped t'
        end
      else negb (is_reserved c) && well_escaped t
  end.

(** Every reserved character is immediately preceded by a backslash. *)
Fixpoint reserved_follow_backslash (prev_backslash : bool) (s : str) : bool :=
  match s with
  | [] => true
  | c :: t =>
      (negb (is_reserved c) || prev_backslash)
      && reserved_follow_backslash (ch_eq c BACKSLASH) t
  end.

End Formatter.


(** ** The truncator: [_truncate_markdown_v2_safely], [prepare_markdown_v2] *)

Module Truncator.
Import Formatter.

(** The variables of the scanning loop. *)
Record scan_state := mk_scan {
  idx : nat;               (* i *)
  open_bold : Z;
  open_italic : Z;
  last_safe_space : Z
}.

Definition scan_init : scan_state :=
  {| idx := 0; open_bold := 0; open_italic := 0; last_safe_space := -1 |}.

(** [text[i]]; the loop only reads positions below [len(text)]. *)
Definition char_at (text : str) (i : nat) : char := nth i text 0%N.

(** [text[i:j]] for [0 <= i <= j]. *)
Definition slice (text : str) (i j : nat) : str := firstn (j - i) (skipn i text).

Fixpoint str_eqb (a b : str) : bool :=
  match a, b with
  | [], [] => true
  | x :: a', y :: b' => ch_eq x y && str_eqb a' b'
  | _, _ => false
  end.

(** One iteration of the [while] body. *)
Definition scan_step (text : str) (st : scan_state) : scan_state :=
  let i := idx st in
  let ch := char_at text i in
  let prev_backslash :=
    (0 <? i)%nat && ch_eq (char_at text (i - 1)) BACKSLASH in
  if (Z.of_nat i + 1 <? len text)%Z
     && str_eqb (slice text i (i + 2)) [STAR; STAR]
     && negb prev_backslash
  then
    {| idx := i + 2;
       open_bold := Z.lxor (open_bold st) 1;
       open_italic := open_italic st;
       last_safe_space := last_safe_space st |}
  else
    let open_italic' :=
      if ch_eq ch STAR && negb prev_backslash then
        let is_double :=
          (Z.of_nat i + 1 <? len text)%Z && ch_eq (char_at text (i + 1)) STAR in
        if negb is_double then Z.lxor (open_italic st) 1 else open_italic st
      else open_italic st in
    let last_safe_space' :=
      if ch_eq ch SPACE && (open_bold st =? 0)%Z && (open_italic' =? 0)%Z
      then Z.of_nat i else last_safe_space st in
    {| idx := i + 1;
       open_bold := open_bold st;
       open_italic := open_italic';
       last_safe_space := last_safe_space' |}.

(** [while i < min(len(text), limit)]: every iteration advances [i], so
    [len(text)] iterations are always enough (see [scan_loop_exits]). *)
Fixpoint scan_loop (fuel : nat) (text : str) (limit : Z) (st : scan_state)
  : scan_state :=
  match fuel with
  | O => st
  | S f =>
      if (Z.of_nat (idx st) <? Z.min (len text) limit)%Z
      then scan_loop f text limit (scan_step text st)
      else st
  end.

Definition scan (text : str) (limit : Z) : scan_state :=
  scan_loop (length text) text limit scan_init.

Definition cut_index (text : str) (limit : Z) : Z :=
  let last := last_safe_space (scan text limit) in
  if negb (last =? -1)%Z then last else Z.max 0 (limit - 1).

Definition _truncate_markdown_v2_safely (text : str) (limit : Z) : str :=
  if (len text <=? limit)%Z then text
  else rstrip (slice_to text (cut_index text limit)) ++ [ELLIPSIS].

(** [limit = None] is the default of the Python signature. *)
Definition prepare_markdown_v2 (text : str) (limit : option Z) : str :=
  let escaped := _escape_md_v2_preserving_formatting text in
  match limit with
  | Some l =>
      if (len escaped >? l)%Z then _truncate_markdown_v2_safely escaped l
      else escaped
  | None => escaped
  end.

(** The span markers of a whole string, as the scanner classifies them: a
    star preceded by a backslash is no marker; otherwise two stars in a row
    are one bold marker and a single star is one italic marker.  The result
    is the number of bold markers and the number of italic markers. *)
Fixpoint markers (prev_backslash : bool) (s : str) : nat * nat :=
  match s with
  | [] => (0, 0)
  | c :: t =>
      if ch_eq c STAR && negb prev_backslash then
        match t with
        | d :: t' =>
            if ch_eq d STAR
            then let (b, i) := markers false t' in (S b, i)
            else let (b, i) := markers false t in (b, S i)
        | [] => (0, 1)
        end
      else markers (ch_eq c BACKSLASH) t
  end.

Definition bold_markers (s : str) : nat := fst (markers false s).
Definition italic_markers (s : str) : nat := snd (markers false s).

(** A depth after a number of markers, each toggling it. *)
Fixpoint toggled (n : nat) (depth : Z) : Z :=
  match n with
  | O => depth
  | S m => toggled m (Z.lxor depth 1)
  end.

(** [prev_backslash] at position [i]. *)
Definition prev_backslash_at (text : str) (i : nat) : bool :=
  (0 <? i)%nat && ch_eq (char_at text (i - 1)) BACKSLASH.

(** The markers between the position of the scanner and position [k]
    bring both depths back to zero. *)
Definition segment_closes (text : str) (st : scan_state) (k : nat) : Prop :=
  let seg := firstn (k - idx st) (skipn (idx st) text) in
  let found := markers (prev_backslash_at text (idx st)) seg in
  toggled (fst found) (open_bold st) = 0%Z
  /\ toggled (snd found) (open_italic st) = 0%Z.

(** A space at which the scanner found both depths at zero was seen. *)
Definition safe_space_seen (text : str) (limit : Z) : Prop :=
  last_safe_space (scan text limit) <> (-1)%Z.

(** The span markers of a string under the escaping rule of the rich-text
    syntax, the one the formatter writes (it doubles every backslash of
    the raw text and puts one backslash before a reserved character): a
    backslash escapes exactly the character after it.  So a doubled
    backslash is one literal backslash and escapes nothing further, and a
    star is escaped only when an odd number of backslashes stands before
    it.  Of the stars that are not
    escaped, two in a row are one bold marker and a single one is one
    italic marker.  [escaped] tells whether the first character is escaped
    by a backslash before the string. *)
Fixpoint unescaped_markers (escaped : bool) (s : str) : nat * nat :=
  match s with
  | [] => (0, 0)
  | c :: t =>
      if escaped then unescaped_markers false t
      else if ch_eq c BACKSLASH then unescaped_markers true t
      else if ch_eq c STAR then
        match t with
        | d :: t' =>
            if ch_eq d STAR
            then let (b, i) := unescaped_markers false t' in (S b, i)
            else let (b, i) := unescaped_markers false t in (b, S i)
        | [] => (0, 1)
        end
      else unescaped_markers false t
  end.

(** The open spans at the end of a string: a span is open when the number
    of its unescaped markers is odd. *)
Definition open_spans (s : str) : bool * bool :=
  let (b, i) := unescaped_markers false s in (Nat.odd b, Nat.odd i).

(** The scanner's test [text[i - 1] == "\\"] and the escaping rule agree
    on a string: no star stands after an even, positive number of
    backslashes.  [run] is the parity of the backslashes just before
    the string: [None] for none, [Some true] for an odd number. *)
Fixpoint stars_told_apart (run : option bool) (s : str) : bool :=
  match s with
  | [] => true
  | c :: t =>
      if ch_eq c BACKSLASH then
        stars_told_apart
          (Some match run with Some odd => negb odd | None => true end) t
      else
        negb (ch_eq c STAR && match run with Some false => true | _ => false end)
        && stars_told_apart None t
  end.

(** What the escaping rule and the scanner's test know at a position,
    after a run of backslashes of the given parity. *)
Definition escaped_after (run : option bool) : bool :=
  match run with Some true => true | _ => false end.

Definition prev_backslash_after (run : option bool) : bool :=
  match run with Some _ => true | None => false end.

End Truncator.

(** ** The delivery chain: [send_to_telegram] *)

Module Delivery.
Import Formatter Truncator.

Inductive strategy := RemotePhoto | ReuploadedPhoto | RichText | PlainText.

Inductive level := INFO | WARNING | ERROR | CRITICAL.

(** What one call of the transport does: it returns, raises
    [TelegramError], or raises another exception of class [Exception],
    the kind that [except Exception] catches.  An exception outside
    [Exception], such as [asyncio.CancelledError], is not among the
    outcomes. *)
Inductive outcome := Sent | RaisesTelegramError | RaisesOther.

Inductive parse_mode := MarkdownV2 | NoMarkup.

Record input_file := { filename : str; content : list N }.

Inductive photo := PhotoUrl (url : str) | PhotoFile (file : input_file).

(** [requests.get] followed by [raise_for_status]: an exception, or a
    response with its [Content-Type] header (empty when absent) and body. *)
Inductive http_result :=
| HttpFails
| HttpResponse (content_type : str) (body : list N).

(** The outside world of one run. *)
Record transport := {
  send_photo : photo -> str -> outcome;          (* bot.send_photo, MarkdownV2 *)
  send_message : str -> parse_mode -> outcome;   (* bot.send_message *)
  http_get : str -> http_result
}.

(** What a run does, in order: the calls of the [bot], the download of
    the image and the log records. *)
Inductive event :=
| Send (s : strategy) (payload : str)
| Fetch (url : str)
| Log (l : level).

(** How the coroutine ends: it returns, or an exception leaves it. *)
Inductive completion := Returned | Raised.

(** "Перейти до каналу" *)
Definition GO_TO_CHANNEL : str :=
  [1055; 1077; 1088; 1077; 1081; 1090; 1080; 32; 1076; 1086; 32;
   1082; 1072; 1085; 1072; 1083; 1091]%N.

Section Chain.
(** [config.CHANNEL_LINK] and [str.lower]. *)
Variable CHANNEL_LINK : str.
Variable lower : str -> str.
Variable T : transport.

Definition link_md2 : str :=
  [NEWLINE; NEWLINE; LBRACKET] ++ GO_TO_CHANNEL
    ++ [RBRACKET; LPAREN] ++ CHANNEL_LINK ++ [RPAREN].

Definition plain_text_link : str :=
  [NEWLINE; NEWLINE] ++ GO_TO_CHANNEL ++ COLON_SPACE ++ CHANNEL_LINK.

Definition full_plain_text (post_text : str) : str :=
  post_text ++ plain_text_link.

Definition _build_input_file_from_url (url : str) : option input_file :=
  match http_get T url with
  | HttpFails => None
  | HttpResponse header body =>
      let content_type := lower header in
      if negb (contains IMAGE content_type)
         || contains SVG content_type
      then None
      else
        let ext :=
          if contains PNG content_type then DOT_PNG
          else if contains WEBP content_type then DOT_WEBP
          else DOT_JPG in
        Some {| filename := IMAGE ++ ext; content := body |}
  end.

(** The caption of both photo states and whether it was cut. *)
Definition caption_truncated (post_text : str) : bool :=
  (len (prepare_markdown_v2 post_text None) + len link_md2 >? 1024)%Z.

Definition base_caption_md2 (post_text : str) : str :=
  let base := prepare_markdown_v2 post_text None in
  if caption_truncated post_text
  then _truncate_markdown_v2_safely base (1024 - len link_md2)
  else base.

Definition final_caption_md2 (post_text : str) : str :=
  base_caption_md2 post_text ++ link_md2.

(** The body of the rich-text state. *)
Definition base_text_md2 (post_text : str) : str :=
  let base := prepare_markdown_v2 post_text None in
  if (len (base ++ link_md2) >? 4096)%Z
  then _truncate_markdown_v2_safely base (4096 - len link_md2)
  else base.

Definition final_text_md2 (post_text : str) : str :=
  base_text_md2 post_text ++ link_md2.

(** The body of the plain-text state. *)
Definition plain_text (post_text : str) : str :=
  let full := full_plain_text post_text in
  if (len full <=? 4096)%Z then full
  else slice_to full 4092 ++ THREE_DOTS.

(** The [if image_url:] block: its events, [photo_sent], and how it
    ends.  An exception other than [TelegramError] raised by the second
    [send_photo] is raised inside an [except] clause and leaves the
    function. *)
Definition photo_stage (post_text url : str)
  : list event * bool * completion :=
  let caption := final_caption_md2 post_text in
  let pre := if caption_truncated post_text then [Log WARNING] else [] in
  let first := pre ++ [Send RemotePhoto caption] in
  match send_photo T (PhotoUrl url) caption with
  | Sent => (first ++ [Log INFO], true, Returned)
  | RaisesOther => (first ++ [Log ERROR], false, Returned)
  | RaisesTelegramError =>
      let second := first ++ [Log ERROR; Fetch url] in
      match _build_input_file_from_url url with
      | None => (second ++ [Log ERROR], false, Returned)
      | Some file =>
          let third := second ++ [Send ReuploadedPhoto caption] in
          match send_photo T (PhotoFile file) caption with
          | Sent => (third ++ [Log INFO], true, Returned)
          | RaisesTelegramError => (third ++ [Log ERROR], false, Returned)
          | RaisesOther => (third, false, Raised)
          end
      end
  end.

(** The [if not photo_sent:] block. *)
Definition text_stage (post_text : str) : list event * completion :=
  let body := final_text_md2 post_text in
  let first := [Send RichText body] in
  match send_message T body MarkdownV2 with
  | Sent => (first ++ [Log INFO], Returned)
  | RaisesOther => (first, Raised)
  | RaisesTelegramError =>
      let plain := plain_text post_text in
      let second := first ++ [Log ERROR; Send PlainText plain] in
      match send_message T plain NoMarkup with
      | Sent => (second ++ [Log INFO], Returned)
      | RaisesTelegramError => (second ++ [Log CRITICAL], Returned)
      | RaisesOther => (second, Raised)
      end
  end.

(** Truth value of [image_url : str | None]. *)
Definition truthy (image_url : option str) : bool :=
  match image_url with
  | Some (_ :: _) => true
  | _ => false
  end.

Definition send_to_telegram (post_text : str) (image_url : option str)
  : list event * completion :=
  let '(photo_events, photo_sent, photo_end) :=
    match image_url with
    | Some (c :: u) => photo_stage post_text (c :: u)
    | _ => ([], false, Returned)
    end in
  match photo_end with
  | Raised => (photo_events, Raised)
  | Returned =>
      if negb photo_sent then
        let (text_events, text_end) := text_stage post_text in
        (photo_events ++ text_events, text_end)
      else (photo_events, Returned)
  end.

End Chain.

(** The delivery attempts of a run: the strategies of its [bot] calls. *)
Fixpoint attempts (trace : list event) : list strategy :=
  match trace with
  | [] => []
  | Send s _ :: t => s :: attempts t
  | _ :: t => attempts t
  end.

Definition logged (l : level) (trace : list event) : bool :=
  existsb (fun e => match e, l with
                    | Log INFO, INFO | Log WARNING, WARNING
                    | Log ERROR, ERROR | Log CRITICAL, CRITICAL => true
                    | _, _ => false
                    end) trace.

(** The budget of each state that sends a caption or body with markup. *)
Definition state_limit (s : strategy) : Z :=
  match s with
  | RemotePhoto | ReuploadedPhoto => 1024
  | RichText | PlainText => 4096
  end.

(** The payload of a state that sends markup: the escaped body, cut to
    the limit of the state less the link when both do not fit, then the
    link. *)
Definition markup_payload (CHANNEL_LINK : str) (s : strategy)
           (post_text : str) : str :=
  let link := link_md2 CHANNEL_LINK in
  let base := prepare_markdown_v2 post_text None in
  (if (len base + len link >? state_limit s)%Z
   then _truncate_markdown_v2_safely base (state_limit s - len link)
   else base) ++ link.

(** A transport that refuses every send with [TelegramError] and serves
    every download as an image. *)
Definition refusing_transport : transport :=
  {| send_photo := fun _ _ => RaisesTelegramError;
     send_message := fun _ _ => RaisesTelegramError;
     http_get := fun _ => HttpResponse IMAGE [] |}.

End Delivery.

(** ** Image selection: [select_best_image] *)

Module ImageSelection.
Import Delivery.

(** [model.generate_content(prompt_parts)] followed by [response.text]:
    an exception, or the text of the answer. *)
Inductive rank_result := RankRaises | RankText (raw : str).

Section Select.
(** [str.lower]; the digits matched by [\d] and their values under
    [int]. *)
Variable lower : str -> str.
Variable is_digit : char -> bool.
Variable digit_value : char -> Z.
(** The download of the candidate at a position of [image_urls[:5]];
    whether [Image.open] and [convert] accept a body; the model's answer
    to the prompt built from the loaded candidates. *)
Variable http_get : nat -> str -> http_result.
Variable image_opens : list N -> bool.
Variable generate_content : list str -> rank_result.

(** The body of the [try] in the loading loop: does the candidate
    reach the three [append] calls? *)
Definition loads (position : nat) (url : str) : bool :=
  match http_get position url with
  | HttpFails => false
  | HttpResponse header body =>
      let content_type := lower header in
      if contains SVG content_type || endswith (lower url) DOT_SVG
      then false
      else image_opens body
  end.

(** The loop [for url in image_urls[:5]], giving [valid_urls_for_model]
    (and [index_to_url], which receives the same appends). *)
Fixpoint load_from (position : nat) (urls : list str) : list str :=
  match urls with
  | [] => []
  | url :: rest =>
      if loads position url
      then url :: load_from (S position) rest
      else load_from (S position) rest
  end.

Definition valid_urls_for_model (image_urls : list str) : list str :=
  load_from 0 (firstn 5 image_urls).

(** [re.search(r"(\d+)", raw)]: the first maximal run of digits. *)
Fixpoint take_digits (s : str) : str :=
  match s with
  | c :: t => if is_digit c then c :: take_digits t else []
  | [] => []
  end.

Fixpoint search_digits (s : str) : option str :=
  match s with
  | [] => None
  | c :: t => if is_digit c then Some (c :: take_digits t) else search_digits t
  end.

(** [int(m.group(1))] *)
Definition int_of_digits (ds : str) : Z :=
  fold_left (fun acc c => 10 * acc + digit_value c)%Z ds 0%Z.

(** The candidate named by the answer, when the answer holds a number
    that is a position of [index_to_url]. *)
Definition chosen (index_to_url : list str) (raw : str) : option str :=
  match search_digits raw with
  | None => None
  | Some ds =>
      let idx := (int_of_digits ds - 1)%Z in
      if (0 <=? idx)%Z && (idx <? Z.of_nat (length index_to_url))%Z
      then nth_error index_to_url (Z.to_nat idx)
      else None
  end.

Definition select_best_image (image_urls : list str) : option str :=
  match image_urls with
  | [] => None
  | _ :: _ =>
      let valid := valid_urls_for_model image_urls in
      match valid with
      | [] => None
      | first_valid :: _ =>
          match generate_content valid with
          | RankRaises => Some first_valid
          | RankText text =>
              match chosen valid (strip text) with
              | Some url => Some url
              | None => Some first_valid
              end
          end
      end
  end.

(** The ranking gave no usable answer: it raised, or its text names no
    position of the loaded candidates. *)
Definition no_clear_answer (image_urls : list str) : Prop :=
  match generate_content (valid_urls_for_model image_urls) with
  | RankRaises => True
  | RankText text => chosen (valid_urls_for_model image_urls) (strip text) = None
  end.

End Select.

(** The ASCII digits, for the examples. *)
Definition ascii_digit (c : char) : bool := ((48 <=? c) && (c <=? 57))%N.
Definition ascii_digit_value (c : char) : Z := (Z.of_N c - 48)%Z.

(** A download that always fails, and one that fails for the first
    candidate only. *)
Definition no_download (_ : nat) (_ : str) : http_result := HttpFails.
Definition first_download_fails (position : nat) (_ : str) : http_result :=
  match position with
  | O => HttpFails
  | S _ => HttpResponse IMAGE []
  end.
Definition every_download (_ : nat) (_ : str) : http_result :=
  HttpResponse IMAGE [].

End ImageSelection.

(** ** The daily schedule: the loop of [main] *)

Module Scheduler.

Record job := { hour : Z; minute : Z }.

Section Schedule.
(** [config.POSTS_PER_DAY], [START_HOUR], [END_HOUR]; the value drawn by
    the [i]-th call of [random.randint(a, b)]. *)
Variables POSTS_PER_DAY START_HOUR END_HOUR : Z.
Variable randint : nat -> Z -> Z -> Z.

Definition total_minutes_in_range : Z := (END_HOUR - START_HOUR) * 60.

Definition interval_minutes : Z :=
  if (POSTS_PER_DAY >? 0)%Z
  then (total_minutes_in_range / POSTS_PER_DAY)%Z
  else (total_minutes_in_range + 1)%Z.

Definition random_offset (i : nat) : Z :=
  randint i 0 (Z.max 0 (interval_minutes - 1)).

Definition scheduled_minute_abs (i : nat) : Z :=
  (Z.of_nat i * interval_minutes + random_offset i)%Z.

Definition scheduled (i : nat) : job :=
  {| hour := (START_HOUR + scheduled_minute_abs i / 60)%Z;
     minute := (scheduled_minute_abs i mod 60)%Z |}.

(** [for i in range(POSTS_PER_DAY)]: the jobs added to the scheduler. *)
Definition schedule : list job :=
  map scheduled (seq 0 (Z.to_nat POSTS_PER_DAY)).

End Schedule.

(** [random.randint(a, b)] returns an integer between [a] and [b],
    both included. *)
Definition randint_in_range (randint : nat -> Z -> Z -> Z) : Prop :=
  forall i a b, (a <= b)%Z -> (a <= randint i a b <= b)%Z.

(** Minutes since midnight of a job. *)
Definition minute_of_day (j : job) : Z := (hour j * 60 + minute j)%Z.

(** The draw that always returns the lower bound. *)
Definition lowest_draw (_ : nat) (a _ : Z) : Z := a.

End Scheduler.

(** ** The order of the delivery states *)

Module ChainOrder.
Import Delivery.

Definition strategy_eqb (a b : strategy) : bool :=
  match a, b with
  | RemotePhoto, RemotePhoto | ReuploadedPhoto, ReuploadedPhoto
  | RichText, RichText | PlainText, PlainText => true
  | _, _ => false
  end.

(** The four states in the order in which [send_to_telegram] tries them. *)
Definition chain_order : list strategy :=
  [RemotePhoto; ReuploadedPhoto; RichText; PlainText].

(** [a] is [b] with some elements left out. *)
Fixpoint subsequence (a b : list strategy) {struct b} : bool :=
  match a, b with
  | [], _ => true
  | _ :: _, [] => false
  | x :: a', y :: b' =>
      if strategy_eqb x y then subsequence a' b' else subsequence a b'
  end.

(** The image download of a run. *)
Fixpoint fetches (trace : list event) : list str :=
  match trace with
  | [] => []
  | Fetch url :: t => url :: fetches t
  | _ :: t => fetches t
  end.

End ChainOrder.

(** ** Post generation: [generate_news_post] *)

Module PostGeneration.

(** [model.generate_content(prompt)] followed by [response.text]: an
    exception, or the text of the answer. *)
Inductive generation := GenerationRaises | Generated (text : str).

Definition FENCE : str := [BACKTICK; BACKTICK; BACKTICK].

(** "markdown" *)
Definition MARKDOWN : str := [109; 97; 114; 107; 100; 111; 119; 110]%N.

(** One attempt of [^```(markdown)?\n|```$] under [re.MULTILINE] at a
    position, knowing whether a line starts there.  The first alternative
    needs the start of a line, the fence, the optional word and a newline,
    and consumes them all; the second needs the fence followed by the end
    of the text or by a newline, and consumes the fence only.  The result
    is the input after the match and whether a line starts there. *)
Definition fence_match (line_start : bool) (s : str) : option (str * bool) :=
  match strip_prefix FENCE s with
  | None => None
  | Some after =>
      let opening :=
        if line_start then
          match strip_prefix MARKDOWN after with
          | Some (c :: rest) => if ch_eq c NEWLINE then Some rest else None
          | Some [] => None
          | None =>
              match after with
              | c :: rest => if ch_eq c NEWLINE then Some rest else None
              | [] => None
              end
          end
        else None in
      match opening with
      | Some rest => Some (rest, true)
      | None =>
          match after with
          | [] => Some ([], false)
          | c :: _ => if ch_eq c NEWLINE then Some (after, false) else None
          end
      end
  end.

(** [re.sub(r'^```(markdown)?\n|```$', '', text, flags=re.MULTILINE)]:
    every match consumes the fence, so the length of the text is enough
    fuel (see [remove_fences_fuel_enough]). *)
Fixpoint remove_fences_fuel (fuel : nat) (line_start : bool) (s : str) : str :=
  match fuel with
  | O => s
  | S f =>
      match fence_match line_start s with
      | Some (rest, starts) => remove_fences_fuel f starts rest
      | None =>
          match s with
          | [] => []
          | c :: t => c :: remove_fences_fuel f (ch_eq c NEWLINE) t
          end
      end
  end.

Definition remove_fences (s : str) : str :=
  remove_fences_fuel (length s) true s.

Section Generate.
(** [TEXT_GENERATION_PROMPT.format(article_text=...)], nothing when the
    formatting raises; the model. *)
Variable prompt_of : str -> option str.
Variable generate_content : str -> generation.

Definition generate_news_post (article_text : str) : option str :=
  if match article_text with [] => true | _ :: _ => false end
     || (len (strip article_text) <? 100)%Z
  then None
  else
    match prompt_of article_text with
    | None => None
    | Some prompt =>
        match generate_content prompt with
        | GenerationRaises => None
        | Generated generated_post =>
            Some (strip (remove_fences generated_post))
        end
    end.

End Generate.
End PostGeneration.

(** ** The feed reader and the scraper: [data_fetcher.py] *)

Module DataFetcher.

Definition CR : char := 13%N.

(** Reading a file in text mode turns "\r\n" and a lone "\r" into "\n". *)
Fixpoint universal_newlines (s : str) : str :=
  match s with
  | [] => []
  | c :: t =>
      if ch_eq c CR then
        NEWLINE :: match t with
                   | d :: t' =>
                       if ch_eq d NEWLINE then universal_newlines t'
                       else universal_newlines t
                   | [] => []
                   end
      else c :: universal_newlines t
  end.

(** Writing in text mode turns "\n" into [os.linesep]. *)
Definition written (linesep : str) (s : str) : str :=
  flat_map (fun c => if ch_eq c NEWLINE then linesep else [c]) s.

(** [for line in f]: the lines of a text, each with its newline. *)
Fixpoint lines (s : str) : list str :=
  match s with
  | [] => []
  | c :: t =>
      if ch_eq c NEWLINE then [c] :: lines t
      else
        match lines t with
        | [] => [[c]]
        | l :: ls => (c :: l) :: ls
        end
  end.

(** [url in published_urls] *)
Definition member (url : str) (urls : list str) : bool :=
  existsb (Truncator.str_eqb url) urls.

(** A text made of whole lines: empty, or ending in a newline. *)
Definition ends_lines (s : str) : Prop :=
  s = [] \/ exists body, s = body ++ [NEWLINE].

(** A URL that fits on one line of the file and is not changed by
    [strip]. *)
Definition one_line (url : str) : Prop :=
  count NEWLINE url = 0 /\ count CR url = 0 /\ strip url = url.

(** [os.linesep] is "\n" or "\r\n". *)
Definition known_linesep (linesep : str) : Prop :=
  linesep = [NEWLINE] \/ linesep = [CR; NEWLINE].

(** [PUBLISHED_URLS_FILE]: absent, or its content. *)
Definition file := option str.

(** How [add_url_to_published] fares: the text is appended, [open] raises,
    or the file is opened (and created) but the write raises. *)
Inductive write_outcome := Written | OpenRaises | WriteRaises.

Section Store.
(** [os.linesep] *)
Variable linesep : str.

(** The set is kept as the list of its elements in file order. *)
Definition load_published_urls (f : file) (read_raises : bool) : list str :=
  match f with
  | None => []
  | Some content =>
      if read_raises then []
      else map strip (lines (universal_newlines content))
  end.

Definition add_url_to_published (f : file) (w : write_outcome) (url : str)
  : file :=
  let before := match f with None => [] | Some content => content end in
  match w with
  | Written => Some (before ++ written linesep (url ++ [NEWLINE]))
  | OpenRaises => f
  | WriteRaises => Some before
  end.

(** An entry of a parsed feed; an attribute that is missing raises
    [AttributeError] when read. *)
Record entry := { link : option str; title : option str }.

(** [feedparser.parse(feed_url)] *)
Inductive feed_result :=
| ParseRaises
| Parsed (bozo : bool) (entries : list entry).

(** The inner loop over the entries of one feed. *)
Inductive entry_scan :=
| Found (title url : str)
| Exhausted
| Broken.

Fixpoint scan_entries (published : list str) (entries : list entry)
  : entry_scan :=
  match entries with
  | [] => Exhausted
  | e :: rest =>
      match link e with
      | None => Broken
      | Some article_url =>
          if negb (member article_url published) then
            match title e with
            | None => Broken
            | Some t => Found t article_url
            end
          else scan_entries published rest
      end
  end.

(** The loop over [RSS_FEEDS]; a feed that is malformed, raises or breaks
    is left for the next one. *)
Fixpoint scan_feeds (published : list str) (feeds : list feed_result)
  : option (str * str) :=
  match feeds with
  | [] => None
  | ParseRaises :: rest => scan_feeds published rest
  | Parsed bozo entries :: rest =>
      if bozo then scan_feeds published rest
      else
        match scan_entries published entries with
        | Found t url => Some (t, url)
        | Exhausted | Broken => scan_feeds published rest
        end
  end.

(** The result, [(None, None)] as [None], and the file afterwards. *)
Definition get_latest_news_from_rss (f : file) (read_raises : bool)
           (w : write_outcome) (feeds : list feed_result)
  : option (str * str) * file :=
  let published_urls := load_published_urls f read_raises in
  match scan_feeds published_urls feeds with
  | Some (t, article_url) =>
      (Some (t, article_url), add_url_to_published f w article_url)
  | None => (None, f)
  end.

End Store.

(** The page as the parser shows it: the text of the article container
    given by [get_text(separator=' ', strip=True)] after the unwanted tags
    are removed, and the [src] attribute of each of its [img] tags, absent
    when the tag has none. *)
Record article_body := { body_text : str; img_srcs : list (option str) }.

(** The download and parse of the page: an exception, or the article
    container, absent when the page has none. *)
Inductive page := PageRaises | Page (article : option article_body).

Record scraped := { raw_text : str; image_urls : list str }.

(** [re.sub(r'\s+', ' ', raw_text)]: each run of whitespace becomes one
    space. *)
Fixpoint collapse_whitespace (in_run : bool) (s : str) : str :=
  match s with
  | [] => []
  | c :: t =>
      if isspace c then
        if in_run then collapse_whitespace true t
        else SPACE :: collapse_whitespace true t
      else c :: collapse_whitespace false t
  end.

Definition cleaned_text (raw : str) : str :=
  strip (collapse_whitespace false raw).

(** Every whitespace character is a space, and none follows another. *)
Fixpoint single_spaced (after_space : bool) (s : str) : bool :=
  match s with
  | [] => true
  | c :: t =>
      if isspace c
      then ch_eq c SPACE && negb after_space && single_spaced true t
      else single_spaced false t
  end.

(** The characters of a text that are not whitespace. *)
Definition visible (s : str) : str := filter (fun c => negb (isspace c)) s.

(** [s.startswith(p)] *)
Definition startswith (s p : str) : bool :=
  match strip_prefix p s with
  | Some _ => true
  | None => false
  end.

(** "data:" and ".gif" *)
Definition DATA_COLON : str := [100; 97; 116; 97; 58]%N.
Definition DOT_GIF : str := [46; 103; 105; 102]%N.

(** [list(dict.fromkeys(l))]: the first occurrence of each element. *)
Fixpoint unique_from (seen : list str) (l : list str) : list str :=
  match l with
  | [] => []
  | x :: t =>
      if member x seen then unique_from seen t
      else x :: unique_from (x :: seen) t
  end.

Section Scrape.
(** [str.lower] and [urllib.parse.urljoin]. *)
Variable lower : str -> str.
Variable urljoin : str -> str -> str.

(** The tests of the image loop: is this [src] kept? *)
Definition keeps (src : str) : bool :=
  negb (startswith src DATA_COLON || (len src <? 20)%Z)
  && negb (endswith (lower src) DOT_SVG || endswith (lower src) DOT_GIF).

Fixpoint collect_images (url : str) (imgs : list (option str)) : list str :=
  match imgs with
  | [] => []
  | None :: rest => collect_images url rest
  | Some src :: rest =>
      if keeps src then urljoin url src :: collect_images url rest
      else collect_images url rest
  end.

Definition scrape_article_content (url : str) (p : page) : option scraped :=
  match p with
  | PageRaises => None
  | Page None => None
  | Page (Some article) =>
      Some {| raw_text := cleaned_text (body_text article);
              image_urls := unique_from [] (collect_images url (img_srcs article)) |}
  end.

End Scrape.
End DataFetcher.

(** ** One cycle: [process_and_post_news] *)

Module Orchestrator.
Import Delivery PostGeneration DataFetcher.

(** Everything outside the program that one cycle meets. *)
Record world := {
  CHANNEL_LINK : str;
  linesep : str;
  lower : str -> str;
  urljoin : str -> str -> str;
  read_raises : bool;
  write : write_outcome;
  feeds : list feed_result;
  page_of : str -> page;
  prompt_of : str -> option str;
  generate_content : str -> generation;
  is_digit : char -> bool;
  digit_value : char -> Z;
  image_prompt_raises : bool;   (* IMAGE_SELECTION_PROMPT.format(...) *)
  image_get : nat -> str -> http_result;
  image_opens : list N -> bool;
  rank : list str -> ImageSelection.rank_result;
  telegram : transport
}.

(** What a cycle leaves behind: the records of the delivery, the levels
    logged by the cycle itself, and the file of published URLs. *)
Record cycle := {
  delivery : list event;
  logs : list level;
  published_file : file
}.

Definition process_and_post_news (w : world) (f : file) : cycle :=
  let (found, f') :=
    get_latest_news_from_rss (linesep w) f (read_raises w) (write w) (feeds w) in
  match found with
  | None | Some (_, []) =>
      {| delivery := []; logs := [INFO; INFO]; published_file := f' |}
  | Some (_, article_url) =>
      match scrape_article_content (lower w) (urljoin w) article_url
              (page_of w article_url) with
      | None =>
          {| delivery := []; logs := [INFO; ERROR]; published_file := f' |}
      | Some scraped_data =>
          match raw_text scraped_data with
          | [] => {| delivery := []; logs := [INFO; ERROR]; published_file := f' |}
          | _ :: _ =>
              match generate_news_post (prompt_of w) (generate_content w)
                      (raw_text scraped_data) with
              | None | Some [] =>
                  {| delivery := []; logs := [INFO; ERROR]; published_file := f' |}
              | Some generated_post =>
                  if match image_urls scraped_data with
                     | [] => false
                     | _ :: _ => image_prompt_raises w
                     end
                  then
                    (* the exception reaches the handler of the cycle *)
                    {| delivery := []; logs := [INFO; CRITICAL];
                       published_file := f' |}
                  else
                  let best_image_url :=
                    match image_urls scraped_data with
                    | [] => None
                    | _ :: _ =>
                        ImageSelection.select_best_image (lower w) (is_digit w)
                          (digit_value w) (image_get w) (image_opens w) (rank w)
                          (image_urls scraped_data)
                    end in
                  let (events, ending) :=
                    send_to_telegram (CHANNEL_LINK w) (lower w) (telegram w)
                      generated_post best_image_url in
                  {| delivery := events;
                     logs := INFO
                             :: match image_urls scraped_data with
                                | [] => [INFO]
                                | _ :: _ => []
                                end
                             ++ match ending with
                                | Returned => []
                                | Raised => [CRITICAL]
                                end;
                     published_file := f' |}
              end
          end
      end
  end.

(** A world to run a cycle in: one feed with one entry, a page whose
    article is a hundred letters without images, a model that answers
    "hi" and a bot that accepts every call. *)
Definition quiet_world : world :=
  {| CHANNEL_LINK := [120]%N;
     linesep := [NEWLINE];
     lower := fun s => s;
     urljoin := fun _ src => src;
     read_raises := false;
     write := Written;
     feeds := [Parsed false [{| link := Some [117; 49]%N;
                                title := Some [116]%N |}]];
     page_of := fun _ => Page (Some {| body_text := repeat 97%N 100;
                                       img_srcs := [] |});
     prompt_of := fun t => Some t;
     generate_content := fun _ => Generated [104; 105]%N;
     is_digit := ImageSelection.ascii_digit;
     digit_value := ImageSelection.ascii_digit_value;
     image_prompt_raises := false;
     image_get := fun _ _ => HttpFails;
     image_opens := fun _ => false;
     rank := fun _ => ImageSelection.RankRaises;
     telegram := {| send_photo := fun _ _ => Sent;
                    send_message := fun _ _ => Sent;
                    http_get := fun _ => HttpFails |} |}.

End Orchestrator.

(** * Properties *)

(** ** Rewriting never runs out of fuel *)

Module TextFacts.

Lemma ch_eq_true (c d : char) : ch_eq c d = true <-> c = d.
Proof. unfold ch_eq. apply N.eqb_eq. Qed.

Lemma ch_eq_refl (c : char) : ch_eq c c = true.
Proof. apply ch_eq_true. reflexivity. Qed.

Lemma ch_eq_sym (c d : char) : ch_eq c d = ch_eq d c.
Proof. unfold ch_eq. apply N.eqb_sym. Qed.

Lemma len_app (a b : str) : len (a ++ b) = (len a + len b)%Z.
Proof. unfold len. rewrite length_app. lia. Qed.

Lemma len_nonneg (a : str) : (0 <= len a)%Z.
Proof. unfold len. lia. Qed.

Lemma strip_prefix_length (p s rest : str) :
  strip_prefix p s = Some rest -> length s = length p + length rest.
Proof.
  revert s. induction p as [|a p IH]; intros [|b s] H; simpl in *;
    try discriminate; try (inversion H; subst; reflexivity).
  destruct (ch_eq a b); [|discriminate].
  rewrite (IH _ H). reflexivity.
Qed.

Lemma strip_prefix_app (p s rest : str) :
  strip_prefix p s = Some rest -> s = p ++ rest.
Proof.
  revert s. induction p as [|a p IH]; intros [|b s] H; simpl in *;
    try discriminate; try (inversion H; subst; reflexivity).
  destruct (ch_eq a b) eqn:E; [|discriminate].
  apply ch_eq_true in E. subst. f_equal. apply IH, H.
Qed.

(** A matcher consumes when what it leaves is shorter than what it got. *)
Definition consumes (m : str -> option (str * str)) : Prop :=
  forall s out rest, m s = Some (out, rest) -> length rest < length s.

Section Fuel.
Variable m : str -> option (str * str).
Hypothesis m_consumes : consumes m.

Lemma rewrite_fuel_enough (n : nat) :
  forall s, length s <= n -> rewrite_fuel m n s = rewrite_all m s.
Proof.
  unfold rewrite_all.
  induction n as [n IH] using lt_wf_ind. intros s Hs.
  destruct n as [|n].
  - destruct s; [reflexivity | simpl in Hs; lia].
  - destruct s as [|c t].
    + simpl. destruct (m []) as [[out rest]|] eqn:E; [|reflexivity].
      apply m_consumes in E. simpl in E. lia.
    + cbn [rewrite_fuel length].
      destruct (m (c :: t)) as [[out rest]|] eqn:E.
      * pose proof (m_consumes _ _ _ E) as Hlt. simpl in Hlt, Hs.
        rewrite (IH n) by lia.
        rewrite (IH (length t)) by lia. reflexivity.
      * simpl in Hs. rewrite (IH n) by lia. reflexivity.
Qed.

(** The unfolding equations of a rewriting pass. *)
Lemma rewrite_all_nil : rewrite_all m [] = [].
Proof. reflexivity. Qed.

Lemma rewrite_all_hit (s out rest : str) :
  m s = Some (out, rest) -> rewrite_all m s = out ++ rewrite_all m rest.
Proof.
  intros E. pose proof (m_consumes _ _ _ E) as Hlt.
  unfold rewrite_all at 1. destruct s as [|c t]; [simpl in Hlt; lia|].
  cbn [rewrite_fuel length]. rewrite E.
  rewrite rewrite_fuel_enough by (simpl in Hlt; lia). reflexivity.
Qed.

Lemma rewrite_all_miss (c : char) (t : str) :
  m (c :: t) = None -> rewrite_all m (c :: t) = c :: rewrite_all m t.
Proof.
  intros E. unfold rewrite_all at 1. cbn [rewrite_fuel length].
  rewrite E. reflexivity.
Qed.

(** Induction along the scan of a rewriting pass. *)
Lemma rewrite_all_ind (P : str -> str -> Prop) :
  P [] [] ->
  (forall s out rest, m s = Some (out, rest) ->
     P rest (rewrite_all m rest) -> P s (out ++ rewrite_all m rest)) ->
  (forall c t, m (c :: t) = None ->
     P t (rewrite_all m t) -> P (c :: t) (c :: rewrite_all m t)) ->
  forall s, P s (rewrite_all m s).
Proof.
  intros Hnil Hhit Hmiss s.
  remember (length s) as n eqn:Hn. revert s Hn.
  induction n as [n IH] using lt_wf_ind. intros s Hn.
  destruct (m s) as [[out rest]|] eqn:E.
  - rewrite (rewrite_all_hit _ _ _ E). apply Hhit; [exact E|].
    apply (IH (length rest)); [|reflexivity].
    pose proof (m_consumes _ _ _ E). lia.
  - destruct s as [|c t]; [exact Hnil|].
    rewrite (rewrite_all_miss _ _ E). apply Hmiss; [exact E|].
    apply (IH (length t)); [|reflexivity]. subst n. simpl. lia.
Qed.
End Fuel.

Lemma replace_consumes (old new : str) : consumes (replace_matcher old new).
Proof.
  intros s out rest H. unfold replace_matcher in H.
  destruct old as [|a old]; [discriminate|].
  destruct (strip_prefix (a :: old) s) as [r|] eqn:E; [|discriminate].
  inversion H; subst. apply strip_prefix_length in E. simpl in E. lia.
Qed.

(** Replacing a single character is a character-wise map. *)
Lemma replace_char (c : char) (new s : str) :
  replace [c] new s = flat_map (fun d => if ch_eq c d then new else [d]) s.
Proof.
  unfold replace.
  induction s as [|d t IH]; [reflexivity|].
  destruct (ch_eq c d) eqn:E.
  - rewrite (rewrite_all_hit _ (replace_consumes [c] new) (d :: t) new t).
    + simpl. rewrite E, IH. reflexivity.
    + simpl. rewrite E. reflexivity.
  - rewrite rewrite_all_miss.
    + simpl. rewrite E, IH. reflexivity.
    + simpl. rewrite E. reflexivity.
Qed.

End TextFacts.

(** ** The formatter *)

Module FormatterFacts.
Import TextFacts Formatter.

#[local] Arguments is_reserved : simpl never.
#[local] Arguments ch_eq : simpl never.

Lemma count_app (c : char) (a b : str) :
  count c (a ++ b) = count c a + count c b.
Proof. induction a as [|d a IH]; simpl; [reflexivity | rewrite IH; lia]. Qed.

Lemma count_flat_map (c : char) (f : char -> str) (s : str) :
  (forall d, count c (f d) = count c [d]) ->
  count c (flat_map f s) = count c s.
Proof.
  intros Hf. induction s as [|d t IH]; [reflexivity|].
  cbn [flat_map]. rewrite count_app, Hf, IH. simpl. lia.
Qed.

Lemma span_class_app (s : str) :
  s = fst (span_class s) ++ snd (span_class s).
Proof.
  induction s as [|c t IH]; [reflexivity|]. simpl.
  destruct (in_span_class c); [|reflexivity].
  destruct (span_class t) as [run rest]. simpl in *. congruence.
Qed.

(** What a successful attempt of a span pattern has read and written. *)
Lemma span_matcher_hit (delim mark s out rest : str) :
  span_matcher delim mark s = Some (out, rest) ->
  exists inner,
    inner <> [] /\ s = delim ++ inner ++ delim ++ rest
    /\ out = mark ++ inner ++ mark.
Proof.
  unfold span_matcher. intros H.
  destruct (strip_prefix delim s) as [after|] eqn:E1; [|discriminate].
  pose proof (span_class_app after) as Hsplit.
  destruct (span_class after) as [[|c inner] rest0]; [discriminate|].
  destruct (strip_prefix delim rest0) as [rest'|] eqn:E2; [|discriminate].
  apply strip_prefix_app in E1. apply strip_prefix_app in E2.
  cbn [fst snd] in Hsplit. inversion H. exists (c :: inner).
  split; [discriminate|]. split; [|reflexivity]. congruence.
Qed.

Lemma span_matcher_consumes (delim mark : str) :
  consumes (span_matcher delim mark).
Proof.
  intros s out rest H. apply span_matcher_hit in H.
  destruct H as (inner & Hne & -> & _). rewrite !length_app.
  destruct inner; [congruence | simpl; lia].
Qed.

Lemma reserved_consumes : consumes reserved_matcher.
Proof.
  intros [|c t] out rest H; simpl in H; [discriminate|].
  destruct (is_reserved c); [|discriminate]. inversion H; subst. simpl. lia.
Qed.

Lemma escape_reserved_map (s : str) :
  escape_reserved s
  = flat_map (fun c => if is_reserved c then [BACKSLASH; c] else [c]) s.
Proof.
  unfold escape_reserved. induction s as [|c t IH]; [reflexivity|].
  destruct (is_reserved c) eqn:E.
  - rewrite (rewrite_all_hit _ reserved_consumes (c :: t) [BACKSLASH; c] t).
    + cbn [flat_map]. rewrite E, IH. reflexivity.
    + simpl. rewrite E. reflexivity.
  - rewrite rewrite_all_miss.
    + cbn [flat_map]. rewrite E, IH. reflexivity.
    + simpl. rewrite E. reflexivity.
Qed.

Lemma flat_map_flat_map (f g : char -> str) (s : str) :
  flat_map g (flat_map f s) = flat_map (fun c => flat_map g (f c)) s.
Proof.
  induction s as [|c t IH]; [reflexivity|].
  cbn [flat_map]. rewrite flat_map_app, IH. reflexivity.
Qed.

(** The backslash pass followed by the reserved-character pass writes at
    most one backslash in front of each character. *)
Lemma two_passes_escape_once (t : str) :
  escape_reserved (escape_backslashes t) = flat_map escape_char t.
Proof.
  unfold escape_backslashes.
  rewrite replace_char, escape_reserved_map, flat_map_flat_map.
  apply flat_map_ext. intros c. unfold escape_char.
  rewrite (ch_eq_sym c BACKSLASH).
  destruct (ch_eq BACKSLASH c) eqn:E.
  - apply ch_eq_true in E. subst c. reflexivity.
  - cbn [flat_map app orb]. destruct (is_reserved c); reflexivity.
Qed.

Lemma unmask_escape_char (c : char) :
  flat_map (fun d => if ch_eq ITALIC_MASK d then [STAR] else [d])
    (flat_map (fun d => if ch_eq BOLD_MASK d then [STAR; STAR] else [d])
       (escape_char c))
  = output_of c.
Proof.
  unfold escape_char, output_of.
  rewrite (ch_eq_sym c BOLD_MASK), (ch_eq_sym c ITALIC_MASK).
  destruct (ch_eq c BACKSLASH) eqn:Eb.
  - apply ch_eq_true in Eb. subst c. reflexivity.
  - destruct (is_reserved c) eqn:Er.
    + cbn [orb flat_map app].
      assert (Hb : ch_eq BOLD_MASK c = false).
      { destruct (ch_eq BOLD_MASK c) eqn:E; [|reflexivity].
        apply ch_eq_true in E. subst c. discriminate Er. }
      assert (Hi : ch_eq ITALIC_MASK c = false).
      { destruct (ch_eq ITALIC_MASK c) eqn:E; [|reflexivity].
        apply ch_eq_true in E. subst c. discriminate Er. }
      change (ch_eq BOLD_MASK BACKSLASH) with false.
      rewrite Hb. cbn [flat_map app].
      change (ch_eq ITALIC_MASK BACKSLASH) with false.
      rewrite Hi. reflexivity.
    + cbn [orb flat_map app].
      destruct (ch_eq BOLD_MASK c) eqn:E1; [reflexivity|].
      cbn [flat_map app]. destruct (ch_eq ITALIC_MASK c); reflexivity.
Qed.

(** The formatter is the character-wise map [output_of] applied to the
    normalised and masked text. *)
Lemma format_by_char (text : str) :
  _escape_md_v2_preserving_formatting text
  = flat_map output_of (mask (normalize text)).
Proof.
  unfold _escape_md_v2_preserving_formatting.
  fold (normalize text). fold (mask (normalize text)).
  fold (escape_backslashes (mask (normalize text))).
  rewrite two_passes_escape_once, !replace_char.
  induction (mask (normalize text)) as [|c t IH]; [reflexivity|].
  cbn [flat_map]. rewrite !flat_map_app, IH, unmask_escape_char.
  reflexivity.
Qed.

Lemma well_escaped_output (u rest : str) :
  well_escaped rest = true -> well_escaped (flat_map output_of u ++ rest) = true.
Proof.
  intros Hrest. induction u as [|c t IH]; [exact Hrest|].
  cbn [flat_map]. rewrite <- app_assoc. unfold output_of at 1.
  destruct (ch_eq c BACKSLASH) eqn:Eb.
  - apply ch_eq_true in Eb. subst c. cbn [orb app well_escaped].
    rewrite ch_eq_refl, IH, orb_true_r. reflexivity.
  - destruct (is_reserved c) eqn:Er.
    + cbn [orb app well_escaped]. rewrite ch_eq_refl, Er, IH. reflexivity.
    + cbn [orb]. destruct (ch_eq c BOLD_MASK) eqn:E1;
        [|destruct (ch_eq c ITALIC_MASK) eqn:E2].
      * cbn [app well_escaped]. rewrite IH. reflexivity.
      * cbn [app well_escaped]. rewrite IH. reflexivity.
      * cbn [app well_escaped]. rewrite Eb, Er, IH. reflexivity.
Qed.

Lemma follow_backslash_mono (s : str) :
  reserved_follow_backslash false s = true ->
  reserved_follow_backslash true s = true.
Proof.
  destruct s as [|c t]; [reflexivity|]. cbn [reserved_follow_backslash].
  rewrite orb_true_r. intros H. apply andb_true_iff in H. apply H.
Qed.

Lemma well_escaped_follow_backslash (s : str) :
  well_escaped s = true -> reserved_follow_backslash false s = true.
Proof.
  remember (length s) as n eqn:Hn. revert s Hn.
  induction n as [n IH] using lt_wf_ind. intros s Hn H.
  destruct s as [|c t]; [reflexivity|].
  cbn [well_escaped reserved_follow_backslash] in *.
  destruct (ch_eq c BACKSLASH) eqn:Eb.
  - destruct t as [|d t']; [discriminate|].
    apply andb_true_iff in H. destruct H as [_ H].
    assert (Hc : is_reserved c = false).
    { apply ch_eq_true in Eb. subst c. reflexivity. }
    rewrite Hc. cbn [negb orb andb reserved_follow_backslash].
    rewrite orb_true_r. cbn [andb].
    assert (Ht : reserved_follow_backslash false t' = true).
    { apply (IH (length t')); [subst n; simpl; lia | reflexivity | exact H]. }
    destruct (ch_eq d BACKSLASH); [apply follow_backslash_mono|]; exact Ht.
  - apply andb_true_iff in H. destruct H as [Hc H]. rewrite Hc.
    cbn [orb andb]. apply (IH (length t)); [subst n; simpl; lia | reflexivity | exact H].
Qed.

Lemma replace_matcher_hit (old new s out rest : str) :
  replace_matcher old new s = Some (out, rest) ->
  out = new /\ s = old ++ rest.
Proof.
  unfold replace_matcher. destruct old as [|a old]; [discriminate|].
  destruct (strip_prefix (a :: old) s) as [r|] eqn:E; [|discriminate].
  intros H. inversion H; subst. split; [reflexivity|].
  apply strip_prefix_app, E.
Qed.

(** Each span rewritten by a normalising pass removes an even number of
    underscores. *)
Lemma span_pass_parity (delim mark s : str) :
  count UNDERSCORE mark = 0 ->
  exists k,
    count UNDERSCORE s
    = count UNDERSCORE (rewrite_all (span_matcher delim mark) s) + 2 * k.
Proof.
  intros Hmark.
  apply (rewrite_all_ind _ (span_matcher_consumes delim mark)
           (fun s r => exists k, count UNDERSCORE s = count UNDERSCORE r + 2 * k)).
  - exists 0. reflexivity.
  - intros s0 out rest Hhit [k Hk].
    apply span_matcher_hit in Hhit. destruct Hhit as (inner & _ & -> & ->).
    exists (count UNDERSCORE delim + k).
    rewrite !count_app, Hk, Hmark. lia.
  - intros c t _ [k Hk]. exists k. simpl. rewrite Hk. lia.
Qed.

Lemma normalize_parity (text : str) :
  exists k,
    count UNDERSCORE text = count UNDERSCORE (normalize text) + 2 * k.
Proof.
  unfold normalize, underscores_to_italic, underscores_to_bold.
  destruct (span_pass_parity [UNDERSCORE; UNDERSCORE] [STAR; STAR] text eq_refl)
    as [k1 H1].
  destruct (span_pass_parity [UNDERSCORE] [STAR]
              (rewrite_all (span_matcher [UNDERSCORE; UNDERSCORE] [STAR; STAR]) text)
              eq_refl) as [k2 H2].
  exists (k1 + k2). lia.
Qed.

Lemma mask_keeps_underscores (u : str) :
  count UNDERSCORE (mask u) = count UNDERSCORE u.
Proof.
  unfold mask. rewrite replace_char, count_flat_map.
  - unfold replace. symmetry.
    apply (rewrite_all_ind _ (replace_consumes [STAR; STAR] [BOLD_MASK])
             (fun s r => count UNDERSCORE s = count UNDERSCORE r)).
    + reflexivity.
    + intros s out rest Hhit IH. apply replace_matcher_hit in Hhit.
      destruct Hhit as [-> ->]. rewrite !count_app, IH. reflexivity.
    + intros c t _ IH. simpl. rewrite IH. reflexivity.
  - intros d. destruct (ch_eq STAR d) eqn:E; [|reflexivity].
    apply ch_eq_true in E. subst d. reflexivity.
Qed.

Lemma output_keeps_underscores (u : str) :
  count UNDERSCORE (flat_map output_of u) = count UNDERSCORE u.
Proof.
  apply count_flat_map. intros d. unfold output_of.
  destruct (ch_eq d BACKSLASH) eqn:Eb.
  - apply ch_eq_true in Eb. subst d. reflexivity.
  - destruct (is_reserved d) eqn:Er.
    + cbn [orb count]. change (ch_eq BACKSLASH UNDERSCORE) with false.
      destruct (ch_eq d UNDERSCORE); reflexivity.
    + cbn [orb]. destruct (ch_eq d BOLD_MASK) eqn:E1;
        [|destruct (ch_eq d ITALIC_MASK) eqn:E2]; [| |reflexivity].
      * apply ch_eq_true in E1. subst d. reflexivity.
      * apply ch_eq_true in E2. subst d. reflexivity.
Qed.

(** The underscores of the output are those left by the normalisation. *)
Lemma format_keeps_underscores (text : str) :
  count UNDERSCORE (_escape_md_v2_preserving_formatting text)
  = count UNDERSCORE (normalize text).
Proof.
  rewrite format_by_char, output_keeps_underscores.
  apply mask_keeps_underscores.
Qed.

Lemma escaped_underscore_occurs (s : str) :
  well_escaped s = true -> 0 < count UNDERSCORE s ->
  exists pre post, s = pre ++ [BACKSLASH; UNDERSCORE] ++ post.
Proof.
  remember (length s) as n eqn:Hn. revert s Hn.
  induction n as [n IH] using lt_wf_ind. intros s Hn Hw Hc.
  destruct s as [|c t]; [simpl in Hc; lia|].
  cbn [well_escaped] in Hw. destruct (ch_eq c BACKSLASH) eqn:Eb.
  - apply ch_eq_true in Eb. subst c.
    destruct t as [|d t']; [discriminate|].
    apply andb_true_iff in Hw. destruct Hw as [_ Hw].
    destruct (ch_eq d UNDERSCORE) eqn:Ed.
    + apply ch_eq_true in Ed. subst d. exists [], t'. reflexivity.
    + cbn [count] in Hc. rewrite Ed in Hc.
      change (ch_eq BACKSLASH UNDERSCORE) with false in Hc.
      cbn [Nat.add] in Hc.
      destruct (IH (length t')) with (s := t') as (pre & post & ->);
        [subst n; simpl; lia | reflexivity | exact Hw | lia |].
      exists (BACKSLASH :: d :: pre), post. reflexivity.
  - apply andb_true_iff in Hw. destruct Hw as [Hr Hw].
    assert (Ec : ch_eq c UNDERSCORE = false).
    { destruct (ch_eq c UNDERSCORE) eqn:E; [|reflexivity].
      apply ch_eq_true in E. subst c. discriminate Hr. }
    cbn [count] in Hc. rewrite Ec in Hc. cbn [Nat.add] in Hc.
    destruct (IH (length t)) with (s := t) as (pre & post & ->);
      [subst n; simpl; lia | reflexivity | exact Hw | lia |].
    exists (c :: pre), post. reflexivity.
Qed.

(** In a string whose reserved characters all follow a backslash, whatever
    precedes a reserved character ends with a backslash. *)
Lemma follow_backslash_split (pre post : str) (c : char) (b : bool) :
  reserved_follow_backslash b (pre ++ c :: post) = true ->
  is_reserved c = true ->
  (pre = [] /\ b = true) \/ exists pre', pre = pre' ++ [BACKSLASH].
Proof.
  revert b. induction pre as [|d pre IH]; intros b H Hc.
  - left. cbn [app reserved_follow_backslash] in H. rewrite Hc in H.
    destruct b; [split; reflexivity | discriminate].
  - right. cbn [app reserved_follow_backslash] in H.
    apply andb_true_iff in H. destruct H as [_ H].
    destruct (IH _ H Hc) as [[-> Hd] | [pre' ->]].
    + apply ch_eq_true in Hd. subst d. exists []. reflexivity.
    + exists (d :: pre'). reflexivity.
Qed.

(** The output of the formatter is well escaped. *)
Lemma format_well_escaped (text : str) :
  well_escaped (_escape_md_v2_preserving_formatting text) = true.
Proof.
  rewrite format_by_char. rewrite <- (app_nil_r (flat_map _ _)).
  apply well_escaped_output. reflexivity.
Qed.

(** A span pass keeps every character that occurs neither in its delimiter
    nor in its mark. *)
Lemma span_pass_keeps (c : char) (delim mark s : str) :
  count c delim = 0 -> count c mark = 0 ->
  count c (rewrite_all (span_matcher delim mark) s) = count c s.
Proof.
  intros Hd Hm.
  apply (rewrite_all_ind _ (span_matcher_consumes delim mark)
           (fun s r => count c r = count c s)).
  - reflexivity.
  - intros s0 out rest Hhit IH.
    apply span_matcher_hit in Hhit. destruct Hhit as (inner & _ & -> & ->).
    rewrite !count_app, IH, Hd, Hm. lia.
  - intros d t _ IH. simpl. rewrite IH. reflexivity.
Qed.

(** A span pass turns each underscore it consumes into one star. *)
Lemma span_pass_trades (delim mark s : str) :
  count STAR delim = 0 -> count UNDERSCORE mark = 0 ->
  count UNDERSCORE delim = count STAR mark ->
  let r := rewrite_all (span_matcher delim mark) s in
  count STAR r + count UNDERSCORE r = count STAR s + count UNDERSCORE s.
Proof.
  intros Hd Hm Hdm.
  apply (rewrite_all_ind _ (span_matcher_consumes delim mark)
           (fun s r => count STAR r + count UNDERSCORE r
                       = count STAR s + count UNDERSCORE s)).
  - reflexivity.
  - intros s0 out rest Hhit IH.
    apply span_matcher_hit in Hhit. destruct Hhit as (inner & _ & -> & ->).
    rewrite !count_app, Hd, Hm. lia.
  - intros d t _ IH. simpl. lia.
Qed.

Lemma normalize_trades (text : str) :
  count STAR (normalize text) + count UNDERSCORE (normalize text)
  = count STAR text + count UNDERSCORE text
  /\ count BOLD_MASK (normalize text) = count BOLD_MASK text
  /\ count ITALIC_MASK (normalize text) = count ITALIC_MASK text.
Proof.
  unfold normalize, underscores_to_italic, underscores_to_bold.
  split; [|split].
  - rewrite (span_pass_trades [UNDERSCORE] [STAR]) by reflexivity.
    apply (span_pass_trades [UNDERSCORE; UNDERSCORE] [STAR; STAR]); reflexivity.
  - rewrite !span_pass_keeps by reflexivity. reflexivity.
  - rewrite !span_pass_keeps by reflexivity. reflexivity.
Qed.

(** The stars of the output: two for each bold placeholder, one for each
    italic placeholder of the masked text (and one for each star, of which
    the masked text has none). *)
Lemma output_stars (u : str) :
  count STAR (flat_map output_of u)
  = 2 * count BOLD_MASK u + count ITALIC_MASK u + count STAR u.
Proof.
  induction u as [|d t IH]; [reflexivity|].
  cbn [flat_map]. rewrite count_app, IH. cbn [count].
  assert (Hd : count STAR (output_of d)
               = 2 * (if ch_eq d BOLD_MASK then 1 else 0)
                 + (if ch_eq d ITALIC_MASK then 1 else 0)
                 + (if ch_eq d STAR then 1 else 0)).
  { unfold output_of. destruct (ch_eq d BACKSLASH) eqn:Eb.
    - apply ch_eq_true in Eb. subst d. reflexivity.
    - destruct (is_reserved d) eqn:Er.
      + cbn [orb count]. change (ch_eq BACKSLASH STAR) with false.
        destruct (ch_eq d BOLD_MASK) eqn:E1;
          [apply ch_eq_true in E1; subst d; discriminate Er|].
        destruct (ch_eq d ITALIC_MASK) eqn:E2;
          [apply ch_eq_true in E2; subst d; discriminate Er|].
        destruct (ch_eq d STAR) eqn:E3;
          [apply ch_eq_true in E3; subst d; discriminate Er|].
        reflexivity.
      + cbn [orb]. destruct (ch_eq d BOLD_MASK) eqn:E1.
        * apply ch_eq_true in E1. subst d. reflexivity.
        * destruct (ch_eq d ITALIC_MASK) eqn:E2.
          -- apply ch_eq_true in E2. subst d. reflexivity.
          -- cbn [count]. destruct (ch_eq d STAR); reflexivity. }
  rewrite Hd. lia.
Qed.

(** Masking: a pair of stars becomes a bold placeholder, every other star
    an italic placeholder. *)
Lemma mask_stars (u : str) :
  2 * count BOLD_MASK (mask u) + count ITALIC_MASK (mask u) + count STAR (mask u)
  = 2 * count BOLD_MASK u + count ITALIC_MASK u + count STAR u.
Proof.
  unfold mask. set (u1 := replace [STAR; STAR] [BOLD_MASK] u).
  assert (H1 : 2 * count BOLD_MASK u1 + count ITALIC_MASK u1 + count STAR u1
               = 2 * count BOLD_MASK u + count ITALIC_MASK u + count STAR u).
  { subst u1. unfold replace.
    apply (rewrite_all_ind _ (replace_consumes [STAR; STAR] [BOLD_MASK])
             (fun s r => 2 * count BOLD_MASK r + count ITALIC_MASK r + count STAR r
                         = 2 * count BOLD_MASK s + count ITALIC_MASK s + count STAR s)).
    - reflexivity.
    - intros s out rest Hhit IH. apply replace_matcher_hit in Hhit.
      destruct Hhit as [-> ->]. rewrite !count_app.
      change (count BOLD_MASK [BOLD_MASK]) with 1.
      change (count ITALIC_MASK [BOLD_MASK]) with 0.
      change (count STAR [BOLD_MASK]) with 0.
      change (count BOLD_MASK [STAR; STAR]) with 0.
      change (count ITALIC_MASK [STAR; STAR]) with 0.
      change (count STAR [STAR; STAR]) with 2. lia.
    - intros d t _ IH. cbn [count]. lia. }
  rewrite <- H1. rewrite replace_char. clear H1. generalize u1. clear u1.
  induction u1 as [|d t IH]; [reflexivity|].
  cbn [flat_map]. rewrite !count_app. cbn [count].
  destruct (ch_eq STAR d) eqn:E.
  - apply ch_eq_true in E. subst d. cbn [count].
    change (ch_eq ITALIC_MASK BOLD_MASK) with false.
    change (ch_eq ITALIC_MASK ITALIC_MASK) with true.
    change (ch_eq ITALIC_MASK STAR) with false.
    change (ch_eq STAR BOLD_MASK) with false.
    change (ch_eq STAR ITALIC_MASK) with false.
    change (ch_eq STAR STAR) with true. lia.
  - cbn [count]. rewrite (ch_eq_sym d STAR), E. lia.
Qed.

(** Each underscore of the input is, in the output, an underscore or a
    star. *)
Lemma format_trades (text : str) :
  let out := _escape_md_v2_preserving_formatting text in
  count STAR out + count UNDERSCORE out
  = count STAR text + count UNDERSCORE text
    + 2 * count BOLD_MASK text + count ITALIC_MASK text.
Proof.
  intros out. subst out.
  rewrite format_keeps_underscores, format_by_char, output_stars, mask_stars.
  destruct (normalize_trades text) as (H1 & H2 & H3). lia.
Qed.
End FormatterFacts.

(** C2: whatever the input, the output of the formatter is well escaped:
    read from the left it consists of backslash pairs and of characters
    that are neither reserved nor a backslash, so every character of the
    reserved set follows a backslash (the stars of the span markers are not
    in the set and stay bare).  The backslash pass runs before the
    reserved-character pass, and together they put at most one backslash in
    front of each character. *)
Theorem formatter_escapes_reserved (text : str) :
  let out := Formatter._escape_md_v2_preserving_formatting text in
  Formatter.well_escaped out = true
  /\ Formatter.reserved_follow_backslash false out = true
  /\ out = Formatter.unmask
             (flat_map Formatter.escape_char
                (Formatter.mask (Formatter.normalize text)))
  /\ (forall t,
        Formatter.escape_reserved (Formatter.escape_backslashes t)
        = flat_map Formatter.escape_char t)
  /\ (forall c, Formatter.escape_char c = [c]
               \/ Formatter.escape_char c = [BACKSLASH; c]).
Proof.
  intros out.
  assert (Hw : Formatter.well_escaped out = true)
    by apply FormatterFacts.format_well_escaped.
  split; [exact Hw|].
  split; [apply FormatterFacts.well_escaped_follow_backslash, Hw|].
  split.
  - subst out. unfold Formatter._escape_md_v2_preserving_formatting.
    rewrite <- FormatterFacts.two_passes_escape_once. reflexivity.
  - split; [apply FormatterFacts.two_passes_escape_once|].
    intros c. unfold Formatter.escape_char.
    destruct (ch_eq c BACKSLASH || Formatter.is_reserved c); auto.
Qed.

(** C6: when the input holds an odd number of underscores, the single
    marker of the author markup, at least one of them cannot be paired; the
    underscores left by the normalisation reach the output in the same
    number, each behind a backslash, and none of them has become a star:
    the output has exactly one star for each star of the input (two for a
    bold placeholder, one for an italic placeholder, should the input hold
    any) and one for each underscore that was paired. *)
Theorem unmatched_underscore_is_escaped (text : str) :
  Nat.odd (count UNDERSCORE text) = true ->
  let out := Formatter._escape_md_v2_preserving_formatting text in
  Nat.odd (count UNDERSCORE out) = true
  /\ count UNDERSCORE out = count UNDERSCORE (Formatter.normalize text)
  /\ (exists pre post, out = pre ++ [BACKSLASH; UNDERSCORE] ++ post)
  /\ (forall pre post, out = pre ++ UNDERSCORE :: post ->
        exists pre', pre = pre' ++ [BACKSLASH])
  /\ count STAR out + count UNDERSCORE out
     = count STAR text + count UNDERSCORE text
       + 2 * count Formatter.BOLD_MASK text
       + count Formatter.ITALIC_MASK text.
Proof.
  intros Hodd out.
  pose proof (FormatterFacts.format_keeps_underscores text) as Hkeep.
  fold out in Hkeep.
  destruct (FormatterFacts.normalize_parity text) as [k Hk].
  pose proof (FormatterFacts.format_well_escaped text) as Hw. fold out in Hw.
  pose proof (FormatterFacts.well_escaped_follow_backslash out Hw) as Hf.
  assert (Hout : Nat.odd (count UNDERSCORE out) = true).
  { rewrite Hkeep. rewrite Hk in Hodd.
    rewrite Nat.odd_add_mul_2 in Hodd. exact Hodd. }
  split; [exact Hout|]. split; [exact Hkeep|]. split.
  - apply FormatterFacts.escaped_underscore_occurs; [exact Hw|].
    destruct (count UNDERSCORE out); [discriminate Hout | lia].
  - split; [|apply FormatterFacts.format_trades].
    intros pre post Heq. rewrite Heq in Hf.
    destruct (FormatterFacts.follow_backslash_split pre post UNDERSCORE false Hf eq_refl)
      as [[_ Hb] | Hpre]; [discriminate Hb | exact Hpre].
Qed.

Lemma unmatched_underscore_is_escaped_witness :
  Nat.odd (count UNDERSCORE [97; 95; 98]%N) = true
  /\ let out := Formatter._escape_md_v2_preserving_formatting [97; 95; 98]%N in
     Nat.odd (count UNDERSCORE out) = true
     /\ count UNDERSCORE out
        = count UNDERSCORE (Formatter.normalize [97; 95; 98]%N)
     /\ (exists pre post, out = pre ++ [BACKSLASH; UNDERSCORE] ++ post)
     /\ (forall pre post, out = pre ++ UNDERSCORE :: post ->
           exists pre', pre = pre' ++ [BACKSLASH])
     /\ count STAR out + count UNDERSCORE out = 1.
Proof.
  split; [reflexivity|].
  apply (unmatched_underscore_is_escaped [97; 95; 98]%N). reflexivity.
Defined.

(** ** The truncator *)

Module TruncatorFacts.
Import TextFacts Formatter Truncator.

#[local] Arguments ch_eq : simpl never.

Lemma skipn_view (i : nat) :
  forall (text : str) (ch : char) (t : str),
    skipn i text = ch :: t ->
    char_at text i = ch /\ skipn (S i) text = t
    /\ length text = i + S (length t).
Proof.
  induction i as [|i IH]; intros [|c text] ch t H; simpl in H;
    try discriminate.
  - inversion H; subst. repeat split.
  - destruct (IH _ _ _ H) as (H1 & H2 & H3).
    repeat split; [exact H1 | exact H2 | simpl; lia].
Qed.

Lemma skipn_reaches (i : nat) (text : str) :
  i < length text -> exists ch t, skipn i text = ch :: t.
Proof.
  intros Hi. destruct (skipn i text) as [|ch t] eqn:E.
  - pose proof (length_skipn i text) as Hl. rewrite E in Hl. simpl in Hl. lia.
  - eauto.
Qed.

(** The loop body read on what remains of the text at position [i]. *)
Lemma scan_step_view (text : str) (st : scan_state) (ch : char) (t : str) :
  skipn (idx st) text = ch :: t ->
  let prev := prev_backslash_at text (idx st) in
  scan_step text st =
    if match t with
       | d :: _ => ch_eq ch STAR && ch_eq d STAR
       | [] => false
       end && negb prev
    then {| idx := idx st + 2;
            open_bold := Z.lxor (open_bold st) 1;
            open_italic := open_italic st;
            last_safe_space := last_safe_space st |}
    else
      let open_italic' :=
        if ch_eq ch STAR && negb prev
        then Z.lxor (open_italic st) 1 else open_italic st in
      {| idx := idx st + 1;
         open_bold := open_bold st;
         open_italic := open_italic';
         last_safe_space :=
           if ch_eq ch SPACE && (open_bold st =? 0)%Z && (open_italic' =? 0)%Z
           then Z.of_nat (idx st) else last_safe_space st |}.
Proof.
  intros Hs prev. destruct (skipn_view _ _ _ _ Hs) as (Hch & Hnext & Hlen).
  unfold scan_step. fold (prev_backslash_at text (idx st)). fold prev.
  rewrite Hch. unfold slice, len.
  replace (idx st + 2 - idx st) with 2 by lia. rewrite Hs.
  destruct t as [|d t'].
  - assert (E : (Z.of_nat (idx st) + 1 <? Z.of_nat (length text))%Z = false).
    { apply Z.ltb_ge. simpl in Hlen. lia. }
    rewrite E. cbn [andb negb]. reflexivity.
  - assert (E : (Z.of_nat (idx st) + 1 <? Z.of_nat (length text))%Z = true).
    { apply Z.ltb_lt. simpl in Hlen. lia. }
    rewrite E. cbn [andb firstn str_eqb].
    replace (idx st + 1) with (S (idx st)) by lia.
    assert (Hd : char_at text (S (idx st)) = d).
    { apply (skipn_view (S (idx st)) text d t'), Hnext. }
    rewrite Hd, andb_true_r.
    destruct (ch_eq ch STAR && ch_eq d STAR && negb prev) eqn:Eb.
    + replace (idx st + 2) with (S (S (idx st))) by lia. reflexivity.
    + destruct (ch_eq ch STAR && negb prev) eqn:Es; [|reflexivity].
      destruct (ch_eq d STAR) eqn:Ed; [|reflexivity].
      apply andb_true_iff in Es. destruct Es as [E1 E2].
      rewrite E1, E2 in Eb. discriminate Eb.
Qed.

(** The equations of [markers]. *)
Lemma markers_bold (p : bool) (c d : char) (r : str) :
  ch_eq c STAR && negb p = true -> ch_eq d STAR = true ->
  markers p (c :: d :: r)
  = (S (fst (markers false r)), snd (markers false r)).
Proof.
  intros Hc Hd. cbn [markers]. rewrite Hc, Hd.
  destruct (markers false r). reflexivity.
Qed.

Lemma markers_italic (p : bool) (c d : char) (r : str) :
  ch_eq c STAR && negb p = true -> ch_eq d STAR = false ->
  markers p (c :: d :: r)
  = (fst (markers false (d :: r)), S (snd (markers false (d :: r)))).
Proof.
  intros Hc Hd. cbn [markers]. rewrite Hc, Hd. cbn [andb].
  destruct (markers (ch_eq d BACKSLASH) r). reflexivity.
Qed.

Lemma markers_italic_end (p : bool) (c : char) :
  ch_eq c STAR && negb p = true -> markers p [c] = (0, 1).
Proof. intros Hc. cbn [markers]. rewrite Hc. reflexivity. Qed.

Lemma markers_skip (p : bool) (c : char) (r : str) :
  ch_eq c STAR && negb p = false ->
  markers p (c :: r) = markers (ch_eq c BACKSLASH) r.
Proof. intros Hc. cbn [markers]. rewrite Hc. reflexivity. Qed.

Lemma prev_backslash_next (text : str) (i : nat) (ch : char) :
  char_at text i = ch ->
  prev_backslash_at text (S i) = ch_eq ch BACKSLASH.
Proof.
  intros H. unfold prev_backslash_at. cbn [Nat.ltb Nat.leb andb].
  replace (S i - 1) with i by lia. rewrite H. reflexivity.
Qed.

(** One iteration: the scanner advances, stays inside the text, steps over
    no space, keeps what later segments establish, and records the
    position exactly when it holds a space met at depth zero. *)
Lemma scan_step_segment (text : str) (st : scan_state) (ch : char) (t : str) :
  skipn (idx st) text = ch :: t ->
  let st1 := scan_step text st in
  idx st < idx st1 /\ idx st1 <= length text
  /\ (forall k, idx st1 <= k ->
        (segment_closes text st1 k <-> segment_closes text st k))
  /\ (forall k, idx st < k -> char_at text k = SPACE -> idx st1 <= k)
  /\ (last_safe_space st1 = last_safe_space st
      \/ (last_safe_space st1 = Z.of_nat (idx st) /\ ch = SPACE
          /\ open_bold st = 0%Z /\ open_italic st = 0%Z))
  /\ (ch = SPACE -> open_bold st = 0%Z -> open_italic st = 0%Z ->
      last_safe_space st1 = Z.of_nat (idx st)).
Proof.
  intros Hs st1. subst st1. rewrite (scan_step_view _ _ _ _ Hs).
  destruct (skipn_view _ _ _ _ Hs) as (Hch & Hnext & Hlen).
  set (prev := prev_backslash_at text (idx st)).
  destruct (match t with
            | d :: _ => ch_eq ch STAR && ch_eq d STAR
            | [] => false
            end && negb prev) eqn:Ebold.
  - (* a bold marker, two characters *)
    destruct t as [|d t']; [discriminate Ebold|].
    apply andb_true_iff in Ebold. destruct Ebold as [Ecd Ep].
    apply andb_true_iff in Ecd. destruct Ecd as [Ec Ed].
    destruct (skipn_view _ _ _ _ Hnext) as (Hd & Hnext2 & _).
    cbn [idx open_bold open_italic last_safe_space].
    split; [lia|]. split; [simpl in Hlen; lia|].
    split; [|split; [|split; [left; reflexivity|]]].
    2:{ intros k Hk Hsp.
        destruct (Nat.eq_dec k (S (idx st))) as [-> | Hne]; [|lia].
        rewrite Hd in Hsp. apply ch_eq_true in Ed. rewrite Ed in Hsp.
        discriminate Hsp. }
    2:{ intros Hsp. rewrite Hsp in Ec. discriminate Ec. }
    intros k Hk. unfold segment_closes.
    cbn [idx open_bold open_italic].
    replace (idx st + 2) with (S (S (idx st))) by lia.
    rewrite Hnext2, Hs, (prev_backslash_next _ _ _ Hd).
    replace (k - idx st) with (S (S (k - S (S (idx st))))) by lia.
    cbn [firstn]. fold prev. rewrite markers_bold by (try rewrite Ec, Ep; auto).
    apply ch_eq_true in Ed. rewrite Ed.
    change (ch_eq STAR BACKSLASH) with false. cbn [fst snd toggled]. tauto.
  - (* one character *)
    cbn [idx open_bold open_italic last_safe_space].
    split; [lia|]. split; [lia|]. split; [|split; [intros; lia|]].
    + intros k Hk. unfold segment_closes.
      cbn [idx open_bold open_italic].
      replace (idx st + 1) with (S (idx st)) by lia.
      rewrite Hnext, Hs, (prev_backslash_next _ _ _ Hch).
      replace (k - idx st) with (S (k - S (idx st))) by lia.
      cbn [firstn]. fold prev.
      destruct (ch_eq ch STAR && negb prev) eqn:Estar.
      * assert (Ebs : ch_eq ch BACKSLASH = false).
        { apply andb_true_iff in Estar. destruct Estar as [Ec _].
          apply ch_eq_true in Ec. rewrite Ec. reflexivity. }
        rewrite Ebs.
        destruct (firstn (k - S (idx st)) t) as [|d seg] eqn:Eseg.
        -- rewrite (markers_italic_end _ _ Estar). cbn [markers fst snd toggled]. tauto.
        -- assert (Ed : ch_eq d STAR = false).
           { destruct t as [|d0 t']; [destruct (k - S (idx st)); discriminate Eseg|].
             destruct (k - S (idx st)); [discriminate Eseg|].
             cbn [firstn] in Eseg. inversion Eseg; subst d0.
             apply andb_true_iff in Estar. destruct Estar as [Ec Ep].
             rewrite Ec, Ep in Ebold. cbn [andb] in Ebold.
             rewrite andb_true_r in Ebold. exact Ebold. }
           rewrite (markers_italic _ _ _ _ Estar Ed). cbn [fst snd toggled]. tauto.
      * rewrite (markers_skip _ _ _ Estar). tauto.
    + split.
      * destruct (ch_eq ch SPACE && (open_bold st =? 0)%Z
                  && ((if ch_eq ch STAR && negb prev
                       then Z.lxor (open_italic st) 1 else open_italic st) =? 0)%Z)
          eqn:Esafe; [right | left; reflexivity].
        apply andb_true_iff in Esafe. destruct Esafe as [Esafe Ei].
        apply andb_true_iff in Esafe. destruct Esafe as [Esp Eb].
        apply ch_eq_true in Esp. rewrite Esp in Ei.
        change (ch_eq SPACE STAR) with false in Ei. cbn [andb] in Ei.
        apply Z.eqb_eq in Eb, Ei. auto.
      * intros Hsp Hb Hi. rewrite Hsp, Hb, Hi. reflexivity.
Qed.

Section Loop.
Variable text : str.
Variable limit : Z.

(** The loop stops with its condition false: the fuel is enough. *)
Lemma scan_loop_exits (fuel : nat) :
  forall st, length text - idx st <= fuel -> idx st <= length text ->
    (Z.of_nat (idx (scan_loop fuel text limit st))
     <? Z.min (len text) limit)%Z = false.
Proof.
  induction fuel as [|fuel IH]; intros st Hfuel Hidx; cbn [scan_loop].
  - apply Z.ltb_ge. unfold len. lia.
  - destruct (Z.of_nat (idx st) <? Z.min (len text) limit)%Z eqn:Hc;
      [|exact Hc].
    apply Z.ltb_lt in Hc. unfold len in Hc.
    destruct (skipn_reaches (idx st) text) as (ch & t & Hs); [lia|].
    destruct (scan_step_segment _ _ _ _ Hs) as (Hlt & Hle & _).
    apply IH; lia.
Qed.

(** A recorded space lies in the scanned window, and the markers between
    the scanner and that space close every open span. *)
Lemma scan_loop_safe (fuel : nat) :
  forall st,
    let st' := scan_loop fuel text limit st in
    last_safe_space st' = last_safe_space st
    \/ exists k,
         last_safe_space st' = Z.of_nat k /\ idx st <= k
         /\ (Z.of_nat k < Z.min (len text) limit)%Z
         /\ char_at text k = SPACE
         /\ segment_closes text st k.
Proof.
  induction fuel as [|fuel IH]; intros st; cbn [scan_loop].
  - left. reflexivity.
  - destruct (Z.of_nat (idx st) <? Z.min (len text) limit)%Z eqn:Hc;
      [|left; reflexivity].
    apply Z.ltb_lt in Hc.
    destruct (skipn_reaches (idx st) text) as (ch & t & Hs);
      [unfold len in Hc; lia|].
    destruct (scan_step_segment _ _ _ _ Hs)
      as (Hlt & Hle & Hseg & _ & Hlast & _).
    destruct (skipn_view _ _ _ _ Hs) as (Hch & _).
    destruct (IH (scan_step text st))
      as [Hsame | (k & Hk & Hik & Hkl & Hsp & Hcl)].
    + rewrite Hsame. destruct Hlast as [Hl | (Hl & Hsp & Hb & Hi)];
        [left; exact Hl | right].
      exists (idx st). split; [exact Hl|]. split; [lia|]. split; [exact Hc|].
      split; [congruence|].
      unfold segment_closes. rewrite Nat.sub_diag. cbn [firstn markers fst snd toggled].
      auto.
    + right. exists k. split; [exact Hk|]. split; [lia|]. split; [exact Hkl|].
      split; [exact Hsp|]. apply Hseg; [lia | exact Hcl].
Qed.

(** A space in the window, reached with both depths at zero, is recorded,
    and nothing recorded later lies before it. *)
Lemma scan_loop_finds (fuel : nat) :
  forall st k,
    length text - idx st <= fuel -> idx st <= k ->
    (Z.of_nat k < Z.min (len text) limit)%Z ->
    char_at text k = SPACE -> segment_closes text st k ->
    (Z.of_nat k <= last_safe_space (scan_loop fuel text limit st))%Z.
Proof.
  induction fuel as [|fuel IH]; intros st k Hfuel Hik Hkl Hsp Hcl.
  - unfold len in Hkl. lia.
  - cbn [scan_loop].
    destruct (Z.of_nat (idx st) <? Z.min (len text) limit)%Z eqn:Hc;
      [|apply Z.ltb_ge in Hc; lia].
    apply Z.ltb_lt in Hc.
    destruct (skipn_reaches (idx st) text) as (ch & t & Hs);
      [unfold len in Hc; lia|].
    destruct (scan_step_segment _ _ _ _ Hs)
      as (Hlt & Hle & Hseg & Hskip & _ & Hrec).
    destruct (skipn_view _ _ _ _ Hs) as (Hch & _).
    destruct (Nat.eq_dec k (idx st)) as [-> | Hne].
    + (* the space is under the scanner *)
      unfold segment_closes in Hcl. rewrite Nat.sub_diag in Hcl.
      cbn [firstn markers fst snd toggled] in Hcl. destruct Hcl as [Hb Hi].
      assert (Hl : last_safe_space (scan_step text st) = Z.of_nat (idx st))
        by (apply Hrec; congruence).
      destruct (scan_loop_safe fuel (scan_step text st))
        as [Hsame | (k' & Hk' & Hik' & _)]; lia.
    + assert (Hk1 : idx (scan_step text st) <= k) by (apply Hskip; [lia | exact Hsp]).
      apply IH; try assumption; [lia|]. apply Hseg; assumption.
Qed.
End Loop.

Lemma toggled_parity (n : nat) :
  toggled n 0 = (if Nat.even n then 0 else 1)%Z
  /\ toggled n 1 = (if Nat.even n then 1 else 0)%Z.
Proof.
  induction n as [|n [IH0 IH1]]; [split; reflexivity|].
  rewrite Nat.even_succ, <- Nat.negb_even. cbn [toggled].
  change (Z.lxor 0 1) with 1%Z. change (Z.lxor 1 1) with 0%Z.
  rewrite IH0, IH1. destruct (Nat.even n); split; reflexivity.
Qed.

Lemma toggled_zero_even (n : nat) :
  toggled n 0 = 0%Z -> Nat.even n = true.
Proof.
  rewrite (proj1 (toggled_parity n)).
  destruct (Nat.even n); [reflexivity | discriminate].
Qed.

(** What the whole scan leaves in [last_safe_space]. *)
Lemma scan_safe (text : str) (limit : Z) :
  last_safe_space (scan text limit) = (-1)%Z
  \/ exists k,
       last_safe_space (scan text limit) = Z.of_nat k
       /\ (Z.of_nat k < Z.min (len text) limit)%Z
       /\ char_at text k = SPACE
       /\ Nat.even (bold_markers (firstn k text)) = true
       /\ Nat.even (italic_markers (firstn k text)) = true.
Proof.
  unfold scan.
  destruct (scan_loop_safe text limit (length text) scan_init)
    as [H | (k & Hk & _ & Hkl & Hsp & Hb & Hi)]; [left; exact H | right].
  exists k. split; [exact Hk|]. split; [exact Hkl|]. split; [exact Hsp|].
  cbn [scan_init idx open_bold open_italic skipn] in Hb, Hi.
  rewrite Nat.sub_0_r in Hb, Hi.
  change (prev_backslash_at text 0) with false in Hb, Hi.
  split; apply toggled_zero_even; assumption.
Qed.

Lemma toggled_even_zero (n : nat) :
  Nat.even n = true -> toggled n 0 = 0%Z.
Proof. intros H. rewrite (proj1 (toggled_parity n)), H. reflexivity. Qed.

(** A safe space was seen exactly when some space of the window has an even
    number of bold markers and an even number of italic markers before it. *)
Lemma safe_space_seen_iff (text : str) (limit : Z) :
  safe_space_seen text limit
  <-> exists k,
        (Z.of_nat k < Z.min (len text) limit)%Z
        /\ char_at text k = SPACE
        /\ Nat.even (bold_markers (firstn k text)) = true
        /\ Nat.even (italic_markers (firstn k text)) = true.
Proof.
  unfold safe_space_seen. split.
  - intros Hseen.
    destruct (scan_safe text limit) as [H | (k & _ & Hkl & Hsp & Hb & Hi)];
      [contradiction|].
    exists k. auto.
  - intros (k & Hkl & Hsp & Hb & Hi). unfold scan.
    pose proof (scan_loop_finds text limit (length text) scan_init k) as H.
    cbn [scan_init idx] in H.
    assert (Hk : (Z.of_nat k
                  <= last_safe_space (scan_loop (length text) text limit scan_init))%Z).
    { apply H; [lia | lia | exact Hkl | exact Hsp |].
      unfold segment_closes. cbn [scan_init idx open_bold open_italic skipn].
      rewrite Nat.sub_0_r. change (prev_backslash_at text 0) with false.
      split; apply toggled_even_zero; assumption. }
    lia.
Qed.

Lemma markers_no_star (w : str) (b : bool) :
  Forall (fun c => ch_eq c STAR = false) w -> markers b w = (0, 0).
Proof.
  intros H. revert b. induction H as [|c w Hc _ IH]; intros b; [reflexivity|].
  rewrite markers_skip by (rewrite Hc; reflexivity). apply IH.
Qed.

(** Characters other than the star, appended to a string, add no marker
    and change none. *)
Lemma markers_app_no_star (w : str) :
  Forall (fun c => ch_eq c STAR = false) w ->
  forall p b, markers b (p ++ w) = markers b p.
Proof.
  intros Hw p. remember (length p) as n eqn:Hn. revert p Hn.
  induction n as [n IH] using lt_wf_ind. intros p Hn b.
  destruct p as [|c t].
  - cbn [app]. rewrite markers_no_star by exact Hw. reflexivity.
  - destruct (ch_eq c STAR && negb b) eqn:Ec.
    + destruct t as [|d t'].
      * rewrite (markers_italic_end _ _ Ec). cbn [app].
        destruct w as [|e w']; [apply markers_italic_end, Ec|].
        inversion Hw as [|? ? He Hw']; subst.
        rewrite (markers_italic _ _ _ _ Ec He).
        rewrite (markers_no_star (e :: w') false Hw). reflexivity.
      * cbn [app]. destruct (ch_eq d STAR) eqn:Ed.
        -- rewrite !(markers_bold _ _ _ _ Ec Ed).
           rewrite (IH (length t')) by (subst n; simpl; lia || reflexivity).
           reflexivity.
        -- rewrite !(markers_italic _ _ _ _ Ec Ed).
           change (d :: t' ++ w) with ((d :: t') ++ w).
           rewrite (IH (length (d :: t'))) by (subst n; simpl; lia || reflexivity).
           reflexivity.
    + cbn [app]. rewrite !(markers_skip _ _ _ Ec).
      apply (IH (length t)); [subst n; simpl; lia | reflexivity].
Qed.

Lemma rstrip_split (p : str) :
  exists ws, p = rstrip p ++ ws /\ Forall (fun c => isspace c = true) ws.
Proof.
  induction p as [|c t (ws & Ht & Hws)].
  - exists []. split; [reflexivity | constructor].
  - cbn [rstrip]. destruct (rstrip t) as [|r0 r] eqn:Er.
    + destruct (isspace c) eqn:Ec.
      * exists (c :: ws). cbn [app] in *. split; [congruence|].
        constructor; assumption.
      * exists ws. cbn [app] in *. split; [congruence | exact Hws].
    + exists ws. split; [|exact Hws]. cbn [app] in *. congruence.
Qed.

Lemma rstrip_length (p : str) : length (rstrip p) <= length p.
Proof.
  destruct (rstrip_split p) as (ws & Hp & _).
  rewrite Hp at 2. rewrite length_app. lia.
Qed.

Lemma space_is_no_star (c : char) : isspace c = true -> ch_eq c STAR = false.
Proof.
  intros H. destruct (ch_eq c STAR) eqn:E; [|reflexivity].
  apply ch_eq_true in E. subst c. discriminate H.
Qed.

(** Stripping trailing whitespace and appending the ellipsis leaves the
    markers of a string as they are. *)
Lemma markers_rstrip_ellipsis (p : str) :
  markers false (rstrip p ++ [ELLIPSIS]) = markers false p.
Proof.
  destruct (rstrip_split p) as (ws & Hp & Hws).
  rewrite markers_app_no_star by (repeat constructor).
  rewrite Hp at 2. rewrite markers_app_no_star; [reflexivity|].
  eapply Forall_impl; [|exact Hws]. apply space_is_no_star.
Qed.

(** The cut lies in the window: never negative, below the limit when the
    limit is positive. *)
Lemma cut_index_bounds (text : str) (limit : Z) :
  (0 <= limit)%Z ->
  (0 <= cut_index text limit <= Z.max 0 (limit - 1))%Z.
Proof.
  intros Hl. unfold cut_index.
  destruct (scan_safe text limit) as [H | (k & Hk & Hkl & _)].
  - rewrite H, Z.eqb_refl. cbn [negb]. lia.
  - rewrite Hk. destruct (Z.of_nat k =? -1)%Z eqn:E; cbn [negb]; lia.
Qed.

End TruncatorFacts.

(** C9: a string already within the budget is returned unchanged, by the
    truncator itself and by [prepare_markdown_v2], which truncates the
    escaped text only when it exceeds the limit. *)
Theorem truncate_within_budget_is_identity (s : str) (limit : Z) :
  (len s <= limit)%Z ->
  Truncator._truncate_markdown_v2_safely s limit = s
  /\ (forall text,
        Formatter._escape_md_v2_preserving_formatting text = s ->
        Truncator.prepare_markdown_v2 text (Some limit) = s).
Proof.
  intros H. split.
  - unfold Truncator._truncate_markdown_v2_safely.
    apply Z.leb_le in H. rewrite H. reflexivity.
  - intros text Ht. unfold Truncator.prepare_markdown_v2. rewrite Ht.
    destruct (len s >? limit)%Z eqn:E; [|reflexivity].
    apply Z.gtb_lt in E. lia.
Qed.

Lemma truncate_within_budget_is_identity_witness :
  (len [97; 46]%N <= 5)%Z
  /\ (Truncator._truncate_markdown_v2_safely [97; 46]%N 5 = [97; 46]%N
     /\ (forall text,
           Formatter._escape_md_v2_preserving_formatting text = [97; 46]%N ->
           Truncator.prepare_markdown_v2 text (Some 5%Z) = [97; 46]%N)).
Proof.
  split; [unfold len; simpl; lia|].
  apply (truncate_within_budget_is_identity [97; 46]%N 5).
  unfold len; simpl; lia.
Defined.

(** C3: for a non-negative limit the truncator returns at most [limit]
    characters plus the one-character ellipsis, whether or not a safe space
    was found; so does [prepare_markdown_v2]. *)
Theorem truncate_length_bounded (s : str) (limit : Z) :
  (0 <= limit)%Z ->
  (len (Truncator._truncate_markdown_v2_safely s limit)
   <= limit + len [ELLIPSIS])%Z
  /\ (forall text,
        (len (Truncator.prepare_markdown_v2 text (Some limit))
         <= limit + len [ELLIPSIS])%Z)
  /\ ((len s > limit)%Z -> ~ Truncator.safe_space_seen s limit ->
      Truncator._truncate_markdown_v2_safely s limit
      = rstrip (firstn (Z.to_nat (limit - 1)) s) ++ [ELLIPSIS]).
Proof.
  intros Hl.
  assert (Hbound : forall t,
    (len (Truncator._truncate_markdown_v2_safely t limit)
     <= limit + len [ELLIPSIS])%Z).
  { intros t. unfold Truncator._truncate_markdown_v2_safely.
    destruct (len t <=? limit)%Z eqn:E.
    - apply Z.leb_le in E. change (len [ELLIPSIS]) with 1%Z. lia.
    - pose proof (TruncatorFacts.cut_index_bounds t limit Hl) as Hc.
      rewrite TextFacts.len_app. unfold slice_to.
      destruct (Truncator.cut_index t limit <? 0)%Z eqn:En;
        [apply Z.ltb_lt in En; lia|].
      pose proof (TruncatorFacts.rstrip_length
                    (firstn (Z.to_nat (Truncator.cut_index t limit)) t)) as Hr.
      pose proof (firstn_le_length (Z.to_nat (Truncator.cut_index t limit)) t) as Hf.
      unfold len at 1. change (len [ELLIPSIS]) with 1%Z. lia. }
  split; [apply Hbound|]. split.
  - intros text. unfold Truncator.prepare_markdown_v2.
    destruct (len (Formatter._escape_md_v2_preserving_formatting text) >? limit)%Z
      eqn:E; [apply Hbound|].
    pose proof (Zgt_cases (len (Formatter._escape_md_v2_preserving_formatting text)) limit) as Hc.
    rewrite E in Hc. change (len [ELLIPSIS]) with 1%Z. lia.
  - intros Hlen Hno. unfold Truncator._truncate_markdown_v2_safely.
    destruct (len s <=? limit)%Z eqn:E; [apply Z.leb_le in E; lia|].
    unfold Truncator.cut_index, Truncator.safe_space_seen in *.
    destruct (Truncator.last_safe_space (Truncator.scan s limit) =? -1)%Z eqn:En.
    + cbn [negb]. unfold slice_to.
      destruct (Z.max 0 (limit - 1) <? 0)%Z eqn:Em; [apply Z.ltb_lt in Em; lia|].
      replace (Z.to_nat (Z.max 0 (limit - 1))) with (Z.to_nat (limit - 1)) by lia.
      reflexivity.
    + apply Z.eqb_neq in En. contradiction.
Qed.

Lemma truncate_length_bounded_witness :
  (0 <= 3)%Z
  /\ (len (Truncator._truncate_markdown_v2_safely [97; 98; 99; 100; 101]%N 3)
      <= 3 + len [ELLIPSIS])%Z.
Proof.
  split; [lia|].
  apply (truncate_length_bounded [97; 98; 99; 100; 101]%N 3). lia.
Defined.

(** What the scanner keeps, counting the markers as it classifies them (a
    star right after a backslash is none): when the text exceeds the limit
    and the scanner has recorded a safe space, a space met inside the
    window with both depths at zero, the returned string holds an even
    number of bold markers and an even number of italic markers.  It is
    the text before such a space, without trailing whitespace, followed by
    the ellipsis. *)
Theorem truncate_at_safe_space_closes_spans (s : str) (limit : Z) :
  (len s > limit)%Z -> Truncator.safe_space_seen s limit ->
  let r := Truncator._truncate_markdown_v2_safely s limit in
  Nat.even (Truncator.bold_markers r) = true
  /\ Nat.even (Truncator.italic_markers r) = true
  /\ exists k,
       (Z.of_nat k < limit)%Z /\ Truncator.char_at s k = SPACE
       /\ Nat.even (Truncator.bold_markers (firstn k s)) = true
       /\ Nat.even (Truncator.italic_markers (firstn k s)) = true
       /\ r = rstrip (firstn k s) ++ [ELLIPSIS].
Proof.
  intros Hlen Hsafe r. subst r.
  unfold Truncator._truncate_markdown_v2_safely.
  destruct (len s <=? limit)%Z eqn:E; [apply Z.leb_le in E; lia|].
  unfold Truncator.cut_index, Truncator.safe_space_seen in *.
  destruct (TruncatorFacts.scan_safe s limit)
    as [H | (k & Hk & Hkl & Hsp & Hb & Hi)]; [contradiction|].
  rewrite Hk. destruct (Z.of_nat k =? -1)%Z eqn:En; [apply Z.eqb_eq in En; lia|].
  cbn [negb]. unfold slice_to.
  destruct (Z.of_nat k <? 0)%Z eqn:Ek; [apply Z.ltb_lt in Ek; lia|].
  rewrite Nat2Z.id. unfold Truncator.bold_markers, Truncator.italic_markers in *.
  rewrite TruncatorFacts.markers_rstrip_ellipsis.
  split; [exact Hb|]. split; [exact Hi|].
  exists k. repeat split; try assumption. lia.
Qed.

(* "a *b c* d e" cut at 9 gives "a *b c*" and the ellipsis *)
Lemma truncate_at_safe_space_closes_spans_witness :
  let s := [97; 32; 42; 98; 32; 99; 42; 32; 100; 32; 101]%N in
  (len s > 9)%Z /\ Truncator.safe_space_seen s 9
  /\ Truncator._truncate_markdown_v2_safely s 9
     = [97; 32; 42; 98; 32; 99; 42; ELLIPSIS]%N
  /\ Nat.even (Truncator.bold_markers
                 (Truncator._truncate_markdown_v2_safely s 9)) = true
  /\ Nat.even (Truncator.italic_markers
                 (Truncator._truncate_markdown_v2_safely s 9)) = true.
Proof.
  intros s.
  assert (Hlen : (len s > 9)%Z) by (unfold len; simpl; lia).
  assert (Hsafe : Truncator.safe_space_seen s 9)
    by (unfold Truncator.safe_space_seen; vm_compute; discriminate).
  split; [exact Hlen|]. split; [exact Hsafe|]. split; [reflexivity|].
  destruct (truncate_at_safe_space_closes_spans s 9 Hlen Hsafe) as (Hb & Hi & _).
  split; assumption.
Defined.

(** ** Markers under the escaping rule *)

Module EscapeFacts.
Import TextFacts Truncator.
#[local] Arguments ch_eq : simpl never.

(** A prefix of a string in which the stars are told apart is one too. *)
Lemma stars_told_apart_prefix (a b : str) (run : option bool) :
  stars_told_apart run (a ++ b) = true -> stars_told_apart run a = true.
Proof.
  revert run. induction a as [|c a IH]; intros run H; [reflexivity|].
  cbn [app stars_told_apart] in *. destruct (ch_eq c BACKSLASH).
  - apply IH, H.
  - apply andb_true_iff in H. destruct H as [H1 H2].
    rewrite H1. apply IH, H2.
Qed.

(** The ellipsis at the end changes nothing. *)
Lemma stars_told_apart_ellipsis (a : str) (run : option bool) :
  stars_told_apart run a = true ->
  stars_told_apart run (a ++ [ELLIPSIS]) = true.
Proof.
  revert run. induction a as [|c a IH]; intros run H.
  - destruct run as [[|]|]; reflexivity.
  - cbn [app stars_told_apart] in *. destruct (ch_eq c BACKSLASH).
    + apply IH, H.
    + apply andb_true_iff in H. destruct H as [H1 H2].
      rewrite H1. apply IH, H2.
Qed.

(** Where the stars are told apart, the scanner's classification is the
    one of the escaping rule. *)
Lemma markers_agree (s : str) (run : option bool) :
  stars_told_apart run s = true ->
  unescaped_markers (escaped_after run) s
  = markers (prev_backslash_after run) s.
Proof.
  remember (length s) as n eqn:Hn. revert s run Hn.
  induction n as [n IH] using lt_wf_ind. intros s run Hn H.
  destruct s as [|c t]; [reflexivity|].
  cbn [stars_told_apart] in H. cbn [unescaped_markers markers].
  destruct (ch_eq c BACKSLASH) eqn:Eb.
  - assert (Es : ch_eq c STAR = false).
    { apply ch_eq_true in Eb. subst c. reflexivity. }
    rewrite Es. cbn [andb].
    specialize (IH (length t) ltac:(subst n; simpl; lia) t _ eq_refl H).
    destruct run as [[|]|]; cbn [escaped_after prev_backslash_after negb] in *;
      exact IH.
  - apply andb_true_iff in H. destruct H as [H1 H2].
    pose proof (IH (length t) ltac:(subst n; simpl; lia) t None eq_refl H2) as IHt.
    cbn [escaped_after prev_backslash_after] in IHt.
    destruct (ch_eq c STAR) eqn:Es.
    + destruct run as [[|]|]; cbn [escaped_after prev_backslash_after negb andb] in *;
        try exact IHt; try discriminate H1.
      destruct t as [|d t']; [reflexivity|].
      destruct (ch_eq d STAR) eqn:Ed.
      * cbn [stars_told_apart] in H2.
        assert (Edb : ch_eq d BACKSLASH = false).
        { apply ch_eq_true in Ed. subst d. reflexivity. }
        rewrite Edb in H2. apply andb_true_iff in H2. destruct H2 as [_ H2].
        pose proof (IH (length t') ltac:(subst n; simpl; lia) t' None eq_refl H2)
          as IHt'.
        cbn [escaped_after prev_backslash_after] in IHt'.
        rewrite IHt'. reflexivity.
      * rewrite IHt. reflexivity.
    + destruct run as [[|]|]; cbn [escaped_after prev_backslash_after negb andb] in *;
        exact IHt.
Qed.

End EscapeFacts.

(** Outside the doubled backslash the truncator keeps spans closed under the
    escaping rule itself: when no star of the text stands after an even,
    positive number of backslashes and a safe space was recorded, the
    returned string has no open span. *)
Lemma truncate_closes_spans_where_stars_told_apart (s : str) (limit : Z) :
  (len s > limit)%Z -> Truncator.safe_space_seen s limit ->
  Truncator.stars_told_apart None s = true ->
  Truncator.open_spans (Truncator._truncate_markdown_v2_safely s limit)
  = (false, false).
Proof.
  intros Hlen Hsafe Hs.
  destruct (truncate_at_safe_space_closes_spans s limit Hlen Hsafe)
    as (Hb & Hi & k & _ & _ & _ & _ & Hr).
  set (r := Truncator._truncate_markdown_v2_safely s limit) in *.
  assert (Hrs : Truncator.stars_told_apart None r = true).
  { rewrite Hr. apply EscapeFacts.stars_told_apart_ellipsis.
    destruct (TruncatorFacts.rstrip_split (firstn k s)) as (ws & Hp & _).
    apply (EscapeFacts.stars_told_apart_prefix _ ws). rewrite <- Hp.
    apply (EscapeFacts.stars_told_apart_prefix _ (skipn k s)).
    rewrite firstn_skipn. exact Hs. }
  pose proof (EscapeFacts.markers_agree r None Hrs) as Ha.
  cbn [Truncator.escaped_after Truncator.prev_backslash_after] in Ha.
  unfold Truncator.open_spans. rewrite Ha.
  unfold Truncator.bold_markers, Truncator.italic_markers in Hb, Hi.
  destruct (Truncator.markers false r) as [b i]. cbn [fst snd] in Hb, Hi.
  rewrite <- !Nat.negb_even, Hb, Hi. reflexivity.
Qed.

(** C4: the formatter turns "a b \*c d*eeee" into "a b \\*c d*eeee", a
    literal backslash followed by an italic span.  With the limit 10 the
    scanner meets the spaces at 1 and 3 with both depths at zero, so a
    safe space exists in the window, and under the escaping rule too.
    It then takes the star behind the doubled backslash for an escaped
    one, records the space at 8 inside the italic span as safe and cuts
    there: the returned string "a b \\*c" with the ellipsis holds one
    unescaped italic marker, an open span. *)
Theorem truncate_cuts_inside_span_after_doubled_backslash :
  let raw := [97; 32; 98; 32; 92; 42; 99; 32; 100; 42; 101; 101; 101; 101]%N in
  let escaped := Formatter._escape_md_v2_preserving_formatting raw in
  let r := Truncator._truncate_markdown_v2_safely escaped 10 in
  escaped = [97; 32; 98; 32; 92; 92; 42; 99; 32; 100; 42; 101; 101; 101; 101]%N
  /\ (len escaped > 10)%Z
  /\ Truncator.safe_space_seen escaped 10
  /\ (Truncator.char_at escaped 3 = SPACE
      /\ Truncator.unescaped_markers false (firstn 3 escaped) = (0, 0))
  /\ Truncator.open_spans escaped = (false, false)
  /\ Truncator.last_safe_space (Truncator.scan escaped 10) = 8%Z
  /\ r = [97; 32; 98; 32; 92; 92; 42; 99; ELLIPSIS]%N
  /\ Truncator.prepare_markdown_v2 raw (Some 10%Z) = r
  /\ Truncator.unescaped_markers false r = (0, 1)
  /\ Truncator.open_spans r = (false, true).
Proof.
  intros raw escaped r.
  assert (He : escaped
               = [97; 32; 98; 32; 92; 92; 42; 99; 32; 100; 42;
                  101; 101; 101; 101]%N) by (vm_compute; reflexivity).
  split; [exact He|]. subst r. rewrite He.
  split; [vm_compute; reflexivity|].
  split; [unfold Truncator.safe_space_seen; vm_compute; discriminate|].
  repeat split; vm_compute; reflexivity.
Qed.

(** ** The delivery chain *)

Module DeliveryFacts.
Import TextFacts Formatter Truncator Delivery.

Lemma attempts_app (a b : list event) :
  attempts (a ++ b) = attempts a ++ attempts b.
Proof.
  induction a as [|[s p|u|l] a IH]; cbn [app attempts]; rewrite ?IH; reflexivity.
Qed.

(** With a positive limit the truncated text fits the limit itself. *)
Lemma truncate_fits (t : str) (limit : Z) :
  (1 <= limit)%Z -> (len (_truncate_markdown_v2_safely t limit) <= limit)%Z.
Proof.
  intros Hl. unfold _truncate_markdown_v2_safely.
  destruct (len t <=? limit)%Z eqn:E; [apply Z.leb_le in E; exact E|].
  pose proof (TruncatorFacts.cut_index_bounds t limit ltac:(lia)) as Hc.
  rewrite len_app. unfold slice_to.
  destruct (cut_index t limit <? 0)%Z eqn:En; [apply Z.ltb_lt in En; lia|].
  pose proof (TruncatorFacts.rstrip_length
                (firstn (Z.to_nat (cut_index t limit)) t)) as Hr.
  pose proof (firstn_le_length (Z.to_nat (cut_index t limit)) t) as Hf.
  unfold len at 1. change (len [ELLIPSIS]) with 1%Z. lia.
Qed.

(** A text longer than the limit comes back ending in the ellipsis. *)
Lemma truncate_ends_in_ellipsis (t : str) (limit : Z) :
  (len t > limit)%Z ->
  exists kept, _truncate_markdown_v2_safely t limit = kept ++ [ELLIPSIS].
Proof.
  intros H. unfold _truncate_markdown_v2_safely.
  destruct (len t <=? limit)%Z eqn:E; [apply Z.leb_le in E; lia|].
  eexists. reflexivity.
Qed.

Section Chain.
Variable CHANNEL_LINK : str.
Variable lower : str -> str.
Variable T : transport.

Lemma final_caption_payload (post_text : str) :
  final_caption_md2 CHANNEL_LINK post_text
  = markup_payload CHANNEL_LINK RemotePhoto post_text.
Proof. reflexivity. Qed.

Lemma final_text_payload (post_text : str) :
  final_text_md2 CHANNEL_LINK post_text = markup_payload CHANNEL_LINK RichText post_text.
Proof.
  unfold final_text_md2, base_text_md2, markup_payload.
  rewrite len_app. reflexivity.
Qed.

Lemma markup_payload_fits (s : strategy) (post_text : str) :
  (len (link_md2 CHANNEL_LINK) < state_limit s)%Z ->
  (len (markup_payload CHANNEL_LINK s post_text) <= state_limit s)%Z.
Proof.
  intros Hl. unfold markup_payload. rewrite len_app.
  destruct (len (prepare_markdown_v2 post_text None)
            + len (link_md2 CHANNEL_LINK) >? state_limit s)%Z eqn:E.
  - pose proof (truncate_fits (prepare_markdown_v2 post_text None)
                  (state_limit s - len (link_md2 CHANNEL_LINK))) as H.
    lia.
  - pose proof (Zgt_cases (len (prepare_markdown_v2 post_text None)
                           + len (link_md2 CHANNEL_LINK)) (state_limit s)) as H.
    rewrite E in H. lia.
Qed.

(** The sends of the photo block carry the caption. *)
Lemma photo_stage_sends (post_text url : str) (s : strategy) (payload : str) :
  In (Send s payload) (fst (fst (photo_stage CHANNEL_LINK lower T post_text url))) ->
  (s = RemotePhoto \/ s = ReuploadedPhoto)
  /\ payload = final_caption_md2 CHANNEL_LINK post_text.
Proof.
  unfold photo_stage.
  destruct (caption_truncated CHANNEL_LINK post_text);
  destruct (send_photo T (PhotoUrl url) _);
  try destruct (_build_input_file_from_url lower T url);
  try destruct (send_photo T (PhotoFile _) _);
  cbn [fst snd app In]; intros H;
  repeat (destruct H as [H|H]; [inversion H; subst; auto|]);
  try contradiction.
Qed.

(** The sends of the text block carry the rich body or the plain one. *)
Lemma text_stage_sends (post_text : str) (s : strategy) (payload : str) :
  In (Send s payload) (fst (text_stage CHANNEL_LINK T post_text)) ->
  (s = RichText /\ payload = final_text_md2 CHANNEL_LINK post_text)
  \/ (s = PlainText /\ payload = plain_text CHANNEL_LINK post_text).
Proof.
  unfold text_stage.
  destruct (send_message T _ MarkdownV2);
  try destruct (send_message T _ NoMarkup);
  cbn [fst snd app In]; intros H;
  repeat (destruct H as [H|H]; [inversion H; subst; auto|]);
  try contradiction.
Qed.

Lemma run_sends (post_text : str) (image_url : option str)
      (s : strategy) (payload : str) :
  In (Send s payload)
     (fst (send_to_telegram CHANNEL_LINK lower T post_text image_url)) ->
  (s <> PlainText /\ payload = markup_payload CHANNEL_LINK s post_text)
  \/ (s = PlainText /\ payload = plain_text CHANNEL_LINK post_text).
Proof.
  unfold send_to_telegram.
  assert (Htext : forall pre,
    In (Send s payload) pre \/ In (Send s payload)
         (fst (text_stage CHANNEL_LINK T post_text)) ->
    (forall s' p', In (Send s' p') pre ->
       (s' = RemotePhoto \/ s' = ReuploadedPhoto)
       /\ p' = final_caption_md2 CHANNEL_LINK post_text) ->
    (s <> PlainText /\ payload = markup_payload CHANNEL_LINK s post_text)
    \/ (s = PlainText /\ payload = plain_text CHANNEL_LINK post_text)).
  { intros pre [H | H] Hpre.
    - destruct (Hpre _ _ H) as [[-> | ->] ->]; left;
        (split; [discriminate | apply final_caption_payload]).
    - destruct (text_stage_sends _ _ _ H) as [[-> ->] | [-> ->]].
      + left. split; [discriminate | apply final_text_payload].
      + right. split; reflexivity. }
  destruct image_url as [[|c u]|].
  - cbv beta iota zeta. cbn [negb].
    destruct (text_stage CHANNEL_LINK T post_text) as [ev e] eqn:Et.
    cbn [fst app]. intros H. apply (Htext []); [right; exact H|].
    intros ? ? [].
  - pose proof (photo_stage_sends post_text (c :: u)) as Hp.
    destruct (photo_stage CHANNEL_LINK lower T post_text (c :: u))
      as [[ev sent] e].
    cbn [fst] in Hp. destruct e.
    + destruct sent; cbn [negb].
      * cbn [fst]. intros H. apply (Htext ev); [left; exact H | exact Hp].
      * destruct (text_stage CHANNEL_LINK T post_text) as [ev2 e2] eqn:Et.
        cbn [fst]. intros H. apply in_app_or in H.
        apply (Htext ev); [|exact Hp].
        destruct H as [H|H]; [left; exact H | right; exact H].
    + cbn [fst]. intros H. apply (Htext ev); [left; exact H | exact Hp].
  - cbv beta iota zeta. cbn [negb].
    destruct (text_stage CHANNEL_LINK T post_text) as [ev e] eqn:Et.
    cbn [fst app]. intros H. apply (Htext []); [right; exact H|].
    intros ? ? [].
Qed.
End Chain.
End DeliveryFacts.

(** C1: with an image present, when the photo sent by URL, the photo sent
    from the downloaded file, the rich-text message and the plain message
    are each refused with [TelegramError], the run makes exactly four
    delivery attempts, in the order RemotePhoto, ReuploadedPhoto, RichText,
    PlainText, returns, and its last record is logged at critical level; no
    success is logged.  Whatever the transport does, a run that returns has
    logged a success or ends on the critical record. *)
Theorem exhausted_chain_four_attempts
    (CHANNEL_LINK : str) (lower : str -> str) (T : Delivery.transport)
    (post_text url : str) (file : Delivery.input_file) :
  Delivery.truthy (Some url) = true ->
  Delivery._build_input_file_from_url lower T url = Some file ->
  (forall caption,
     Delivery.send_photo T (Delivery.PhotoUrl url) caption
     = Delivery.RaisesTelegramError) ->
  (forall caption,
     Delivery.send_photo T (Delivery.PhotoFile file) caption
     = Delivery.RaisesTelegramError) ->
  (forall body mode,
     Delivery.send_message T body mode = Delivery.RaisesTelegramError) ->
  let run := Delivery.send_to_telegram CHANNEL_LINK lower T post_text (Some url) in
  Delivery.attempts (fst run)
  = [Delivery.RemotePhoto; Delivery.ReuploadedPhoto;
     Delivery.RichText; Delivery.PlainText]
  /\ snd run = Delivery.Returned
  /\ last (fst run) (Delivery.Log Delivery.INFO) = Delivery.Log Delivery.CRITICAL
  /\ Delivery.logged Delivery.INFO (fst run) = false
  /\ (forall T' text image,
        let run' := Delivery.send_to_telegram CHANNEL_LINK lower T' text image in
        snd run' = Delivery.Returned ->
        Delivery.logged Delivery.INFO (fst run') = true
        \/ last (fst run') (Delivery.Log Delivery.INFO)
           = Delivery.Log Delivery.CRITICAL).
Proof.
  intros Himg Hfile Hurl Hup Hmsg run.
  split; [|split; [|split; [|split]]].
  1-4: subst run; destruct url as [|c u]; [discriminate Himg|];
    unfold Delivery.send_to_telegram, Delivery.photo_stage, Delivery.text_stage;
    rewrite Hurl, Hfile, Hup; cbv beta iota zeta; cbn [negb];
    rewrite !Hmsg;
    destruct (Delivery.caption_truncated CHANNEL_LINK post_text); reflexivity.
  intros T' text image run'. subst run'.
  unfold Delivery.send_to_telegram, Delivery.photo_stage, Delivery.text_stage.
  destruct image as [[|c u]|]; cbv beta iota zeta; cbn [negb];
    try destruct (Delivery.caption_truncated CHANNEL_LINK text);
    try destruct (Delivery.send_photo T' (Delivery.PhotoUrl _) _);
    try destruct (Delivery._build_input_file_from_url lower T' _);
    try destruct (Delivery.send_photo T' (Delivery.PhotoFile _) _);
    cbv beta iota zeta; cbn [negb];
    try destruct (Delivery.send_message T' _ Delivery.MarkdownV2);
    try destruct (Delivery.send_message T' _ Delivery.NoMarkup);
    cbn [fst snd]; intros Hret; try discriminate Hret;
    (left; reflexivity) || (right; reflexivity).
Qed.

Lemma exhausted_chain_four_attempts_witness :
  let T := Delivery.refusing_transport in
  let file := {| Delivery.filename := IMAGE ++ DOT_JPG; Delivery.content := [] |} in
  let run := Delivery.send_to_telegram [120]%N (fun s => s) T [97]%N (Some [117]%N) in
  Delivery.truthy (Some [117]%N) = true
  /\ Delivery._build_input_file_from_url (fun s => s) T [117]%N = Some file
  /\ Delivery.attempts (fst run)
     = [Delivery.RemotePhoto; Delivery.ReuploadedPhoto;
        Delivery.RichText; Delivery.PlainText]
  /\ snd run = Delivery.Returned
  /\ last (fst run) (Delivery.Log Delivery.INFO) = Delivery.Log Delivery.CRITICAL.
Proof.
  intros T file run.
  pose proof (exhausted_chain_four_attempts [120]%N (fun s => s) T [97]%N [117]%N
                file eq_refl eq_refl (fun _ => eq_refl) (fun _ => eq_refl)
                (fun _ _ => eq_refl)) as (H1 & H2 & H3 & _).
  repeat split; assumption.
Defined.

(** When the image cannot be prepared for upload the second state raises
    before any send, and the run goes on with the two text states. *)
Lemma chain_without_upload
    (CHANNEL_LINK : str) (lower : str -> str) (T : Delivery.transport)
    (post_text url : str) :
  Delivery.truthy (Some url) = true ->
  Delivery._build_input_file_from_url lower T url = None ->
  (forall caption,
     Delivery.send_photo T (Delivery.PhotoUrl url) caption
     = Delivery.RaisesTelegramError) ->
  (forall body mode,
     Delivery.send_message T body mode = Delivery.RaisesTelegramError) ->
  let run := Delivery.send_to_telegram CHANNEL_LINK lower T post_text (Some url) in
  Delivery.attempts (fst run)
  = [Delivery.RemotePhoto; Delivery.RichText; Delivery.PlainText]
  /\ last (fst run) (Delivery.Log Delivery.INFO) = Delivery.Log Delivery.CRITICAL.
Proof.
  intros Himg Hfile Hurl Hmsg run. subst run.
  destruct url as [|c u]; [discriminate Himg|].
  unfold Delivery.send_to_telegram, Delivery.photo_stage, Delivery.text_stage.
  rewrite Hurl, Hfile. cbv beta iota zeta. cbn [negb]. rewrite !Hmsg.
  destruct (Delivery.caption_truncated CHANNEL_LINK post_text); split; reflexivity.
Qed.

(** C5, as amended: in the three states that send markup (RemotePhoto,
    ReuploadedPhoto, RichText) the payload is the escaped body, truncated
    with the limit of the state less the length of the link when body and
    link together exceed that limit, followed by the whole link; it fits the
    limit of the state whenever the link is shorter than it.  With an
    escaped body of 1100 characters, an image and a link of 40 characters,
    the truncator is called with limit 984, the caption fits 1024
    characters, and the truncated body has at most 985 characters and ends
    in the ellipsis. *)
Theorem link_appended_after_truncation
    (CHANNEL_LINK : str) (lower : str -> str) (T : Delivery.transport)
    (post_text : str) (image_url : option str) :
  let link := Delivery.link_md2 CHANNEL_LINK in
  let base := Truncator.prepare_markdown_v2 post_text None in
  let run := Delivery.send_to_telegram CHANNEL_LINK lower T post_text image_url in
  (forall s payload,
     In (Delivery.Send s payload) (fst run) -> s <> Delivery.PlainText ->
     payload
     = (if (len base + len link >? Delivery.state_limit s)%Z
        then Truncator._truncate_markdown_v2_safely base
               (Delivery.state_limit s - len link)
        else base) ++ link
     /\ ((len link < Delivery.state_limit s)%Z ->
         (len payload <= Delivery.state_limit s)%Z))
  /\ (len base = 1100%Z -> len link = 40%Z ->
      Delivery.truthy image_url = true ->
      let cut := Truncator._truncate_markdown_v2_safely base 984 in
      (exists rest,
         fst run
         = Delivery.Log Delivery.WARNING
             :: Delivery.Send Delivery.RemotePhoto (cut ++ link) :: rest)
      /\ (len (cut ++ link) <= 1024)%Z
      /\ (len cut <= 985)%Z
      /\ exists kept, cut = kept ++ [ELLIPSIS]).
Proof.
  intros link base run. split.
  - intros s payload Hin Hs.
    destruct (DeliveryFacts.run_sends _ _ _ _ _ _ _ Hin) as [[_ ->] | [-> _]];
      [|contradiction].
    split; [reflexivity|]. apply DeliveryFacts.markup_payload_fits.
  - intros Hbase Hlink Himg cut.
    assert (Hcut : (len cut <= 984)%Z)
      by (apply DeliveryFacts.truncate_fits; lia).
    split; [|split; [|split]].
    + subst run. destruct image_url as [[|c u]|]; try discriminate Himg.
      unfold Delivery.send_to_telegram, Delivery.photo_stage.
      unfold Delivery.final_caption_md2, Delivery.base_caption_md2,
        Delivery.caption_truncated.
      fold link. fold base. rewrite Hbase, Hlink.
      change (1100 + 40 >? 1024)%Z with true. change (1024 - 40)%Z with 984%Z.
      fold cut. cbv beta iota zeta.
      destruct (Delivery.send_photo T (Delivery.PhotoUrl (c :: u)) (cut ++ link));
        try destruct (Delivery._build_input_file_from_url lower T (c :: u));
        try destruct (Delivery.send_photo T (Delivery.PhotoFile _) (cut ++ link));
        cbv beta iota zeta; cbn [negb app];
        try destruct (Delivery.text_stage CHANNEL_LINK T post_text);
        cbn [fst app]; eexists; reflexivity.
    + rewrite TextFacts.len_app. lia.
    + lia.
    + apply DeliveryFacts.truncate_ends_in_ellipsis. lia.
Qed.

Lemma link_appended_after_truncation_witness :
  let CHANNEL_LINK := repeat 120%N 17 in
  let post_text := repeat 97%N 1100 in
  let link := Delivery.link_md2 CHANNEL_LINK in
  let base := Truncator.prepare_markdown_v2 post_text None in
  let cut := Truncator._truncate_markdown_v2_safely base 984 in
  len base = 1100%Z /\ len link = 40%Z
  /\ Delivery.truthy (Some [117]%N) = true
  /\ (len (cut ++ link) <= 1024)%Z
  /\ (len cut <= 985)%Z
  /\ exists kept, cut = kept ++ [ELLIPSIS].
Proof.
  intros CHANNEL_LINK post_text link base cut.
  assert (Hbase : len base = 1100%Z) by (vm_compute; reflexivity).
  assert (Hlink : len link = 40%Z) by (vm_compute; reflexivity).
  destruct (link_appended_after_truncation CHANNEL_LINK (fun s => s)
              Delivery.refusing_transport post_text (Some [117]%N))
    as [_ H].
  destruct (H Hbase Hlink eq_refl) as (_ & H1 & H2 & H3).
  repeat split; assumption.
Defined.

(** The plain-text state joins body and link first and cuts afterwards: a
    body of 4100 characters is sent as its first 4092 characters and three
    dots, and the link is gone. *)
Lemma plain_text_link_is_cut :
  let CHANNEL_LINK := [116; 46; 109; 101; 47; 120]%N in
  let post_text := repeat 97%N 4100 in
  let run := Delivery.send_to_telegram CHANNEL_LINK (fun s => s)
               Delivery.refusing_transport post_text None in
  let sent := repeat 97%N 4092 ++ THREE_DOTS in
  nth_error (fst run) 2 = Some (Delivery.Send Delivery.PlainText sent)
  /\ ~ (exists body, sent = body ++ Delivery.plain_text_link CHANNEL_LINK).
Proof.
  intros CHANNEL_LINK post_text run sent. split.
  - vm_compute. reflexivity.
  - intros [body H].
    assert (H1 : hd 0%N (rev sent) = 46%N) by (vm_compute; reflexivity).
    rewrite H, rev_app_distr in H1.
    set (L := rev (Delivery.plain_text_link CHANNEL_LINK)) in H1.
    assert (E : L = 120%N :: tl L) by (vm_compute; reflexivity).
    rewrite E in H1. cbn [app hd] in H1. discriminate H1.
Qed.

(** ** Image selection *)

Module ImageSelectionFacts.
Import Delivery ImageSelection.

Section Select.
Variable lower : str -> str.
Variable is_digit : char -> bool.
Variable digit_value : char -> Z.
Variable http_get : nat -> str -> http_result.
Variable image_opens : list N -> bool.
Variable generate_content : list str -> rank_result.

Lemma load_from_In (urls : list str) :
  forall position u, In u (load_from lower http_get image_opens position urls) -> In u urls.
Proof.
  induction urls as [|url rest IH]; intros position u H; [contradiction|].
  cbn [ImageSelection.load_from] in H.
  destruct (loads lower http_get image_opens position url).
  - destruct H as [-> | H]; [left; reflexivity | right; eauto].
  - right. eauto.
Qed.

(** Nothing is loaded exactly when every candidate fails. *)
Lemma load_from_nil (urls : list str) :
  forall position,
    load_from lower http_get image_opens position urls = []
    <-> (forall i url, nth_error urls i = Some url ->
                       loads lower http_get image_opens (position + i) url = false).
Proof.
  induction urls as [|url rest IH]; intros position.
  - split; [intros _ [|i] u H; discriminate H | reflexivity].
  - cbn [ImageSelection.load_from]. split.
    + intros H. destruct (loads lower http_get image_opens position url) eqn:E; [discriminate H|].
      intros [|i] u Hu; cbn [nth_error] in Hu.
      * inversion Hu; subst. rewrite Nat.add_0_r. exact E.
      * rewrite Nat.add_succ_r. apply (proj1 (IH (S position)) H i u Hu).
    + intros H. pose proof (H 0 url eq_refl) as H0.
      rewrite Nat.add_0_r in H0. rewrite H0. apply IH.
      intros i u Hu. cbn [Nat.add]. rewrite <- Nat.add_succ_r.
      apply (H (S i) u Hu).
Qed.

Lemma chosen_In (index_to_url : list str) (raw u : str) :
  chosen is_digit digit_value index_to_url raw = Some u -> In u index_to_url.
Proof.
  unfold chosen. destruct (search_digits is_digit raw); [|discriminate].
  destruct (_ && _); [|discriminate]. apply nth_error_In.
Qed.
End Select.
End ImageSelectionFacts.

(** C10: whatever the downloads and the model answer, the selection returns
    nothing or one of the first five supplied candidates; on an empty list
    it returns nothing. *)
Theorem selected_image_is_a_candidate
    (lower : str -> str) (is_digit : char -> bool) (digit_value : char -> Z)
    (http_get : nat -> str -> Delivery.http_result)
    (image_opens : list N -> bool)
    (generate_content : list str -> ImageSelection.rank_result)
    (image_urls : list str) :
  let select :=
    ImageSelection.select_best_image lower is_digit digit_value http_get
      image_opens generate_content in
  (forall url, select image_urls = Some url ->
     In url (firstn 5 image_urls) /\ In url image_urls)
  /\ select [] = None.
Proof.
  intros select. split; [|reflexivity].
  intros url H. subst select. unfold ImageSelection.select_best_image in H.
  destruct image_urls as [|u0 rest]; [discriminate H|].
  assert (Hvalid : In url (ImageSelection.valid_urls_for_model lower http_get
                             image_opens (u0 :: rest))).
  { destruct (ImageSelection.valid_urls_for_model lower http_get image_opens
                (u0 :: rest)) as [|v valid] eqn:Ev; [discriminate H|].
    destruct (generate_content (v :: valid)) as [|raw].
    - inversion H; subst. left. reflexivity.
    - destruct (ImageSelection.chosen is_digit digit_value (v :: valid) (strip raw))
        as [w|] eqn:Ec.
      + inversion H; subst.
        apply (ImageSelectionFacts.chosen_In is_digit digit_value _ _ _ Ec).
      + inversion H; subst. left. reflexivity. }
  apply ImageSelectionFacts.load_from_In in Hvalid.
  split; [exact Hvalid|]. rewrite <- (firstn_skipn 5 (u0 :: rest)).
  apply in_or_app. left. exact Hvalid.
Qed.

(** C7, as amended: for a non-empty list of candidates, when the ranking
    raises or names no position of the loaded candidates, the selection
    falls back to the first of the first five candidates that could be
    downloaded and opened: it is the first supplied candidate when that one
    loads, and nothing exactly when none of the five loads. *)
Theorem fallback_is_first_loaded
    (lower : str -> str) (is_digit : char -> bool) (digit_value : char -> Z)
    (http_get : nat -> str -> Delivery.http_result)
    (image_opens : list N -> bool)
    (generate_content : list str -> ImageSelection.rank_result)
    (image_urls : list str) :
  image_urls <> [] ->
  ImageSelection.no_clear_answer lower is_digit digit_value http_get
    image_opens generate_content image_urls ->
  let selected :=
    ImageSelection.select_best_image lower is_digit digit_value http_get
      image_opens generate_content image_urls in
  selected
  = hd_error (ImageSelection.valid_urls_for_model lower http_get image_opens
                image_urls)
  /\ (selected = None
      <-> forall position url,
            nth_error (firstn 5 image_urls) position = Some url ->
            ImageSelection.loads lower http_get image_opens position url = false)
  /\ (forall first rest,
        image_urls = first :: rest ->
        ImageSelection.loads lower http_get image_opens 0 first = true ->
        selected = Some first).
Proof.
  intros Hne Hno selected.
  assert (Hsel : selected
                 = hd_error (ImageSelection.valid_urls_for_model lower http_get
                               image_opens image_urls)).
  { subst selected. unfold ImageSelection.select_best_image.
    unfold ImageSelection.no_clear_answer in Hno.
    destruct image_urls as [|u0 rest]; [contradiction|].
    destruct (ImageSelection.valid_urls_for_model lower http_get image_opens
                (u0 :: rest)) as [|v valid]; [reflexivity|].
    destruct (generate_content (v :: valid)) as [|raw]; [reflexivity|].
    rewrite Hno. reflexivity. }
  split; [exact Hsel|]. split.
  - rewrite Hsel. unfold ImageSelection.valid_urls_for_model.
    rewrite <- (ImageSelectionFacts.load_from_nil lower http_get image_opens
                  (firstn 5 image_urls) 0).
    destruct (ImageSelection.load_from lower http_get image_opens 0
                (firstn 5 image_urls)); cbn [hd_error];
      split; intros H; (reflexivity || discriminate H).
  - intros first rest -> Hload. rewrite Hsel.
    unfold ImageSelection.valid_urls_for_model.
    cbn [firstn ImageSelection.load_from]. rewrite Hload. reflexivity.
Qed.

Lemma fallback_is_first_loaded_witness :
  let urls := [[117; 49]; [117; 50]]%N in
  let select :=
    ImageSelection.select_best_image (fun s => s) ImageSelection.ascii_digit
      ImageSelection.ascii_digit_value ImageSelection.every_download
      (fun _ => true) (fun _ => ImageSelection.RankRaises) in
  urls <> []
  /\ ImageSelection.no_clear_answer (fun s => s) ImageSelection.ascii_digit
       ImageSelection.ascii_digit_value ImageSelection.every_download
       (fun _ => true) (fun _ => ImageSelection.RankRaises) urls
  /\ select urls = Some [117; 49]%N.
Proof.
  intros urls select.
  assert (Hne : urls <> []) by discriminate.
  assert (Hno : ImageSelection.no_clear_answer (fun s => s)
                  ImageSelection.ascii_digit ImageSelection.ascii_digit_value
                  ImageSelection.every_download (fun _ => true)
                  (fun _ => ImageSelection.RankRaises) urls) by exact I.
  split; [exact Hne|]. split; [exact Hno|].
  destruct (fallback_is_first_loaded (fun s => s) ImageSelection.ascii_digit
              ImageSelection.ascii_digit_value ImageSelection.every_download
              (fun _ => true) (fun _ => ImageSelection.RankRaises) urls Hne Hno)
    as (_ & _ & H).
  apply (H [117; 49]%N [[117; 50]%N] eq_refl eq_refl).
Defined.

(** When no download succeeds the selection returns nothing although a
    candidate was supplied; when only the first download fails and the
    ranking raises, it returns the second candidate, not the first. *)
Lemma fallback_is_not_first_supplied :
  ImageSelection.select_best_image (fun s => s) ImageSelection.ascii_digit
    ImageSelection.ascii_digit_value ImageSelection.no_download
    (fun _ => true) (fun _ => ImageSelection.RankRaises) [[117; 49]%N]
  = None
  /\ ImageSelection.select_best_image (fun s => s) ImageSelection.ascii_digit
       ImageSelection.ascii_digit_value ImageSelection.first_download_fails
       (fun _ => true) (fun _ => ImageSelection.RankRaises)
       [[117; 49]; [117; 50]]%N
     = Some [117; 50]%N.
Proof. split; reflexivity. Qed.

(* the answer " 2." selects the second loaded candidate *)
Example answer_selects_candidate :
  ImageSelection.select_best_image (fun s => s) ImageSelection.ascii_digit
    ImageSelection.ascii_digit_value ImageSelection.every_download
    (fun _ => true) (fun _ => ImageSelection.RankText [32; 50; 46]%N)
    [[117; 49]; [117; 50]]%N
  = Some [117; 50]%N.
Proof. reflexivity. Qed.

(** ** The schedule *)

Module SchedulerFacts.
Import Scheduler.

Lemma schedule_length (N START END : Z) (randint : nat -> Z -> Z -> Z) :
  length (schedule N START END randint) = Z.to_nat N.
Proof. unfold schedule. rewrite length_map, length_seq. reflexivity. Qed.

Lemma schedule_nth (N START END : Z) (randint : nat -> Z -> Z -> Z)
      (i : nat) (j : job) :
  nth_error (schedule N START END randint) i = Some j ->
  (i < Z.to_nat N)%nat /\ j = scheduled N START END randint i.
Proof.
  unfold schedule. intros H.
  assert (Hi : (i < Z.to_nat N)%nat).
  { assert (Hn : nth_error (map (scheduled N START END randint)
                               (seq 0 (Z.to_nat N))) i <> None) by congruence.
    apply nth_error_Some in Hn. rewrite length_map, length_seq in Hn. exact Hn. }
  split; [exact Hi|].
  rewrite nth_error_map in H.
  rewrite nth_error_seq in H.
  destruct (i <? Z.to_nat N)%nat eqn:E.
  - cbn [option_map] in H. inversion H. reflexivity.
  - apply Nat.ltb_ge in E. lia.
Qed.

Lemma minute_of_day_scheduled (N START END : Z) (randint : nat -> Z -> Z -> Z)
      (i : nat) :
  let j := scheduled N START END randint i in
  (minute_of_day j
   = START * 60 + scheduled_minute_abs N START END randint i
   /\ 0 <= minute j < 60)%Z.
Proof.
  intros j. subst j. unfold minute_of_day, scheduled. cbn [hour minute].
  pose proof (Z.div_mod (scheduled_minute_abs N START END randint i) 60
                ltac:(lia)) as Hd.
  pose proof (Z.mod_pos_bound (scheduled_minute_abs N START END randint i) 60
                ltac:(lia)) as Hm.
  lia.
Qed.

(** With at most one run per minute of the window, the offset stays
    inside the sub-interval of the run. *)
Lemma scheduled_in_interval (N START END : Z) (randint : nat -> Z -> Z -> Z)
      (i : nat) :
  randint_in_range randint ->
  (0 < N <= total_minutes_in_range START END)%Z ->
  let w := interval_minutes N START END in
  let m := scheduled_minute_abs N START END randint i in
  (1 <= w /\ N * w <= total_minutes_in_range START END
   /\ random_offset N START END randint i = randint i 0 (w - 1)
   /\ 0 <= random_offset N START END randint i <= w - 1
   /\ Z.of_nat i * w <= m < (Z.of_nat i + 1) * w)%Z.
Proof.
  intros Hr HN w m. subst w m.
  unfold scheduled_minute_abs, random_offset, interval_minutes.
  destruct (N >? 0)%Z eqn:E;
    [|pose proof (Zgt_cases N 0) as Hc; rewrite E in Hc; lia].
  set (total := total_minutes_in_range START END) in *.
  assert (Hw : (1 <= total / N)%Z).
  { apply Z.div_le_lower_bound; lia. }
  pose proof (Z.mul_div_le total N ltac:(lia)) as Hle.
  replace (Z.max 0 (total / N - 1)) with (total / N - 1)%Z by lia.
  pose proof (Hr i 0%Z (total / N - 1)%Z ltac:(lia)) as Ho.
  repeat split; try lia.
Qed.
End SchedulerFacts.

(** C8, as amended: when the number of runs is positive and at most the
    number of minutes of the window, the loop schedules that many runs; the
    sub-intervals have the whole-minute length [total // N], start at the
    window start and stay inside the window (filling it when [N] divides
    its length); the [i]-th run falls in the [i]-th sub-interval, at an
    offset drawn between 0 and the length less one, 0 included.  For 3 runs
    between 9 and 21 the sub-intervals last 240 minutes and, whatever the
    draws, each holds one run, at a time from 9:00 on and before 21:00.
    Without runs nothing is scheduled. *)
Theorem schedule_one_run_per_interval (randint : nat -> Z -> Z -> Z) :
  Scheduler.randint_in_range randint ->
  (forall N START END,
     (0 < N <= Scheduler.total_minutes_in_range START END)%Z ->
     let w := Scheduler.interval_minutes N START END in
     let total := Scheduler.total_minutes_in_range START END in
     let jobs := Scheduler.schedule N START END randint in
     (1 <= w /\ N * w <= total)%Z
     /\ ((N | total)%Z -> (N * w = total)%Z)
     /\ length jobs = Z.to_nat N
     /\ forall i, (i < Z.to_nat N)%nat ->
          exists j,
            nth_error jobs i = Some j
            /\ (let m := (Scheduler.minute_of_day j - START * 60)%Z in
                Z.of_nat i * w <= m < (Z.of_nat i + 1) * w /\ 0 <= m < total)%Z
            /\ (0 <= Scheduler.random_offset N START END randint i <= w - 1)%Z
            /\ (0 <= Scheduler.minute j < 60)%Z)
  /\ (let jobs := Scheduler.schedule 3 9 21 randint in
      Scheduler.total_minutes_in_range 9 21 = 720%Z
      /\ Scheduler.interval_minutes 3 9 21 = 240%Z
      /\ length jobs = 3
      /\ (forall i j, nth_error jobs i = Some j ->
            (9 * 60 + 240 * Z.of_nat i <= Scheduler.minute_of_day j
             < 9 * 60 + 240 * (Z.of_nat i + 1)
             /\ 9 * 60 <= Scheduler.minute_of_day j < 21 * 60
             /\ 9 <= Scheduler.hour j <= 20 /\ 0 <= Scheduler.minute j <= 59)%Z)
      /\ (forall i i' j j',
            nth_error jobs i = Some j -> nth_error jobs i' = Some j' ->
            (i < i')%nat ->
            (Scheduler.minute_of_day j < Scheduler.minute_of_day j')%Z))
  /\ (forall START END, Scheduler.schedule 0 START END randint = []).
Proof.
  intros Hr.
  assert (Hgen : forall N START END i,
    (0 < N <= Scheduler.total_minutes_in_range START END)%Z ->
    (i < Z.to_nat N)%nat ->
    let w := Scheduler.interval_minutes N START END in
    let j := Scheduler.scheduled N START END randint i in
    let m := (Scheduler.minute_of_day j - START * 60)%Z in
    (1 <= w /\ N * w <= Scheduler.total_minutes_in_range START END
     /\ Z.of_nat i * w <= m < (Z.of_nat i + 1) * w
     /\ 0 <= m < Scheduler.total_minutes_in_range START END
     /\ 0 <= Scheduler.random_offset N START END randint i <= w - 1
     /\ 0 <= Scheduler.minute j < 60)%Z).
  { intros N START END i HN Hi w j m.
    destruct (SchedulerFacts.scheduled_in_interval N START END randint i Hr HN)
      as (Hw & Htot & _ & Hoff & Hm).
    destruct (SchedulerFacts.minute_of_day_scheduled N START END randint i)
      as (Hday & Hmin).
    fold w in Hw, Htot, Hoff, Hm. fold j in Hday, Hmin. subst m. rewrite Hday.
    replace (START * 60 + Scheduler.scheduled_minute_abs N START END randint i
             - START * 60)%Z
      with (Scheduler.scheduled_minute_abs N START END randint i) by lia.
    assert (Hlast : ((Z.of_nat i + 1) * w <= N * w)%Z).
    { apply Z.mul_le_mono_nonneg_r; lia. }
    repeat split; try lia. }
  split; [|split].
  - intros N START END HN w total jobs.
    destruct (SchedulerFacts.scheduled_in_interval N START END randint 0 Hr HN)
      as (Hw & Htot & _).
    split; [split; assumption|]. split; [|split].
    + intros [q Hq]. subst w. unfold Scheduler.interval_minutes.
      destruct (N >? 0)%Z eqn:E;
        [|pose proof (Zgt_cases N 0) as Hc; rewrite E in Hc; lia].
      fold total. rewrite Hq, Z.div_mul by lia. lia.
    + apply SchedulerFacts.schedule_length.
    + intros i Hi. exists (Scheduler.scheduled N START END randint i). split.
      * subst jobs. unfold Scheduler.schedule.
        rewrite nth_error_map, nth_error_seq.
        apply Nat.ltb_lt in Hi. rewrite Hi. reflexivity.
      * destruct (Hgen N START END i HN Hi) as (_ & _ & H1 & H2 & H3 & H4).
        repeat split; assumption || apply H1 || apply H2 || apply H3 || apply H4.
  - intros jobs.
    assert (Hjob : forall i j, nth_error jobs i = Some j ->
      (9 * 60 + 240 * Z.of_nat i <= Scheduler.minute_of_day j
       < 9 * 60 + 240 * (Z.of_nat i + 1)
       /\ 9 * 60 <= Scheduler.minute_of_day j < 21 * 60
       /\ 9 <= Scheduler.hour j <= 20 /\ 0 <= Scheduler.minute j <= 59)%Z).
    { intros i j Hj. apply SchedulerFacts.schedule_nth in Hj.
      destruct Hj as [Hi ->].
      assert (HN : (0 < 3 <= Scheduler.total_minutes_in_range 9 21)%Z)
        by (vm_compute; split; congruence).
      destruct (Hgen 3%Z 9%Z 21%Z i HN Hi) as (_ & _ & H1 & H2 & _ & H4).
      change (Scheduler.interval_minutes 3 9 21) with 240%Z in H1.
      change (Scheduler.total_minutes_in_range 9 21) with 720%Z in H2.
      unfold Scheduler.minute_of_day in *.
      change (Z.to_nat 3) with 3 in Hi. lia. }
    split; [reflexivity|]. split; [reflexivity|].
    split; [apply SchedulerFacts.schedule_length|]. split; [exact Hjob|].
    intros i i' j j' Hj Hj' Hlt.
    apply Hjob in Hj. apply Hjob in Hj'. lia.
  - reflexivity.
Qed.

Lemma schedule_one_run_per_interval_witness :
  Scheduler.randint_in_range Scheduler.lowest_draw
  /\ Scheduler.schedule 3 9 21 Scheduler.lowest_draw
     = [ {| Scheduler.hour := 9; Scheduler.minute := 0 |};
         {| Scheduler.hour := 13; Scheduler.minute := 0 |};
         {| Scheduler.hour := 17; Scheduler.minute := 0 |} ]
  /\ length (Scheduler.schedule 3 9 21 Scheduler.lowest_draw) = 3
  /\ Scheduler.schedule 0 9 21 Scheduler.lowest_draw = [].
Proof.
  assert (Hr : Scheduler.randint_in_range Scheduler.lowest_draw)
    by (intros i a b Hab; unfold Scheduler.lowest_draw; lia).
  destruct (schedule_one_run_per_interval Scheduler.lowest_draw Hr)
    as (_ & (_ & _ & Hlen & _) & Hzero).
  split; [exact Hr|]. split; [reflexivity|]. split; [exact Hlen|].
  apply Hzero.
Defined.

(** With more runs than minutes in the window the sub-intervals are empty:
    1000 runs between 9 and 21 are all scheduled at 9:00. *)
Lemma crowded_schedule_collapses :
  Scheduler.interval_minutes 1000 9 21 = 0%Z
  /\ Scheduler.schedule 1000 9 21 Scheduler.lowest_draw
     = repeat {| Scheduler.hour := 9; Scheduler.minute := 0 |} 1000.
Proof. split; vm_compute; reflexivity. Qed.

(** ** Worked examples *)

(* "a_b.c" becomes "a\_b\.c" *)
Example format_plain_text :
  Formatter._escape_md_v2_preserving_formatting [97; 95; 98; 46; 99]%N
  = [97; 92; 95; 98; 92; 46; 99]%N.
Proof. reflexivity. Qed.

(* "__a__ _b_ \" becomes "**a** *b* \\" *)
Example format_spans :
  Formatter._escape_md_v2_preserving_formatting
    [95; 95; 97; 95; 95; 32; 95; 98; 95; 32; 92]%N
  = [42; 42; 97; 42; 42; 32; 42; 98; 42; 32; 92; 92]%N.
Proof. reflexivity. Qed.

(* "__a_" becomes "\_*a*": the first underscore finds no partner *)
Example format_three_underscores :
  Formatter._escape_md_v2_preserving_formatting [95; 95; 97; 95]%N
  = [92; 95; 42; 97; 42]%N.
Proof. reflexivity. Qed.

(* "a*b" stays "a*b": the stars are the canonical markers and are never
   escaped, paired or not *)
Example format_keeps_lone_star :
  Formatter._escape_md_v2_preserving_formatting [97; 42; 98]%N
  = [97; 42; 98]%N.
Proof. reflexivity. Qed.

(* "abcdefgh" has no space: cut at limit - 1 *)
Example truncate_without_space :
  Truncator._truncate_markdown_v2_safely
    [97; 98; 99; 100; 101; 102; 103; 104]%N 3
  = [97; 98; ELLIPSIS]%N.
Proof. reflexivity. Qed.

(* limit 0 returns the ellipsis alone, one character more than the limit *)
Example truncate_at_zero :
  Truncator._truncate_markdown_v2_safely [97; 98; 99]%N 0 = [ELLIPSIS].
Proof. reflexivity. Qed.

(* The formatter turns "\*a b*cccc" into "\\*a b*cccc"; the scanner takes
   the star that follows the doubled backslash for an escaped one, finds
   the space at depth zero and cuts there. *)
Example truncate_after_doubled_backslash :
  let escaped :=
    Formatter._escape_md_v2_preserving_formatting
      [92; 42; 97; 32; 98; 42; 99; 99; 99; 99]%N in
  escaped = [92; 92; 42; 97; 32; 98; 42; 99; 99; 99; 99]%N
  /\ Truncator._truncate_markdown_v2_safely escaped 6
     = [92; 92; 42; 97; ELLIPSIS]%N
  /\ Truncator.markers false [92; 92; 42; 97; ELLIPSIS]%N = (0, 0).
Proof. repeat split. Qed.

(* first send accepted: one attempt *)
Example first_send_accepted :
  Delivery.attempts
    (fst (Delivery.send_to_telegram [120]%N (fun s => s)
            {| Delivery.send_photo := fun _ _ => Delivery.Sent;
               Delivery.send_message := fun _ _ => Delivery.Sent;
               Delivery.http_get := fun _ => Delivery.HttpFails |}
            [97]%N (Some [117]%N)))
  = [Delivery.RemotePhoto].
Proof. reflexivity. Qed.

(* no image: the chain starts at the rich-text state *)
Example no_image_starts_at_rich_text :
  Delivery.attempts
    (fst (Delivery.send_to_telegram [120]%N (fun s => s)
            Delivery.refusing_transport [97]%N None))
  = [Delivery.RichText; Delivery.PlainText].
Proof. reflexivity. Qed.

(** * Further properties of the code *)

(** ** More on the delivery chain *)

Module ChainFacts.
Import Delivery ChainOrder.

(** Every way a run can go: one case for each outcome of each call. *)
Ltac chain_cases CHANNEL_LINK lower T post_text :=
  unfold send_to_telegram, photo_stage, text_stage;
  try destruct (caption_truncated CHANNEL_LINK post_text);
  try destruct (send_photo T (PhotoUrl _) _) eqn:?;
  try destruct (_build_input_file_from_url lower T _) eqn:?;
  try destruct (send_photo T (PhotoFile _) _) eqn:?;
  cbv beta iota zeta; cbn [negb];
  try destruct (send_message T _ MarkdownV2) eqn:?;
  try destruct (send_message T _ NoMarkup) eqn:?;
  cbn [fst snd app].

End ChainFacts.

(** X1: whatever the transport does, the delivery attempts of a run are the
    four states in their fixed order with some left out: at most four
    attempts, none repeated, never a photo state after a text state.  A run
    without image makes no photo attempt and starts with the rich-text
    message; a run with an image starts with the photo sent by URL. *)
Theorem attempts_follow_chain_order
    (CHANNEL_LINK : str) (lower : str -> str) (T : Delivery.transport)
    (post_text : str) (image_url : option str) :
  let tried :=
    Delivery.attempts
      (fst (Delivery.send_to_telegram CHANNEL_LINK lower T post_text image_url)) in
  ChainOrder.subsequence tried ChainOrder.chain_order = true
  /\ (length tried <= 4)%nat /\ NoDup tried
  /\ hd_error tried
     = Some (if Delivery.truthy image_url
             then Delivery.RemotePhoto else Delivery.RichText).
Proof.
  intros tried. subst tried.
  destruct image_url as [[|c u]|];
    ChainFacts.chain_cases CHANNEL_LINK lower T post_text;
    (split; [reflexivity|]); (split; [cbn; lia|]);
    (split; [|reflexivity]);
    repeat (constructor; [cbn; intuition discriminate|]); constructor.
Qed.

(** X2: a run ends in exactly one of three ways.  Success: it returns, and
    its last two records are an accepted send and the success record, the
    only one.  Exhaustion: it returns without success record, the last
    attempt is the plain message and the last record is critical.
    Otherwise an exception other than [TelegramError] leaves the function,
    and neither success nor the critical record was logged. *)
Theorem run_outcomes
    (CHANNEL_LINK : str) (lower : str -> str) (T : Delivery.transport)
    (post_text : str) (image_url : option str) :
  let run := Delivery.send_to_telegram CHANNEL_LINK lower T post_text image_url in
  (snd run = Delivery.Returned
   /\ (exists s payload before,
         rev (fst run)
         = Delivery.Log Delivery.INFO :: Delivery.Send s payload :: before
         /\ Delivery.logged Delivery.INFO before = false)
   /\ Delivery.logged Delivery.CRITICAL (fst run) = false)
  \/ (snd run = Delivery.Returned
      /\ Delivery.logged Delivery.INFO (fst run) = false
      /\ last (Delivery.attempts (fst run)) Delivery.RemotePhoto
         = Delivery.PlainText
      /\ last (fst run) (Delivery.Log Delivery.INFO)
         = Delivery.Log Delivery.CRITICAL)
  \/ (snd run = Delivery.Raised
      /\ Delivery.logged Delivery.INFO (fst run) = false
      /\ Delivery.logged Delivery.CRITICAL (fst run) = false).
Proof.
  intros run. subst run.
  destruct image_url as [[|c u]|];
    ChainFacts.chain_cases CHANNEL_LINK lower T post_text;
    first
      [ solve [left; split; [reflexivity|]; split; [|reflexivity];
               cbn [rev app]; do 3 eexists; split; reflexivity]
      | solve [right; left; repeat split; reflexivity]
      | solve [right; right; repeat split; reflexivity] ].
Qed.

(** X3: the plain message never exceeds 4096 characters: when body and
    link together are longer, it is their first 4092 characters followed by
    three dots, 4095 characters in all. *)
Theorem plain_text_fits (CHANNEL_LINK post_text : str) :
  let full := Delivery.full_plain_text CHANNEL_LINK post_text in
  let sent := Delivery.plain_text CHANNEL_LINK post_text in
  (len sent <= 4096)%Z
  /\ ((len full > 4096)%Z ->
      sent = firstn 4092 full ++ THREE_DOTS /\ len sent = 4095%Z).
Proof.
  intros full sent. subst sent. unfold Delivery.plain_text. fold full.
  destruct (len full <=? 4096)%Z eqn:E.
  - apply Z.leb_le in E. split; [exact E | lia].
  - apply Z.leb_gt in E.
    assert (Hs : slice_to full 4092 = firstn 4092 full) by reflexivity.
    assert (Hl : len (firstn 4092 full ++ THREE_DOTS) = 4095%Z).
    { rewrite TextFacts.len_app. unfold len at 1. rewrite length_firstn.
      unfold len in E. change (len THREE_DOTS) with 3%Z. lia. }
    rewrite Hs. split; [lia|]. intros _. split; [reflexivity | exact Hl].
Qed.

(* a text of 4100 letters is cut to 4092 characters and three dots *)
Lemma plain_text_fits_witness :
  let full := Delivery.full_plain_text [120]%N (repeat 97%N 4100) in
  let sent := Delivery.plain_text [120]%N (repeat 97%N 4100) in
  (len full > 4096)%Z /\ len sent = 4095%Z.
Proof.
  intros full sent.
  assert (Hlong : (len full > 4096)%Z) by (vm_compute; reflexivity).
  split; [exact Hlong|].
  destruct (plain_text_fits [120]%N (repeat 97%N 4100)) as [_ H].
  exact (proj2 (H Hlong)).
Defined.

(** X4: when the photo sent by URL fails with an exception of class
    [Exception] that is not a [TelegramError], the one [except Exception]
    catches, the image is not downloaded and not uploaded: the run goes on
    with the rich-text message and, if that is refused, the plain one.
    (An exception outside [Exception], such as [asyncio.CancelledError],
    is not caught there and is no outcome of the transport here.) *)
Theorem unknown_photo_error_skips_upload
    (CHANNEL_LINK : str) (lower : str -> str) (T : Delivery.transport)
    (post_text url : str) :
  Delivery.truthy (Some url) = true ->
  Delivery.send_photo T (Delivery.PhotoUrl url)
    (Delivery.final_caption_md2 CHANNEL_LINK post_text) = Delivery.RaisesOther ->
  let run := Delivery.send_to_telegram CHANNEL_LINK lower T post_text (Some url) in
  ChainOrder.fetches (fst run) = []
  /\ exists later,
       Delivery.attempts (fst run)
       = Delivery.RemotePhoto :: Delivery.RichText :: later
       /\ (later = [] \/ later = [Delivery.PlainText]).
Proof.
  intros Himg Hurl run. subst run.
  destruct url as [|c u]; [discriminate Himg|].
  unfold Delivery.send_to_telegram, Delivery.photo_stage. rewrite Hurl.
  unfold Delivery.text_stage.
  destruct (Delivery.caption_truncated CHANNEL_LINK post_text);
    cbv beta iota zeta; cbn [negb];
    destruct (Delivery.send_message T _ Delivery.MarkdownV2);
    try destruct (Delivery.send_message T _ Delivery.NoMarkup);
    cbn [fst snd app]; (split; [reflexivity|]); eexists;
    (split; [reflexivity|]); auto.
Qed.

Lemma unknown_photo_error_skips_upload_witness :
  let T := {| Delivery.send_photo := fun _ _ => Delivery.RaisesOther;
              Delivery.send_message := fun _ _ => Delivery.Sent;
              Delivery.http_get := fun _ => Delivery.HttpFails |} in
  let run := Delivery.send_to_telegram [120]%N (fun s => s) T [97]%N (Some [117]%N) in
  Delivery.truthy (Some [117]%N) = true
  /\ ChainOrder.fetches (fst run) = []
  /\ Delivery.attempts (fst run) = [Delivery.RemotePhoto; Delivery.RichText].
Proof.
  intros T run.
  destruct (unknown_photo_error_skips_upload [120]%N (fun s => s) T [97]%N
              [117]%N eq_refl eq_refl) as (H1 & _).
  split; [reflexivity|]. split; [exact H1 | reflexivity].
Defined.

(** X5: a photo is uploaded only after the send by URL was refused with
    [TelegramError] and the download answered with a content type that,
    in lower case, holds "image" and does not hold "svg"; the caption is
    the one of the first attempt. *)
Theorem upload_only_of_images
    (CHANNEL_LINK : str) (lower : str -> str) (T : Delivery.transport)
    (post_text : str) (image_url : option str) (payload : str) :
  In (Delivery.Send Delivery.ReuploadedPhoto payload)
     (fst (Delivery.send_to_telegram CHANNEL_LINK lower T post_text image_url)) ->
  exists url header body,
    image_url = Some url
    /\ Delivery.send_photo T (Delivery.PhotoUrl url) payload
       = Delivery.RaisesTelegramError
    /\ Delivery.http_get T url = Delivery.HttpResponse header body
    /\ contains IMAGE (lower header) = true
    /\ contains SVG (lower header) = false
    /\ payload = Delivery.final_caption_md2 CHANNEL_LINK post_text.
Proof.
  intros Hin.
  assert (Hfile : forall url f,
    Delivery._build_input_file_from_url lower T url = Some f ->
    exists header body,
      Delivery.http_get T url = Delivery.HttpResponse header body
      /\ contains IMAGE (lower header) = true
      /\ contains SVG (lower header) = false).
  { intros url f. unfold Delivery._build_input_file_from_url.
    destruct (Delivery.http_get T url) as [|header body]; [discriminate|].
    cbv zeta.
    destruct (contains IMAGE (lower header)) eqn:Ei; [|discriminate].
    destruct (contains SVG (lower header)) eqn:Es; [discriminate|].
    intros _. exists header, body. repeat split; assumption || reflexivity. }
  destruct image_url as [[|c u]|].
  - exfalso. revert Hin. ChainFacts.chain_cases CHANNEL_LINK lower T post_text;
      cbn [In]; intros Hin;
      repeat (destruct Hin as [Hin|Hin]; [discriminate Hin|]); contradiction.
  - exists (c :: u). revert Hin.
    unfold Delivery.send_to_telegram, Delivery.photo_stage, Delivery.text_stage.
    cbv zeta.
    destruct (Delivery.send_photo T (Delivery.PhotoUrl (c :: u))
                (Delivery.final_caption_md2 CHANNEL_LINK post_text)) eqn:Eurl;
      destruct (Delivery.caption_truncated CHANNEL_LINK post_text);
      try (destruct (Delivery._build_input_file_from_url lower T (c :: u))
             as [f|] eqn:Ef;
           [destruct (Delivery.send_photo T (Delivery.PhotoFile f) _)|]);
      cbv beta iota zeta; cbn [negb];
      try destruct (Delivery.send_message T _ Delivery.MarkdownV2);
      try destruct (Delivery.send_message T _ Delivery.NoMarkup);
      cbn [fst snd app In]; intros Hin;
      repeat (destruct Hin as [Hin|Hin]; [try discriminate Hin|]);
      try contradiction;
      inversion Hin; subst payload;
      destruct (Hfile _ _ Ef) as (header & body & H1 & H2 & H3);
      exists header, body; repeat split; assumption.
  - exfalso. revert Hin. ChainFacts.chain_cases CHANNEL_LINK lower T post_text;
      cbn [In]; intros Hin;
      repeat (destruct Hin as [Hin|Hin]; [discriminate Hin|]); contradiction.
Qed.

(* the URL is refused, the download answers "image", the upload is sent *)
Lemma upload_only_of_images_witness :
  let T := {| Delivery.send_photo :=
                fun p _ => match p with
                           | Delivery.PhotoUrl _ => Delivery.RaisesTelegramError
                           | Delivery.PhotoFile _ => Delivery.Sent
                           end;
              Delivery.send_message := fun _ _ => Delivery.RaisesTelegramError;
              Delivery.http_get := fun _ => Delivery.HttpResponse IMAGE [] |} in
  let caption := Delivery.final_caption_md2 [120]%N [97]%N in
  In (Delivery.Send Delivery.ReuploadedPhoto caption)
     (fst (Delivery.send_to_telegram [120]%N (fun s => s) T [97]%N (Some [117]%N)))
  /\ exists url header body,
       Some [117]%N = Some url
       /\ Delivery.send_photo T (Delivery.PhotoUrl url) caption
          = Delivery.RaisesTelegramError
       /\ Delivery.http_get T url = Delivery.HttpResponse header body
       /\ contains IMAGE header = true
       /\ contains SVG header = false
       /\ caption = Delivery.final_caption_md2 [120]%N [97]%N.
Proof.
  intros T caption.
  assert (Hin : In (Delivery.Send Delivery.ReuploadedPhoto caption)
                   (fst (Delivery.send_to_telegram [120]%N (fun s => s) T [97]%N
                           (Some [117]%N))))
    by (vm_compute; auto 10).
  split; [exact Hin|].
  exact (upload_only_of_images [120]%N (fun s => s) T [97]%N (Some [117]%N)
           caption Hin).
Defined.

(** X6: with an image, when the send by URL is refused with
    [TelegramError] and the upload of the downloaded file is accepted, the
    run makes exactly these two attempts, logs the success and does not
    touch the text states. *)
Theorem upload_success_two_attempts
    (CHANNEL_LINK : str) (lower : str -> str) (T : Delivery.transport)
    (post_text url : str) (file : Delivery.input_file) :
  Delivery.truthy (Some url) = true ->
  Delivery.send_photo T (Delivery.PhotoUrl url)
    (Delivery.final_caption_md2 CHANNEL_LINK post_text)
  = Delivery.RaisesTelegramError ->
  Delivery._build_input_file_from_url lower T url = Some file ->
  Delivery.send_photo T (Delivery.PhotoFile file)
    (Delivery.final_caption_md2 CHANNEL_LINK post_text) = Delivery.Sent ->
  let run := Delivery.send_to_telegram CHANNEL_LINK lower T post_text (Some url) in
  Delivery.attempts (fst run)
  = [Delivery.RemotePhoto; Delivery.ReuploadedPhoto]
  /\ snd run = Delivery.Returned
  /\ last (fst run) (Delivery.Log Delivery.ERROR) = Delivery.Log Delivery.INFO
  /\ ChainOrder.fetches (fst run) = [url].
Proof.
  intros Himg Hurl Hfile Hup run. subst run.
  destruct url as [|c u]; [discriminate Himg|].
  unfold Delivery.send_to_telegram, Delivery.photo_stage.
  rewrite Hurl, Hfile, Hup.
  destruct (Delivery.caption_truncated CHANNEL_LINK post_text);
    repeat split; reflexivity.
Qed.

Lemma upload_success_two_attempts_witness :
  let T := {| Delivery.send_photo :=
                fun p _ => match p with
                           | Delivery.PhotoUrl _ => Delivery.RaisesTelegramError
                           | Delivery.PhotoFile _ => Delivery.Sent
                           end;
              Delivery.send_message := fun _ _ => Delivery.RaisesTelegramError;
              Delivery.http_get := fun _ => Delivery.HttpResponse IMAGE [] |} in
  let run := Delivery.send_to_telegram [120]%N (fun s => s) T [97]%N (Some [117]%N) in
  Delivery.truthy (Some [117]%N) = true
  /\ Delivery.attempts (fst run)
     = [Delivery.RemotePhoto; Delivery.ReuploadedPhoto]
  /\ snd run = Delivery.Returned.
Proof.
  intros T run.
  destruct (upload_success_two_attempts [120]%N (fun s => s) T [97]%N [117]%N
              {| Delivery.filename := IMAGE ++ DOT_JPG; Delivery.content := [] |}
              eq_refl eq_refl eq_refl eq_refl) as (H1 & H2 & _).
  repeat split; assumption.
Defined.

(** ** More on the formatter *)

Module FormatterMore.
Import TextFacts Formatter FormatterFacts.
#[local] Arguments is_reserved : simpl never.
#[local] Arguments ch_eq : simpl never.

Lemma strip_prefix_head (a : char) (p s : str) :
  count a s = 0 -> strip_prefix (a :: p) s = None.
Proof.
  destruct s as [|b s]; [reflexivity|]. cbn [count strip_prefix].
  rewrite (ch_eq_sym a b). destruct (ch_eq b a); [discriminate | reflexivity].
Qed.

(** A pass finds nothing in a text without the first character of its
    delimiter. *)
Lemma rewrite_without_hit (m : str -> option (str * str)) (a : char) (s : str) :
  (forall t, count a t = 0 -> m t = None) ->
  count a s = 0 -> rewrite_all m s = s.
Proof.
  intros Hm. unfold rewrite_all.
  induction s as [|c t IH]; intros Hc; [reflexivity|].
  cbn [length rewrite_fuel]. rewrite (Hm _ Hc).
  cbn [count] in Hc. rewrite IH by lia. reflexivity.
Qed.

Lemma span_pass_without_underscore (p mark s : str) :
  count UNDERSCORE s = 0 ->
  rewrite_all (span_matcher (UNDERSCORE :: p) mark) s = s.
Proof.
  apply rewrite_without_hit. intros t Ht. unfold span_matcher.
  rewrite (strip_prefix_head _ _ _ Ht). reflexivity.
Qed.

Lemma replace_without_hit (a : char) (p new s : str) :
  count a s = 0 -> replace (a :: p) new s = s.
Proof.
  apply rewrite_without_hit. intros t Ht. unfold replace_matcher.
  rewrite (strip_prefix_head _ _ _ Ht). reflexivity.
Qed.

Lemma flat_map_agree (f g : char -> str) (s : str) :
  (forall c, In c s -> f c = g c) -> flat_map f s = flat_map g s.
Proof.
  induction s as [|c t IH]; intros H; [reflexivity|].
  cbn [flat_map]. rewrite (H c (or_introl eq_refl)), IH; [reflexivity|].
  intros d Hd. apply H. right. exact Hd.
Qed.

Lemma count_zero_not_in (a : char) (s : str) :
  count a s = 0 -> forall c, In c s -> ch_eq c a = false.
Proof.
  induction s as [|d t IH]; intros H c Hc; [contradiction|].
  cbn [count] in H. destruct (ch_eq d a) eqn:E; [discriminate H|].
  destruct Hc as [-> | Hc]; [exact E | apply IH; [exact H | exact Hc]].
Qed.

(** A span pass with a mark as long as its delimiter keeps the length. *)
Lemma span_pass_length (delim mark s : str) :
  length mark = length delim ->
  length (rewrite_all (span_matcher delim mark) s) = length s.
Proof.
  intros Hlen.
  apply (rewrite_all_ind _ (span_matcher_consumes delim mark)
           (fun s r => length r = length s)).
  - reflexivity.
  - intros s0 out rest Hhit IH.
    apply span_matcher_hit in Hhit. destruct Hhit as (inner & _ & -> & ->).
    rewrite !length_app, IH, Hlen. lia.
  - intros c t _ IH. simpl. rewrite IH. reflexivity.
Qed.

Lemma normalize_length (text : str) : length (normalize text) = length text.
Proof.
  unfold normalize, underscores_to_italic, underscores_to_bold.
  rewrite !span_pass_length by reflexivity. reflexivity.
Qed.

Lemma output_of_length (c : char) :
  1 <= length (output_of c) <= 2.
Proof.
  unfold output_of.
  destruct (ch_eq c BACKSLASH || is_reserved c); [simpl; lia|].
  destruct (ch_eq c BOLD_MASK); [simpl; lia|].
  destruct (ch_eq c ITALIC_MASK); simpl; lia.
Qed.

(** Masking and writing out: between once and twice the length. *)
Lemma masked_output_length (u : str) :
  length u <= length (flat_map output_of (mask u)) <= 2 * length u.
Proof.
  unfold mask. rewrite replace_char, flat_map_flat_map.
  set (g := fun c : char =>
              flat_map output_of (if ch_eq STAR c then [ITALIC_MASK] else [c])).
  assert (Hg : forall c, 1 <= length (g c) <= 2).
  { intros c. subst g. cbv beta. destruct (ch_eq STAR c); cbn [flat_map];
      rewrite app_nil_r; apply output_of_length. }
  unfold replace.
  apply (rewrite_all_ind _ (replace_consumes [STAR; STAR] [BOLD_MASK])
           (fun s r => length s <= length (flat_map g r) <= 2 * length s)).
  - simpl. lia.
  - intros s out rest Hhit IH. apply replace_matcher_hit in Hhit.
    destruct Hhit as [-> ->]. rewrite flat_map_app, !length_app.
    change (length (flat_map g [BOLD_MASK])) with 2.
    change (length [STAR; STAR]) with 2. lia.
  - intros c t _ IH. cbn [flat_map]. rewrite length_app. cbn [length].
    pose proof (Hg c). lia.
Qed.

Lemma output_of_no_placeholder (c d : char) :
  d = BOLD_MASK \/ d = ITALIC_MASK -> count d (output_of c) = 0.
Proof.
  intros Hd. unfold output_of.
  destruct (ch_eq c BACKSLASH) eqn:Eb.
  - apply ch_eq_true in Eb. subst c. destruct Hd as [-> | ->]; reflexivity.
  - destruct (is_reserved c) eqn:Er.
    + cbn [orb count].
      assert (Hc : ch_eq c d = false).
      { destruct (ch_eq c d) eqn:E; [|reflexivity].
        apply ch_eq_true in E. subst c.
        destruct Hd as [-> | ->]; discriminate Er. }
      rewrite Hc. destruct Hd as [-> | ->]; reflexivity.
    + cbn [orb]. destruct (ch_eq c BOLD_MASK) eqn:E1.
      * destruct Hd as [-> | ->]; reflexivity.
      * destruct (ch_eq c ITALIC_MASK) eqn:E2.
        -- destruct Hd as [-> | ->]; reflexivity.
        -- cbn [count]. destruct Hd as [-> | ->]; rewrite ?E1, ?E2; reflexivity.
Qed.

End FormatterMore.

(** X7: on a text without underscore, star and placeholder character the
    formatter is a plain character-wise escape: every backslash and every
    reserved character gets one backslash in front, everything else is
    copied. *)
Theorem format_plain_text_escapes_each (text : str) :
  count UNDERSCORE text = 0 -> count STAR text = 0 ->
  count Formatter.BOLD_MASK text = 0 -> count Formatter.ITALIC_MASK text = 0 ->
  Formatter._escape_md_v2_preserving_formatting text
  = flat_map Formatter.escape_char text.
Proof.
  intros Hu Hs Hb Hi. rewrite FormatterFacts.format_by_char.
  unfold Formatter.normalize, Formatter.underscores_to_italic,
    Formatter.underscores_to_bold, Formatter.mask.
  rewrite !FormatterMore.span_pass_without_underscore
    by (rewrite ?FormatterMore.span_pass_without_underscore; assumption).
  rewrite !FormatterMore.replace_without_hit
    by (rewrite ?FormatterMore.replace_without_hit; assumption).
  apply FormatterMore.flat_map_agree. intros c Hc.
  unfold Formatter.output_of, Formatter.escape_char.
  rewrite (FormatterMore.count_zero_not_in _ _ Hb c Hc).
  rewrite (FormatterMore.count_zero_not_in _ _ Hi c Hc).
  destruct (ch_eq c BACKSLASH || Formatter.is_reserved c); reflexivity.
Qed.

(* "a.b!" becomes "a\.b\!" *)
Lemma format_plain_text_escapes_each_witness :
  count UNDERSCORE [97; 46; 98; 33]%N = 0
  /\ Formatter._escape_md_v2_preserving_formatting [97; 46; 98; 33]%N
     = [97; 92; 46; 98; 92; 33]%N.
Proof.
  split; [reflexivity|].
  apply (format_plain_text_escapes_each [97; 46; 98; 33]%N); reflexivity.
Defined.

(** X8: formatting never shortens a text and at most doubles its length. *)
Theorem format_length_bounds (text : str) :
  (len text <= len (Formatter._escape_md_v2_preserving_formatting text)
   <= 2 * len text)%Z.
Proof.
  rewrite FormatterFacts.format_by_char. unfold len.
  pose proof (FormatterMore.masked_output_length (Formatter.normalize text)) as H.
  rewrite FormatterMore.normalize_length in H. lia.
Qed.

(** X9: the placeholder characters never reach the output, not even when
    the input holds them. *)
Theorem format_leaves_no_placeholder (text : str) :
  count Formatter.BOLD_MASK (Formatter._escape_md_v2_preserving_formatting text) = 0
  /\ count Formatter.ITALIC_MASK
       (Formatter._escape_md_v2_preserving_formatting text) = 0.
Proof.
  rewrite FormatterFacts.format_by_char.
  assert (H : forall d u, d = Formatter.BOLD_MASK \/ d = Formatter.ITALIC_MASK ->
              count d (flat_map Formatter.output_of u) = 0).
  { intros d u Hd. induction u as [|c t IH]; [reflexivity|].
    cbn [flat_map]. rewrite FormatterFacts.count_app, IH.
    rewrite (FormatterMore.output_of_no_placeholder c d Hd). reflexivity. }
  split; apply H; auto.
Qed.

(** ** More on the truncator *)

Module TruncatorMore.
Import TextFacts Truncator TruncatorFacts.

(** The cut is never negative and never beyond [limit - 1], whatever the
    limit. *)
Lemma cut_index_range (text : str) (limit : Z) :
  (0 <= cut_index text limit <= Z.max 0 (limit - 1))%Z.
Proof.
  unfold cut_index.
  destruct (scan_safe text limit) as [H | (k & Hk & Hkl & _)].
  - rewrite H, Z.eqb_refl. cbn [negb]. lia.
  - rewrite Hk. destruct (Z.of_nat k =? -1)%Z eqn:E; cbn [negb]; lia.
Qed.

Lemma rstrip_no_trailing_space (p pre : str) (c : char) :
  rstrip p = pre ++ [c] -> isspace c = false.
Proof.
  revert pre. induction p as [|a t IH]; intros pre H.
  - destruct pre; discriminate H.
  - cbn [rstrip] in H. destruct (rstrip t) as [|r0 r] eqn:Er.
    + destruct (isspace a) eqn:Ea; [destruct pre; discriminate H|].
      destruct pre as [|x [|y pre]]; try discriminate H.
      inversion H; subst. exact Ea.
    + destruct pre as [|x pre]; [destruct r; discriminate H|].
      inversion H; subst. apply (IH pre). assumption.
Qed.

End TruncatorMore.

(** X10: a text longer than the limit comes back as one of its own prefixes
    followed by the ellipsis: nothing is rewritten or reordered.  The
    prefix has at most [limit - 1] characters and does not end in
    whitespace; with a limit of one or less only the ellipsis is left. *)
Theorem truncated_text_is_a_prefix (s : str) (limit : Z) :
  (len s > limit)%Z ->
  exists kept rest,
    Truncator._truncate_markdown_v2_safely s limit = kept ++ [ELLIPSIS]
    /\ s = kept ++ rest
    /\ (len kept <= Z.max 0 (limit - 1))%Z
    /\ (forall pre c, kept = pre ++ [c] -> isspace c = false)
    /\ ((limit <= 1)%Z -> kept = []).
Proof.
  intros Hlen. unfold Truncator._truncate_markdown_v2_safely.
  destruct (len s <=? limit)%Z eqn:E; [apply Z.leb_le in E; lia|].
  pose proof (TruncatorMore.cut_index_range s limit) as Hc.
  unfold slice_to.
  destruct (Truncator.cut_index s limit <? 0)%Z eqn:En;
    [apply Z.ltb_lt in En; lia|].
  set (k := Z.to_nat (Truncator.cut_index s limit)).
  destruct (TruncatorFacts.rstrip_split (firstn k s)) as (ws & Hws & _).
  assert (Hk : (len (rstrip (firstn k s)) <= Z.max 0 (limit - 1))%Z).
  { pose proof (TruncatorFacts.rstrip_length (firstn k s)) as H1.
    pose proof (firstn_le_length k s) as H2. unfold len. subst k. lia. }
  exists (rstrip (firstn k s)), (ws ++ skipn k s).
  split; [reflexivity|]. split.
  - rewrite app_assoc, <- Hws. symmetry. apply firstn_skipn.
  - split; [exact Hk|]. split.
    + intros pre c H. apply (TruncatorMore.rstrip_no_trailing_space _ _ _ H).
    + intros Hl. destruct (rstrip (firstn k s)) as [|c r]; [reflexivity|].
      unfold len in Hk. simpl in Hk. lia.
Qed.

Lemma truncated_text_is_a_prefix_witness :
  (len [97; 32; 98; 99; 100]%N > 3)%Z
  /\ exists kept rest,
       Truncator._truncate_markdown_v2_safely [97; 32; 98; 99; 100]%N 3
       = kept ++ [ELLIPSIS]
       /\ [97; 32; 98; 99; 100]%N = kept ++ rest.
Proof.
  assert (H : (len [97; 32; 98; 99; 100]%N > 3)%Z) by (unfold len; simpl; lia).
  split; [exact H|].
  destruct (truncated_text_is_a_prefix [97; 32; 98; 99; 100]%N 3 H)
    as (kept & rest & H1 & H2 & _).
  exists kept, rest. split; assumption.
Defined.

(** ** More on image selection *)

Module ImageSelectionMore.
Import Delivery ImageSelection.

Lemma load_from_loaded (lower : str -> str)
      (http_get : nat -> str -> http_result) (image_opens : list N -> bool)
      (urls : list str) :
  forall position u,
    In u (load_from lower http_get image_opens position urls) ->
    exists i, nth_error urls i = Some u
              /\ loads lower http_get image_opens (position + i) u = true.
Proof.
  induction urls as [|url rest IH]; intros position u H; [contradiction|].
  cbn [ImageSelection.load_from] in H.
  destruct (loads lower http_get image_opens position url) eqn:E.
  - destruct H as [-> | H].
    + exists 0. rewrite Nat.add_0_r. split; [reflexivity | exact E].
    + destruct (IH _ _ H) as (i & Hi & Hl). exists (S i).
      rewrite Nat.add_succ_r. split; assumption.
  - destruct (IH _ _ H) as (i & Hi & Hl). exists (S i).
    rewrite Nat.add_succ_r. split; assumption.
Qed.

Lemma loads_not_svg (lower : str -> str)
      (http_get : nat -> str -> http_result) (image_opens : list N -> bool)
      (position : nat) (url : str) :
  loads lower http_get image_opens position url = true ->
  endswith (lower url) DOT_SVG = false
  /\ exists header body,
       http_get position url = HttpResponse header body
       /\ contains SVG (lower header) = false /\ image_opens body = true.
Proof.
  unfold loads. destruct (http_get position url) as [|header body];
    [discriminate|]. cbv zeta.
  destruct (contains SVG (lower header)) eqn:E1; [discriminate|].
  destruct (endswith (lower url) DOT_SVG) eqn:E2; [discriminate|].
  cbn [orb]. intros H. split; [reflexivity|].
  exists header, body. repeat split; assumption.
Qed.

End ImageSelectionMore.

(** X11: a selected image is one of the first five candidates, was downloaded
    at its position without error, did not come with an SVG content type,
    was opened as an image, and its URL does not end in ".svg" in lower
    case. *)
Theorem selected_image_was_loaded
    (lower : str -> str) (is_digit : char -> bool) (digit_value : char -> Z)
    (http_get : nat -> str -> Delivery.http_result)
    (image_opens : list N -> bool)
    (generate_content : list str -> ImageSelection.rank_result)
    (image_urls : list str) (url : str) :
  ImageSelection.select_best_image lower is_digit digit_value http_get
    image_opens generate_content image_urls = Some url ->
  exists position header body,
    position < 5
    /\ nth_error image_urls position = Some url
    /\ http_get position url = Delivery.HttpResponse header body
    /\ contains SVG (lower header) = false
    /\ image_opens body = true
    /\ endswith (lower url) DOT_SVG = false.
Proof.
  intros H. unfold ImageSelection.select_best_image in H.
  destruct image_urls as [|u0 rest]; [discriminate H|].
  assert (Hvalid : In url (ImageSelection.valid_urls_for_model lower http_get
                             image_opens (u0 :: rest))).
  { destruct (ImageSelection.valid_urls_for_model lower http_get image_opens
                (u0 :: rest)) as [|v valid] eqn:Ev; [discriminate H|].
    destruct (generate_content (v :: valid)) as [|raw].
    - inversion H; subst. left. reflexivity.
    - destruct (ImageSelection.chosen is_digit digit_value (v :: valid) (strip raw))
        as [w|] eqn:Ec.
      + inversion H; subst.
        apply (ImageSelectionFacts.chosen_In is_digit digit_value _ _ _ Ec).
      + inversion H; subst. left. reflexivity. }
  apply ImageSelectionMore.load_from_loaded in Hvalid.
  destruct Hvalid as (i & Hi & Hl). cbn [Nat.add] in Hl.
  rewrite nth_error_firstn in Hi.
  destruct (i <? 5) eqn:E5; [|discriminate Hi]. apply Nat.ltb_lt in E5.
  destruct (ImageSelectionMore.loads_not_svg _ _ _ _ _ Hl)
    as (Hsvg & header & body & H1 & H2 & H3).
  exists i, header, body. repeat split; assumption.
Qed.

Lemma selected_image_was_loaded_witness :
  ImageSelection.select_best_image (fun s => s) ImageSelection.ascii_digit
    ImageSelection.ascii_digit_value ImageSelection.first_download_fails
    (fun _ => true) (fun _ => ImageSelection.RankRaises)
    [[117; 49]; [117; 50]]%N
  = Some [117; 50]%N
  /\ exists position,
       position < 5
       /\ nth_error [[117; 49]; [117; 50]]%N position = Some [117; 50]%N.
Proof.
  split; [reflexivity|].
  destruct (selected_image_was_loaded (fun s => s) ImageSelection.ascii_digit
              ImageSelection.ascii_digit_value ImageSelection.first_download_fails
              (fun _ => true) (fun _ => ImageSelection.RankRaises)
              [[117; 49]; [117; 50]]%N [117; 50]%N eq_refl)
    as (position & _ & _ & H1 & H2 & _).
  exists position. split; assumption.
Defined.

(** ** More on the schedule *)

(** X12: when the number of runs is positive and at most the number of
    minutes of the window, the scheduled times increase strictly from one
    run to the next, so no two runs share a time, and every run has its
    hour from [START_HOUR] on and before [END_HOUR] and its minute between
    0 and 59. *)
Theorem schedule_times_increase
    (randint : nat -> Z -> Z -> Z) (N START END : Z) :
  Scheduler.randint_in_range randint ->
  (0 < N <= Scheduler.total_minutes_in_range START END)%Z ->
  let jobs := Scheduler.schedule N START END randint in
  (forall i j, nth_error jobs i = Some j ->
     (START <= Scheduler.hour j < END /\ 0 <= Scheduler.minute j <= 59)%Z)
  /\ (forall i i' j j',
        nth_error jobs i = Some j -> nth_error jobs i' = Some j' -> i < i' ->
        (Scheduler.minute_of_day j < Scheduler.minute_of_day j')%Z).
Proof.
  intros Hr HN jobs.
  assert (Hjob : forall i j, nth_error jobs i = Some j ->
    let w := Scheduler.interval_minutes N START END in
    let m := Scheduler.scheduled_minute_abs N START END randint i in
    (Scheduler.minute_of_day j = START * 60 + m
     /\ Scheduler.hour j = START + m / 60
     /\ 0 <= Scheduler.minute j < 60
     /\ 1 <= w /\ N * w <= Scheduler.total_minutes_in_range START END
     /\ Z.of_nat i * w <= m < (Z.of_nat i + 1) * w
     /\ Z.of_nat i < N)%Z).
  { intros i j Hj w m. apply SchedulerFacts.schedule_nth in Hj.
    destruct Hj as [Hi ->].
    destruct (SchedulerFacts.scheduled_in_interval N START END randint i Hr HN)
      as (Hw & Htot & _ & _ & Hm).
    destruct (SchedulerFacts.minute_of_day_scheduled N START END randint i)
      as (Hday & Hmin).
    repeat split; try assumption; try lia; reflexivity. }
  split.
  - intros i j Hj. destruct (Hjob i j Hj) as (_ & Hh & Hmin & Hw & Htot & Hm & Hi).
    set (w := Scheduler.interval_minutes N START END) in *.
    set (m := Scheduler.scheduled_minute_abs N START END randint i) in *.
    assert (Hlast : ((Z.of_nat i + 1) * w <= N * w)%Z)
      by (apply Z.mul_le_mono_nonneg_r; lia).
    assert (Hm0 : (0 <= m)%Z) by nia.
    assert (Hdiv : (0 <= m / 60 < END - START)%Z).
    { split; [apply Z.div_pos; lia|].
      apply Z.div_lt_upper_bound; [lia|].
      unfold Scheduler.total_minutes_in_range in Htot. lia. }
    lia.
  - intros i i' j j' Hj Hj' Hlt.
    destruct (Hjob i j Hj) as (Hd & _ & _ & Hw & _ & Hm & _).
    destruct (Hjob i' j' Hj') as (Hd' & _ & _ & _ & _ & Hm' & _).
    set (w := Scheduler.interval_minutes N START END) in *.
    assert (Hstep : ((Z.of_nat i + 1) * w <= Z.of_nat i' * w)%Z)
      by (apply Z.mul_le_mono_nonneg_r; lia).
    lia.
Qed.

Lemma schedule_times_increase_witness :
  Scheduler.randint_in_range Scheduler.lowest_draw
  /\ (0 < 4 <= Scheduler.total_minutes_in_range 8 22)%Z
  /\ forall i j,
       nth_error (Scheduler.schedule 4 8 22 Scheduler.lowest_draw) i = Some j ->
       (8 <= Scheduler.hour j < 22 /\ 0 <= Scheduler.minute j <= 59)%Z.
Proof.
  assert (Hr : Scheduler.randint_in_range Scheduler.lowest_draw)
    by (intros i a b Hab; unfold Scheduler.lowest_draw; lia).
  assert (HN : (0 < 4 <= Scheduler.total_minutes_in_range 8 22)%Z)
    by (vm_compute; split; congruence).
  split; [exact Hr|]. split; [exact HN|].
  apply (schedule_times_increase Scheduler.lowest_draw 4 8 22 Hr HN).
Defined.

(** ** Post generation *)

Module PostGenerationFacts.
Import TextFacts PostGeneration.
#[local] Arguments ch_eq : simpl never.

Lemma fence_match_consumes (line_start : bool) (s rest : str) (starts : bool) :
  fence_match line_start s = Some (rest, starts) -> length rest < length s.
Proof.
  unfold fence_match.
  destruct (strip_prefix FENCE s) as [after|] eqn:E; [|discriminate].
  apply strip_prefix_length in E. change (length FENCE) with 3 in E.
  assert (Hopen : forall r,
    (if line_start then
       match strip_prefix MARKDOWN after with
       | Some (c :: rest0) => if ch_eq c NEWLINE then Some rest0 else None
       | Some [] => None
       | None =>
           match after with
           | c :: rest0 => if ch_eq c NEWLINE then Some rest0 else None
           | [] => None
           end
       end
     else None) = Some r -> length r <= length after).
  { intros r. destruct line_start; [|discriminate].
    destruct (strip_prefix MARKDOWN after) as [[|c rest0]|] eqn:Em.
    - discriminate.
    - apply strip_prefix_length in Em.
      destruct (ch_eq c NEWLINE); [|discriminate].
      intros H. inversion H; subst. simpl in Em. lia.
    - destruct after as [|c rest0]; [discriminate|].
      destruct (ch_eq c NEWLINE); [|discriminate].
      intros H. inversion H; subst. simpl. lia. }
  cbv zeta.
  destruct (if line_start then _ else None) as [r|] eqn:Eo.
  - intros H. inversion H; subst. specialize (Hopen _ eq_refl). lia.
  - destruct after as [|c t].
    + intros H. inversion H; subst. simpl. lia.
    + destruct (ch_eq c NEWLINE); [|discriminate].
      intros H. inversion H; subst. lia.
Qed.

(** The fuel [len(text)] is enough. *)
Lemma remove_fences_fuel_enough (n : nat) :
  forall line_start s, length s <= n ->
    remove_fences_fuel n line_start s
    = remove_fences_fuel (length s) line_start s.
Proof.
  induction n as [n IH] using lt_wf_ind. intros line_start s Hs.
  destruct n as [|n].
  - destruct s; [reflexivity | simpl in Hs; lia].
  - destruct s as [|c t].
    + simpl. destruct (fence_match line_start []) as [[rest b]|] eqn:E;
        [|reflexivity].
      apply fence_match_consumes in E. simpl in E. lia.
    + cbn [remove_fences_fuel length].
      destruct (fence_match line_start (c :: t)) as [[rest b]|] eqn:E.
      * pose proof (fence_match_consumes _ _ _ _ E) as Hlt. simpl in Hlt, Hs.
        rewrite (IH n) by lia. rewrite (IH (length t)) by lia. reflexivity.
      * simpl in Hs. rewrite (IH n) by lia. reflexivity.
Qed.

Lemma fence_match_needs_backtick (line_start : bool) (s : str) :
  count BACKTICK s = 0 -> fence_match line_start s = None.
Proof.
  intros H. unfold fence_match, FENCE.
  destruct s as [|b s]; [reflexivity|]. cbn [count strip_prefix] in *.
  rewrite (ch_eq_sym BACKTICK b). destruct (ch_eq b BACKTICK);
    [discriminate | reflexivity].
Qed.

(** A text without backtick has no fence to remove. *)
Lemma remove_fences_without_backtick (s : str) :
  count BACKTICK s = 0 ->
  forall line_start, remove_fences_fuel (length s) line_start s = s.
Proof.
  induction s as [|c t IH]; intros Hc line_start; [reflexivity|].
  cbn [length remove_fences_fuel].
  rewrite (fence_match_needs_backtick _ _ Hc).
  cbn [count] in Hc. rewrite IH by lia. reflexivity.
Qed.

(** The body of a fenced answer, up to the closing fence. *)
Lemma remove_closing_fence (body : str) :
  count BACKTICK body = 0 ->
  forall line_start,
    remove_fences_fuel (length (body ++ NEWLINE :: FENCE)) line_start
      (body ++ NEWLINE :: FENCE)
    = body ++ [NEWLINE].
Proof.
  induction body as [|c t IH]; intros Hc line_start.
  - reflexivity.
  - cbn [app length remove_fences_fuel].
    assert (Hm : fence_match line_start (c :: t ++ NEWLINE :: FENCE) = None).
    { unfold fence_match, FENCE. cbn [strip_prefix]. cbn [count] in Hc.
      rewrite (ch_eq_sym BACKTICK c).
      destruct (ch_eq c BACKTICK); [discriminate Hc | reflexivity]. }
    rewrite Hm. cbn [count] in Hc. rewrite IH by lia. reflexivity.
Qed.

Lemma remove_fences_fenced (word body : str) :
  word = [] \/ word = MARKDOWN -> count BACKTICK body = 0 ->
  remove_fences (FENCE ++ word ++ [NEWLINE] ++ body ++ [NEWLINE] ++ FENCE)
  = body ++ [NEWLINE].
Proof.
  intros Hw Hb. unfold remove_fences.
  assert (Hm : fence_match true
                 (FENCE ++ word ++ [NEWLINE] ++ body ++ [NEWLINE] ++ FENCE)
               = Some (body ++ NEWLINE :: FENCE, true))
    by (destruct Hw as [-> | ->]; reflexivity).
  set (text := FENCE ++ word ++ [NEWLINE] ++ body ++ [NEWLINE] ++ FENCE) in *.
  destruct (length text) as [|n] eqn:En.
  - destruct Hw as [-> | ->]; discriminate En.
  - cbn [remove_fences_fuel]. rewrite Hm.
    pose proof (fence_match_consumes _ _ _ _ Hm) as Hlt.
    rewrite remove_fences_fuel_enough by lia.
    apply remove_closing_fence, Hb.
Qed.

Lemma lstrip_head (s : str) (c : char) (rest : str) :
  lstrip s = c :: rest -> isspace c = false.
Proof.
  induction s as [|a t IH]; [discriminate|]. cbn [lstrip].
  destruct (isspace a) eqn:Ea; [exact IH|].
  intros H. inversion H; subst. exact Ea.
Qed.

Lemma strip_head (s : str) (c : char) (rest : str) :
  strip s = c :: rest -> isspace c = false.
Proof.
  unfold strip. intros H.
  destruct (TruncatorFacts.rstrip_split (lstrip s)) as (ws & Hs & _).
  rewrite H in Hs. cbn [app] in Hs. apply (lstrip_head _ _ _ Hs).
Qed.

Lemma rstrip_app_space (x : str) (w : char) :
  isspace w = true -> rstrip (x ++ [w]) = rstrip x.
Proof.
  intros Hw. induction x as [|a t IH].
  - cbn [app rstrip]. rewrite Hw. reflexivity.
  - cbn [app rstrip]. rewrite IH. reflexivity.
Qed.

Lemma lstrip_app_space (b : str) (w : char) :
  isspace w = true ->
  lstrip (b ++ [w]) = match lstrip b with [] => [] | _ :: _ => lstrip b ++ [w] end.
Proof.
  intros Hw. induction b as [|a t IH].
  - cbn [app lstrip]. rewrite Hw. reflexivity.
  - cbn [app lstrip]. destruct (isspace a); [exact IH | reflexivity].
Qed.

(** Whitespace appended to a text is stripped with the rest. *)
Lemma strip_app_space (b : str) (w : char) :
  isspace w = true -> strip (b ++ [w]) = strip b.
Proof.
  intros Hw. unfold strip. rewrite (lstrip_app_space _ _ Hw).
  destruct (lstrip b) as [|c r]; [reflexivity|].
  apply rstrip_app_space, Hw.
Qed.

End PostGenerationFacts.

(** X13: a post is generated only for an article of at least 100 characters
    once stripped, and only from an answer of the model; it is that answer
    without its fences, and it neither starts nor ends with whitespace. *)
Theorem generated_post_is_clean
    (prompt_of : str -> option str)
    (generate_content : str -> PostGeneration.generation)
    (article_text post : str) :
  PostGeneration.generate_news_post prompt_of generate_content article_text
  = Some post ->
  (100 <= len (strip article_text))%Z
  /\ (exists prompt answer,
        prompt_of article_text = Some prompt
        /\ generate_content prompt = PostGeneration.Generated answer
        /\ post = strip (PostGeneration.remove_fences answer))
  /\ (forall c rest, post = c :: rest -> isspace c = false)
  /\ (forall pre c, post = pre ++ [c] -> isspace c = false).
Proof.
  unfold PostGeneration.generate_news_post. intros H.
  destruct (match article_text with [] => true | _ :: _ => false end
            || (len (strip article_text) <? 100)%Z) eqn:Eg; [discriminate H|].
  apply orb_false_elim in Eg. destruct Eg as [_ Eg]. apply Z.ltb_ge in Eg.
  destruct (prompt_of article_text) as [prompt|] eqn:Ep; [|discriminate H].
  destruct (generate_content prompt) as [|answer] eqn:Ea; [discriminate H|].
  inversion H; subst post. split; [exact Eg|]. split.
  - exists prompt, answer. repeat split; assumption.
  - split.
    + intros c rest Hc. apply (PostGenerationFacts.strip_head _ _ _ Hc).
    + intros pre c Hc. unfold strip in Hc.
      apply (TruncatorMore.rstrip_no_trailing_space _ _ _ Hc).
Qed.

Lemma generated_post_is_clean_witness :
  let generate := fun _ : str => PostGeneration.Generated [32; 104; 105; 10]%N in
  PostGeneration.generate_news_post (fun t => Some t) generate (repeat 97%N 100)
  = Some [104; 105]%N
  /\ (100 <= len (strip (repeat 97%N 100)))%Z.
Proof.
  intros generate.
  assert (H : PostGeneration.generate_news_post (fun t => Some t) generate
                (repeat 97%N 100) = Some [104; 105]%N) by (vm_compute; reflexivity).
  split; [exact H|].
  apply (generated_post_is_clean (fun t => Some t) generate (repeat 97%N 100)
           [104; 105]%N H).
Defined.

(** X14: for an article that is long enough, an answer without backtick is
    returned stripped, and an answer wrapped in a fence, with or without
    the word "markdown" after the opening fence, is returned as its
    stripped body. *)
Theorem answer_fences_are_removed
    (prompt_of : str -> option str)
    (generate_content : str -> PostGeneration.generation)
    (article_text prompt answer : str) :
  (100 <= len (strip article_text))%Z ->
  prompt_of article_text = Some prompt ->
  generate_content prompt = PostGeneration.Generated answer ->
  let post :=
    PostGeneration.generate_news_post prompt_of generate_content article_text in
  (count BACKTICK answer = 0 -> post = Some (strip answer))
  /\ (forall word body,
        word = [] \/ word = PostGeneration.MARKDOWN ->
        count BACKTICK body = 0 ->
        answer = PostGeneration.FENCE ++ word ++ [NEWLINE] ++ body
                 ++ [NEWLINE] ++ PostGeneration.FENCE ->
        post = Some (strip body)).
Proof.
  intros Hlen Hp Ha post. subst post.
  unfold PostGeneration.generate_news_post.
  assert (Hg : match article_text with [] => true | _ :: _ => false end
               || (len (strip article_text) <? 100)%Z = false).
  { destruct article_text as [|c t]; [cbn in Hlen; lia|].
    cbn [orb]. apply Z.ltb_ge. exact Hlen. }
  rewrite Hg, Hp, Ha. split.
  - intros Hc. unfold PostGeneration.remove_fences.
    rewrite PostGenerationFacts.remove_fences_without_backtick by exact Hc.
    reflexivity.
  - intros word body Hw Hb ->.
    rewrite PostGenerationFacts.remove_fences_fenced by assumption.
    rewrite PostGenerationFacts.strip_app_space by reflexivity. reflexivity.
Qed.

(* the answer "```markdown\nhi\n```" gives "hi" *)
Lemma answer_fences_are_removed_witness :
  let answer :=
    PostGeneration.FENCE ++ PostGeneration.MARKDOWN ++ [NEWLINE]
      ++ [104; 105]%N ++ [NEWLINE] ++ PostGeneration.FENCE in
  (100 <= len (strip (repeat 97%N 100)))%Z
  /\ PostGeneration.generate_news_post (fun t => Some t)
       (fun _ => PostGeneration.Generated answer) (repeat 97%N 100)
     = Some [104; 105]%N.
Proof.
  intros answer.
  assert (Hlen : (100 <= len (strip (repeat 97%N 100)))%Z)
    by (vm_compute; congruence).
  split; [exact Hlen|].
  destruct (answer_fences_are_removed (fun t => Some t)
              (fun _ => PostGeneration.Generated answer) (repeat 97%N 100)
              (repeat 97%N 100) answer Hlen eq_refl eq_refl) as [_ H].
  apply (H PostGeneration.MARKDOWN [104; 105]%N); auto.
Defined.

(** ** The file of published URLs and the feed reader *)

Module DataFetcherFacts.
Import TextFacts DataFetcher.
#[local] Arguments ch_eq : simpl never.

Lemma str_eqb_eq (a b : str) : Truncator.str_eqb a b = true <-> a = b.
Proof.
  revert b. induction a as [|x a IH]; intros [|y b]; cbn [Truncator.str_eqb];
    try (split; [discriminate | discriminate]); [split; reflexivity|].
  rewrite andb_true_iff, ch_eq_true, IH. split.
  - intros [-> ->]. reflexivity.
  - intros H. inversion H. split; reflexivity.
Qed.

Lemma member_In (x : str) (l : list str) : member x l = true <-> In x l.
Proof.
  unfold member. rewrite existsb_exists. split.
  - intros (y & Hy & E). apply str_eqb_eq in E. subst. exact Hy.
  - intros H. exists x. split; [exact H | apply str_eqb_eq; reflexivity].
Qed.

Lemma member_app (x : str) (a b : list str) :
  member x (a ++ b) = member x a || member x b.
Proof. unfold member. apply existsb_app. Qed.

(** The tail of a text made of whole lines. *)
Lemma ends_lines_tail (c : char) (t : str) :
  ends_lines (c :: t) -> (t = [] /\ c = NEWLINE) \/ (t <> [] /\ ends_lines t).
Proof.
  intros [H | [body H]]; [discriminate H|].
  destruct body as [|b body]; cbn [app] in H; inversion H; subst.
  - left. split; reflexivity.
  - right. split; [destruct body; discriminate|]. right. exists body. reflexivity.
Qed.

Lemma ends_lines_cons (c : char) (t : str) :
  t <> [] -> ends_lines t -> ends_lines (c :: t).
Proof.
  intros Hne [H | [body H]]; [contradiction|].
  right. exists (c :: body). rewrite H. reflexivity.
Qed.

Lemma ends_lines_app (a b : str) : ends_lines b -> b <> [] -> ends_lines (a ++ b).
Proof.
  intros [H | [body H]] Hne; [contradiction|].
  right. exists (a ++ body). rewrite H, app_assoc. reflexivity.
Qed.

(** Newline translation works line by line on a text of whole lines. *)
Lemma universal_newlines_app (a b : str) :
  ends_lines a ->
  universal_newlines (a ++ b) = universal_newlines a ++ universal_newlines b
  /\ ends_lines (universal_newlines a).
Proof.
  remember (length a) as n eqn:Hn. revert a Hn.
  induction n as [n IH] using lt_wf_ind. intros a Hn Ha.
  destruct a as [|c t]; [split; [reflexivity | left; reflexivity]|].
  destruct (ends_lines_tail _ _ Ha) as [[-> ->] | [Hne Ht]].
  - split; [reflexivity | right; exists []; reflexivity].
  - cbn [app universal_newlines]. destruct (ch_eq c CR) eqn:Ec.
    + destruct t as [|d t']; [contradiction|]. cbn [app].
      destruct (ch_eq d NEWLINE) eqn:Ed.
      * assert (Ht' : ends_lines t').
        { destruct (ends_lines_tail _ _ Ht) as [[-> _] | [_ H]];
            [left; reflexivity | exact H]. }
        destruct (IH (length t')) with (a := t') as [H1 H2];
          [subst n; simpl; lia | reflexivity | exact Ht' |].
        rewrite H1. split; [reflexivity|].
        destruct (universal_newlines t') as [|x r] eqn:Eu.
        -- right. exists []. reflexivity.
        -- apply ends_lines_cons; [discriminate | exact H2].
      * destruct (IH (length (d :: t'))) with (a := d :: t') as [H1 H2];
          [subst n; simpl; lia | reflexivity | exact Ht |].
        cbn [app] in H1. rewrite H1. split; [reflexivity|].
        destruct (universal_newlines (d :: t')) as [|x r] eqn:Eu.
        -- right. exists []. reflexivity.
        -- apply ends_lines_cons; [discriminate | exact H2].
    + destruct (IH (length t)) with (a := t) as [H1 H2];
        [subst n; simpl; lia | reflexivity | exact Ht |].
      rewrite H1. split; [reflexivity|].
      destruct (universal_newlines t) as [|x r] eqn:Eu.
      * exfalso. destruct t as [|d t']; [contradiction|].
        cbn [universal_newlines] in Eu. destruct (ch_eq d CR); discriminate Eu.
      * apply ends_lines_cons; [discriminate | exact H2].
Qed.

Lemma lines_nonempty (s : str) : s <> [] -> lines s <> [].
Proof.
  destruct s as [|c t]; [contradiction|]. intros _. cbn [lines].
  destruct (ch_eq c NEWLINE); [discriminate|].
  destruct (lines t); discriminate.
Qed.

(** The lines of two texts put together, the first made of whole lines. *)
Lemma lines_app (a b : str) :
  ends_lines a -> lines (a ++ b) = lines a ++ lines b.
Proof.
  induction a as [|c t IH]; intros Ha; [reflexivity|].
  destruct (ends_lines_tail _ _ Ha) as [[-> ->] | [Hne Ht]]; [reflexivity|].
  cbn [app lines]. rewrite (IH Ht). destruct (ch_eq c NEWLINE); [reflexivity|].
  pose proof (lines_nonempty t Hne) as Hl.
  destruct (lines t) as [|l ls]; [contradiction | reflexivity].
Qed.

Lemma lines_one (url : str) :
  count NEWLINE url = 0 -> lines (url ++ [NEWLINE]) = [url ++ [NEWLINE]].
Proof.
  induction url as [|c t IH]; intros H; [reflexivity|].
  cbn [count] in H. cbn [app lines].
  destruct (ch_eq c NEWLINE) eqn:Ec; [discriminate H|].
  rewrite IH by lia. reflexivity.
Qed.

(** What is written for a one-line URL reads back as the URL and a
    newline. *)
Lemma written_reads_back (linesep url : str) :
  known_linesep linesep ->
  count NEWLINE url = 0 -> count CR url = 0 ->
  universal_newlines (written linesep (url ++ [NEWLINE])) = url ++ [NEWLINE]
  /\ ends_lines (written linesep (url ++ [NEWLINE]))
  /\ written linesep (url ++ [NEWLINE]) <> [].
Proof.
  intros Hl Hn Hc. unfold written. rewrite flat_map_app.
  cbn [flat_map]. rewrite app_nil_r.
  change (ch_eq NEWLINE NEWLINE) with true. cbv iota.
  assert (Hu : flat_map (fun c => if ch_eq c NEWLINE then linesep else [c]) url
               = url).
  { clear Hc. induction url as [|c t IH]; [reflexivity|].
    cbn [count] in Hn. cbn [flat_map].
    destruct (ch_eq c NEWLINE); [discriminate Hn|].
    rewrite IH by lia. reflexivity. }
  rewrite Hu. split; [|split].
  - clear Hu Hn. induction url as [|c t IH].
    + destruct Hl as [-> | ->]; reflexivity.
    + cbn [count] in Hc. cbn [app universal_newlines].
      destruct (ch_eq c CR); [discriminate Hc|].
      rewrite IH by lia. reflexivity.
  - right. destruct Hl as [-> | ->]; [exists url | exists (url ++ [CR])];
      [reflexivity | rewrite <- app_assoc; reflexivity].
  - destruct Hl as [-> | ->]; destruct url; discriminate.
Qed.

(** What the scan of one feed finds is the first entry whose link is not
    published; all entries before it have published links. *)
Lemma scan_entries_found (published : list str) (entries : list entry)
      (t url : str) :
  scan_entries published entries = Found t url ->
  member url published = false
  /\ exists before e after,
       entries = before ++ e :: after
       /\ link e = Some url /\ title e = Some t
       /\ forall e', In e' before ->
            exists u, link e' = Some u /\ member u published = true.
Proof.
  induction entries as [|e rest IH]; [discriminate|]. cbn [scan_entries].
  destruct (link e) as [u|] eqn:El; [|discriminate].
  destruct (member u published) eqn:Em; cbn [negb].
  - intros H. destruct (IH H) as (Hm & before & e0 & after & -> & H1 & H2 & H3).
    split; [exact Hm|]. exists (e :: before), e0, after.
    repeat split; try assumption.
    intros e' [<- | He']; [exists u; split; assumption | apply H3, He'].
  - destruct (title e) as [t0|] eqn:Et; [|discriminate].
    intros H. inversion H; subst. split; [exact Em|].
    exists [], e, rest. repeat split; try assumption. intros e' [].
Qed.

Lemma scan_entries_exhausted (published : list str) (entries : list entry) :
  (forall e, In e entries -> link e <> None /\ title e <> None) ->
  scan_entries published entries <> Broken
  /\ (scan_entries published entries = Exhausted ->
      forall e, In e entries ->
        exists u, link e = Some u /\ member u published = true).
Proof.
  induction entries as [|e rest IH]; intros Hall.
  - split; [discriminate | intros _ e []].
  - cbn [scan_entries].
    destruct (Hall e (or_introl eq_refl)) as [Hl Ht].
    destruct (link e) as [u|] eqn:El; [|contradiction].
    destruct (title e) as [t0|] eqn:Et; [|contradiction].
    destruct (member u published) eqn:Em; cbn [negb].
    + destruct IH as [H1 H2]; [intros e' He'; apply Hall; right; exact He'|].
      split; [exact H1|]. intros H e' [<- | He'].
      * exists u. rewrite El. split; [reflexivity | exact Em].
      * apply H2; assumption.
    + split; discriminate.
Qed.

Lemma scan_feeds_found (published : list str) (feeds : list feed_result)
      (t url : str) :
  scan_feeds published feeds = Some (t, url) ->
  exists entries,
    In (Parsed false entries) feeds
    /\ scan_entries published entries = Found t url.
Proof.
  induction feeds as [|f rest IH]; [discriminate|]. cbn [scan_feeds].
  destruct f as [|bozo entries].
  - intros H. destruct (IH H) as (en & H1 & H2). exists en. split; [right|]; assumption.
  - destruct bozo.
    + intros H. destruct (IH H) as (en & H1 & H2). exists en.
      split; [right|]; assumption.
    + destruct (scan_entries published entries) as [t0 u0| |] eqn:Es.
      * intros H. inversion H; subst. exists entries.
        split; [left; reflexivity | exact Es].
      * intros H. destruct (IH H) as (en & H1 & H2). exists en.
        split; [right|]; assumption.
      * intros H. destruct (IH H) as (en & H1 & H2). exists en.
        split; [right|]; assumption.
Qed.

Lemma scan_feeds_none (published : list str) (feeds : list feed_result) :
  scan_feeds published feeds = None ->
  forall entries, In (Parsed false entries) feeds ->
    scan_entries published entries = Exhausted
    \/ scan_entries published entries = Broken.
Proof.
  induction feeds as [|f rest IH]; intros H entries Hin; [contradiction|].
  cbn [scan_feeds] in H. destruct f as [|bozo en].
  - destruct Hin as [Hin | Hin]; [discriminate Hin | apply IH; assumption].
  - destruct bozo.
    + destruct Hin as [Hin | Hin]; [discriminate Hin | apply IH; assumption].
    + destruct (scan_entries published en) as [t0 u0| |] eqn:Es;
        [discriminate H | |];
        (destruct Hin as [Hin | Hin];
         [inversion Hin; subst; rewrite Es; auto | apply IH; assumption]).
Qed.

End DataFetcherFacts.

(** Adding then loading. *)
Lemma url_is_loaded_after_add (linesep : str) (f : DataFetcher.file)
      (url : str) :
  DataFetcher.known_linesep linesep ->
  match f with None => True | Some content => DataFetcher.ends_lines content end ->
  DataFetcher.one_line url ->
  let f' := DataFetcher.add_url_to_published linesep f DataFetcher.Written url in
  DataFetcher.load_published_urls f' false
  = DataFetcher.load_published_urls f false ++ [url]
  /\ DataFetcher.member url (DataFetcher.load_published_urls f' false) = true
  /\ match f' with None => False | Some content => DataFetcher.ends_lines content end.
Proof.
  intros Hl Hf (Hn & Hc & Hs) f'.
  destruct (DataFetcherFacts.written_reads_back linesep url Hl Hn Hc)
    as (Hback & Hends & Hne).
  set (before := match f with None => [] | Some content => content end).
  assert (Hb : DataFetcher.ends_lines before)
    by (subst before; destruct f; [exact Hf | left; reflexivity]).
  assert (Hload : DataFetcher.load_published_urls f false
                  = map strip (DataFetcher.lines
                                 (DataFetcher.universal_newlines before)))
    by (subst before; destruct f; reflexivity).
  assert (Hnew : DataFetcher.load_published_urls f' false
                 = DataFetcher.load_published_urls f false ++ [url]).
  { subst f'. unfold DataFetcher.add_url_to_published. fold before.
    cbn [DataFetcher.load_published_urls]. rewrite Hload.
    destruct (DataFetcherFacts.universal_newlines_app before
                (DataFetcher.written linesep (url ++ [NEWLINE])) Hb) as [H1 H2].
    rewrite H1, Hback, (DataFetcherFacts.lines_app _ _ H2), map_app.
    rewrite (DataFetcherFacts.lines_one _ Hn). cbn [map].
    rewrite PostGenerationFacts.strip_app_space by reflexivity.
    rewrite Hs. reflexivity. }
  split; [exact Hnew|]. split.
  - rewrite Hnew, DataFetcherFacts.member_app.
    assert (Hm : DataFetcher.member url [url] = true)
      by (apply DataFetcherFacts.member_In; left; reflexivity).
    rewrite Hm. apply orb_true_r.
  - subst f'. cbn [DataFetcher.add_url_to_published]. fold before.
    apply DataFetcherFacts.ends_lines_app; assumption.
Qed.

(** X15: where the line separator is "\n" or "\r\n", a URL that holds
    no line feed and no carriage return and has no whitespace at either
    end, written without error to a file made of whole lines (or to no
    file), is in the set that is loaded afterwards without error: the
    loaded URLs are the former ones followed by the new one, and the file
    is again made of whole lines. *)
Theorem published_url_round_trip (linesep : str) (f : DataFetcher.file)
        (url : str) :
  DataFetcher.known_linesep linesep ->
  match f with None => True | Some content => DataFetcher.ends_lines content end ->
  DataFetcher.one_line url ->
  let f' := DataFetcher.add_url_to_published linesep f DataFetcher.Written url in
  DataFetcher.load_published_urls f' false
  = DataFetcher.load_published_urls f false ++ [url]
  /\ DataFetcher.member url (DataFetcher.load_published_urls f' false) = true
  /\ match f' with None => False | Some content => DataFetcher.ends_lines content end.
Proof. exact (url_is_loaded_after_add linesep f url). Qed.

Lemma published_url_round_trip_witness :
  DataFetcher.known_linesep [NEWLINE]
  /\ DataFetcher.one_line [117; 49]%N
  /\ DataFetcher.load_published_urls
       (DataFetcher.add_url_to_published [NEWLINE] (Some [117; 48; 10]%N)
          DataFetcher.Written [117; 49]%N) false
     = [[117; 48]; [117; 49]]%N.
Proof.
  assert (Hl : DataFetcher.known_linesep [NEWLINE]) by (left; reflexivity).
  assert (Hu : DataFetcher.one_line [117; 49]%N) by (repeat split).
  assert (Hf : DataFetcher.ends_lines [117; 48; 10]%N)
    by (right; exists [117; 48]%N; reflexivity).
  split; [exact Hl|]. split; [exact Hu|].
  apply (published_url_round_trip [NEWLINE] (Some [117; 48; 10]%N)
           [117; 49]%N Hl Hf Hu).
Defined.

(** What the feed reader returns, and what it means when it returns
    nothing. *)
Lemma reader_finds_first_unpublished
    (linesep : str) (f : DataFetcher.file) (read_raises : bool)
    (w : DataFetcher.write_outcome) (feeds : list DataFetcher.feed_result) :
  let published := DataFetcher.load_published_urls f read_raises in
  let result :=
    DataFetcher.get_latest_news_from_rss linesep f read_raises w feeds in
  (forall t url, fst result = Some (t, url) ->
     DataFetcher.member url published = false
     /\ snd result = DataFetcher.add_url_to_published linesep f w url
     /\ exists entries before e after,
          In (DataFetcher.Parsed false entries) feeds
          /\ entries = before ++ e :: after
          /\ DataFetcher.link e = Some url /\ DataFetcher.title e = Some t
          /\ forall e', In e' before ->
               exists u, DataFetcher.link e' = Some u
                         /\ DataFetcher.member u published = true)
  /\ (fst result = None ->
      snd result = f
      /\ forall entries,
           In (DataFetcher.Parsed false entries) feeds ->
           (forall e, In e entries ->
              DataFetcher.link e <> None /\ DataFetcher.title e <> None) ->
           forall e, In e entries ->
             exists u, DataFetcher.link e = Some u
                       /\ DataFetcher.member u published = true).
Proof.
  intros published result. subst result.
  unfold DataFetcher.get_latest_news_from_rss. fold published.
  destruct (DataFetcher.scan_feeds published feeds) as [[t0 u0]|] eqn:Es;
    cbn [fst snd]; split.
  - intros t url H. inversion H; subst.
    destruct (DataFetcherFacts.scan_feeds_found _ _ _ _ Es) as (entries & Hin & Hf).
    destruct (DataFetcherFacts.scan_entries_found _ _ _ _ Hf)
      as (Hm & before & e & after & He & H1 & H2 & H3).
    split; [exact Hm|]. split; [reflexivity|].
    exists entries, before, e, after. repeat split; assumption.
  - discriminate.
  - discriminate.
  - intros _. split; [reflexivity|]. intros entries Hin Hall e He.
    destruct (DataFetcherFacts.scan_entries_exhausted published entries Hall)
      as [Hnb Hex].
    destruct (DataFetcherFacts.scan_feeds_none _ _ Es entries Hin) as [H | H];
      [apply Hex; assumption | contradiction].
Qed.

(** X16: the article returned by the feed reader is the first entry, of a
    well-formed feed, whose link is not among the published URLs: its link
    is not published, the entries before it in its feed have published
    links, and its title is returned with it.  When nothing is returned the
    file is left as it was, and every well-formed feed whose entries all
    have a link and a title has only published links. *)
Theorem feed_reader_returns_first_unpublished
    (linesep : str) (f : DataFetcher.file) (read_raises : bool)
    (w : DataFetcher.write_outcome) (feeds : list DataFetcher.feed_result) :
  let published := DataFetcher.load_published_urls f read_raises in
  let result :=
    DataFetcher.get_latest_news_from_rss linesep f read_raises w feeds in
  (forall t url, fst result = Some (t, url) ->
     DataFetcher.member url published = false
     /\ snd result = DataFetcher.add_url_to_published linesep f w url
     /\ exists entries before e after,
          In (DataFetcher.Parsed false entries) feeds
          /\ entries = before ++ e :: after
          /\ DataFetcher.link e = Some url /\ DataFetcher.title e = Some t
          /\ forall e', In e' before ->
               exists u, DataFetcher.link e' = Some u
                         /\ DataFetcher.member u published = true)
  /\ (fst result = None ->
      snd result = f
      /\ forall entries,
           In (DataFetcher.Parsed false entries) feeds ->
           (forall e, In e entries ->
              DataFetcher.link e <> None /\ DataFetcher.title e <> None) ->
           forall e, In e entries ->
             exists u, DataFetcher.link e = Some u
                       /\ DataFetcher.member u published = true).
Proof. exact (reader_finds_first_unpublished linesep f read_raises w feeds). Qed.

(* with "u1" published, the feed of "u1" and "u2" gives "u2" *)
Lemma feed_reader_returns_first_unpublished_witness :
  let e1 := {| DataFetcher.link := Some [117; 49]%N;
               DataFetcher.title := Some [116]%N |} in
  let e2 := {| DataFetcher.link := Some [117; 50]%N;
               DataFetcher.title := Some [118]%N |} in
  let f := Some [117; 49; 10]%N in
  let result := DataFetcher.get_latest_news_from_rss [NEWLINE] f false
                  DataFetcher.Written [DataFetcher.Parsed false [e1; e2]] in
  fst result = Some ([118]%N, [117; 50]%N)
  /\ DataFetcher.member [117; 50]%N (DataFetcher.load_published_urls f false)
     = false
  /\ snd result = Some [117; 49; 10; 117; 50; 10]%N.
Proof.
  intros e1 e2 f result.
  assert (H : fst result = Some ([118]%N, [117; 50]%N)) by reflexivity.
  split; [exact H|].
  destruct (feed_reader_returns_first_unpublished [NEWLINE] f false
              DataFetcher.Written [DataFetcher.Parsed false [e1; e2]])
    as [Hfound _].
  destruct (Hfound _ _ H) as (H1 & H2 & _).
  split; [exact H1 | exact H2].
Defined.

(** X17: an article that was returned and written to the file without
    error is never returned again, whatever the feeds hold later and
    whether or not the later write succeeds, provided that the line
    separator is "\n" or "\r\n", the file was made of whole lines (or
    absent) and is read without error both times, and the URL holds no
    line feed and no carriage return and has no whitespace at either end.
    (A URL with whitespace around it is returned again:
    [padded_link_is_returned_again].) *)
Theorem returned_article_is_not_returned_again
    (linesep : str) (f : DataFetcher.file)
    (feeds later_feeds : list DataFetcher.feed_result)
    (w' : DataFetcher.write_outcome) (t url : str) :
  DataFetcher.known_linesep linesep ->
  match f with None => True | Some content => DataFetcher.ends_lines content end ->
  fst (DataFetcher.get_latest_news_from_rss linesep f false
         DataFetcher.Written feeds) = Some (t, url) ->
  DataFetcher.one_line url ->
  let f' := snd (DataFetcher.get_latest_news_from_rss linesep f false
                   DataFetcher.Written feeds) in
  forall t' url',
    fst (DataFetcher.get_latest_news_from_rss linesep f' false w' later_feeds)
    = Some (t', url') ->
    url' <> url.
Proof.
  intros Hl Hf Hfound Hu f' t' url' Hagain.
  destruct (reader_finds_first_unpublished linesep f false
              DataFetcher.Written feeds) as [H1 _].
  destruct (H1 t url Hfound) as (_ & Hfile & _).
  destruct (reader_finds_first_unpublished linesep f' false w'
              later_feeds) as [H2 _].
  destruct (H2 t' url' Hagain) as (Hnot & _).
  destruct (url_is_loaded_after_add linesep f url Hl Hf Hu) as (_ & Hin & _).
  subst f'. rewrite Hfile in Hnot. intros ->. rewrite Hin in Hnot.
  discriminate Hnot.
Qed.

(* the entry "u1" of the only feed is returned once; the second reading of
   the same feed goes on to "u2" *)
Lemma returned_article_is_not_returned_again_witness :
  let e1 := {| DataFetcher.link := Some [117; 49]%N;
               DataFetcher.title := Some [116]%N |} in
  let e2 := {| DataFetcher.link := Some [117; 50]%N;
               DataFetcher.title := Some [116]%N |} in
  let feeds := [DataFetcher.Parsed false [e1; e2]] in
  let first := DataFetcher.get_latest_news_from_rss [NEWLINE] None false
                 DataFetcher.Written feeds in
  let second := DataFetcher.get_latest_news_from_rss [NEWLINE] (snd first) false
                  DataFetcher.Written feeds in
  fst first = Some ([116]%N, [117; 49]%N)
  /\ DataFetcher.one_line [117; 49]%N
  /\ fst second = Some ([116]%N, [117; 50]%N)
  /\ [117; 50]%N <> [117; 49]%N.
Proof.
  intros e1 e2 feeds first second.
  assert (Hl : DataFetcher.known_linesep [NEWLINE]) by (left; reflexivity).
  assert (Hu : DataFetcher.one_line [117; 49]%N) by (repeat split).
  split; [reflexivity|]. split; [exact Hu|]. split; [reflexivity|].
  apply (returned_article_is_not_returned_again [NEWLINE] None feeds feeds
           DataFetcher.Written [116]%N [117; 49]%N Hl I eq_refl Hu
           [116]%N [117; 50]%N eq_refl).
Defined.

(* a link with a space around it is stored stripped, never recognised, and
   returned again *)
Example padded_link_is_returned_again :
  let e := {| DataFetcher.link := Some [32; 117; 49]%N;
              DataFetcher.title := Some [116]%N |} in
  let feeds := [DataFetcher.Parsed false [e]] in
  let first := DataFetcher.get_latest_news_from_rss [NEWLINE] None false
                 DataFetcher.Written feeds in
  fst (DataFetcher.get_latest_news_from_rss [NEWLINE] (snd first) false
         DataFetcher.Written feeds)
  = fst first.
Proof. reflexivity. Qed.

(** ** The scraper *)

Module ScrapeFacts.
Import TextFacts DataFetcher DataFetcherFacts.
#[local] Arguments ch_eq : simpl never.
#[local] Arguments isspace : simpl never.

Lemma collapse_single_spaced (s : str) :
  forall b, single_spaced b (collapse_whitespace b s) = true.
Proof.
  induction s as [|c t IH]; intros b; [reflexivity|].
  cbn [collapse_whitespace]. destruct (isspace c) eqn:Ec.
  - destruct b; [apply IH|]. cbn [single_spaced].
    change (isspace SPACE) with true. cbv iota.
    rewrite ch_eq_refl, IH. reflexivity.
  - cbn [single_spaced]. rewrite Ec. apply IH.
Qed.

Lemma lstrip_single_spaced (s : str) :
  forall b, single_spaced b s = true -> single_spaced false (lstrip s) = true.
Proof.
  induction s as [|c t IH]; intros b H; [reflexivity|].
  cbn [lstrip]. cbn [single_spaced] in H. destruct (isspace c) eqn:Ec.
  - apply andb_true_iff in H. destruct H as [_ H]. apply (IH true H).
  - cbn [single_spaced]. rewrite Ec. exact H.
Qed.

Lemma rstrip_single_spaced (s : str) :
  forall b, single_spaced b s = true -> single_spaced b (rstrip s) = true.
Proof.
  induction s as [|c t IH]; intros b H; [reflexivity|].
  cbn [rstrip]. cbn [single_spaced] in H.
  destruct (rstrip t) as [|r0 r] eqn:Er.
  - destruct (isspace c) eqn:Ec; [reflexivity|].
    cbn [single_spaced]. rewrite Ec. reflexivity.
  - cbn [single_spaced]. destruct (isspace c) eqn:Ec.
    + apply andb_true_iff in H. destruct H as [H1 H2].
      rewrite H1. cbn [andb]. apply (IH true H2).
    + apply (IH false H).
Qed.

Lemma visible_collapse (s : str) :
  forall b, visible (collapse_whitespace b s) = visible s.
Proof.
  induction s as [|c t IH]; intros b; [reflexivity|].
  cbn [collapse_whitespace]. unfold visible in *. cbn [filter].
  destruct (isspace c) eqn:Ec; cbn [negb].
  - destruct b; [apply IH|]. cbn [filter].
    change (isspace SPACE) with true. cbn [negb]. apply IH.
  - cbn [filter]. rewrite Ec. cbn [negb]. rewrite IH. reflexivity.
Qed.

Lemma visible_lstrip (s : str) : visible (lstrip s) = visible s.
Proof.
  induction s as [|c t IH]; [reflexivity|].
  cbn [lstrip]. unfold visible in *. cbn [filter].
  destruct (isspace c) eqn:Ec; cbn [negb]; [exact IH|].
  cbn [filter]. rewrite Ec. reflexivity.
Qed.

Lemma visible_rstrip (s : str) : visible (rstrip s) = visible s.
Proof.
  destruct (TruncatorFacts.rstrip_split s) as (ws & Hs & Hws).
  rewrite Hs at 2. unfold visible. rewrite filter_app.
  assert (Hn : filter (fun c => negb (isspace c)) ws = []).
  { clear Hs. induction Hws as [|c ws Hc _ IH]; [reflexivity|].
    cbn [filter]. rewrite Hc. exact IH. }
  rewrite Hn, app_nil_r. reflexivity.
Qed.

Lemma collapse_fixed (s : str) :
  forall b, single_spaced b s = true -> collapse_whitespace b s = s.
Proof.
  induction s as [|c t IH]; intros b H; [reflexivity|].
  cbn [single_spaced] in H. cbn [collapse_whitespace].
  destruct (isspace c) eqn:Ec.
  - apply andb_true_iff in H. destruct H as [H H2].
    apply andb_true_iff in H. destruct H as [Hc Hb].
    destruct b; [discriminate Hb|].
    apply ch_eq_true in Hc. subst c. rewrite (IH true H2). reflexivity.
  - rewrite (IH false H). reflexivity.
Qed.

Lemma rstrip_idempotent (s : str) : rstrip (rstrip s) = rstrip s.
Proof.
  induction s as [|c t IH]; [reflexivity|]. cbn [rstrip].
  destruct (rstrip t) as [|r0 r] eqn:Er.
  - destruct (isspace c) eqn:Ec; [reflexivity|]. cbn [rstrip]. rewrite Ec.
    reflexivity.
  - cbn [rstrip] in *. rewrite IH. reflexivity.
Qed.

Lemma lstrip_fixed (s : str) :
  (forall c rest, s = c :: rest -> isspace c = false) -> lstrip s = s.
Proof.
  destruct s as [|c t]; [reflexivity|]. intros H.
  cbn [lstrip]. rewrite (H c t eq_refl). reflexivity.
Qed.

Lemma strip_idempotent (s : str) : strip (strip s) = strip s.
Proof.
  unfold strip at 1.
  rewrite (lstrip_fixed (strip s)) by (intros c rest H;
    apply (PostGenerationFacts.strip_head _ _ _ H)).
  unfold strip. apply rstrip_idempotent.
Qed.

(** [dict.fromkeys] keeps each element once, the ones already seen apart. *)
Lemma unique_from_In (l : list str) :
  forall seen x,
    In x (unique_from seen l) <-> In x l /\ member x seen = false.
Proof.
  induction l as [|y t IH]; intros seen x; cbn [unique_from].
  - split; [contradiction | intros [[] _]].
  - destruct (member y seen) eqn:Ey.
    + rewrite IH. split.
      * intros [H1 H2]. split; [right|]; assumption.
      * intros [[<- | H1] H2]; [rewrite Ey in H2; discriminate H2|].
        split; assumption.
    + cbn [In]. rewrite IH. split.
      * intros [<- | [H1 H2]]; [split; [left; reflexivity | exact Ey]|].
        split; [right; exact H1|].
        cbn [member existsb] in H2. apply orb_false_elim in H2. apply H2.
      * intros [[<- | H1] H2]; [left; reflexivity|].
        destruct (Truncator.str_eqb x y) eqn:E.
        -- apply str_eqb_eq in E. left. symmetry. exact E.
        -- right. split; [exact H1|].
           cbn [member existsb]. rewrite E. exact H2.
Qed.

Lemma unique_from_NoDup (l : list str) :
  forall seen, NoDup (unique_from seen l).
Proof.
  induction l as [|y t IH]; intros seen; cbn [unique_from]; [constructor|].
  destruct (member y seen); [apply IH|]. constructor; [|apply IH].
  rewrite unique_from_In. intros [_ H].
  cbn [member existsb] in H.
  assert (E : Truncator.str_eqb y y = true) by (apply str_eqb_eq; reflexivity).
  rewrite E in H. discriminate H.
Qed.

Lemma collect_images_In (lower : str -> str) (urljoin : str -> str -> str)
      (url : str) (imgs : list (option str)) (u : str) :
  In u (collect_images lower urljoin url imgs)
  <-> exists src, In (Some src) imgs /\ keeps lower src = true
                  /\ u = urljoin url src.
Proof.
  induction imgs as [|[src|] rest IH]; cbn [collect_images].
  - split; [contradiction | intros (s & [] & _)].
  - destruct (keeps lower src) eqn:Ek.
    + cbn [In]. rewrite IH. split.
      * intros [<- | (s & H1 & H2 & H3)].
        -- exists src. repeat split; [left; reflexivity | exact Ek].
        -- exists s. repeat split; [right|..]; assumption.
      * intros (s & [H1 | H1] & H2 & H3).
        -- inversion H1; subst. left. reflexivity.
        -- right. exists s. repeat split; assumption.
    + rewrite IH. split.
      * intros (s & H1 & H2 & H3). exists s. repeat split; [right|..]; assumption.
      * intros (s & [H1 | H1] & H2 & H3).
        -- inversion H1; subst. rewrite Ek in H2. discriminate H2.
        -- exists s. repeat split; assumption.
  - rewrite IH. split.
    + intros (s & H1 & H2 & H3). exists s. repeat split; [right|..]; assumption.
    + intros (s & [H1 | H1] & H2 & H3); [discriminate H1|].
      exists s. repeat split; assumption.
Qed.

Lemma keeps_means (lower : str -> str) (src : str) :
  keeps lower src = true
  <-> startswith src DATA_COLON = false /\ (20 <= len src)%Z
      /\ endswith (lower src) DOT_SVG = false
      /\ endswith (lower src) DOT_GIF = false.
Proof.
  unfold keeps.
  destruct (startswith src DATA_COLON); destruct (len src <? 20)%Z eqn:El;
    destruct (endswith (lower src) DOT_SVG);
    destruct (endswith (lower src) DOT_GIF); cbn [orb negb andb];
    try apply Z.ltb_lt in El; try apply Z.ltb_ge in El;
    split; try discriminate; try (intros (H1 & H2 & H3 & H4); try discriminate; lia);
    intros _; repeat split; (reflexivity || lia).
Qed.

(** The image chosen for a post is one of the candidates. *)
Lemma selected_in_candidates
      (lower : str -> str) (is_digit : char -> bool) (digit_value : char -> Z)
      (http_get : nat -> str -> Delivery.http_result)
      (image_opens : list N -> bool)
      (generate_content : list str -> ImageSelection.rank_result)
      (candidates : list str) (url : str) :
  ImageSelection.select_best_image lower is_digit digit_value http_get
    image_opens generate_content candidates = Some url ->
  In url candidates.
Proof.
  intros H. unfold ImageSelection.select_best_image in H.
  destruct candidates as [|u0 rest]; [discriminate H|].
  assert (Hvalid : In url (ImageSelection.valid_urls_for_model lower http_get
                             image_opens (u0 :: rest))).
  { destruct (ImageSelection.valid_urls_for_model lower http_get image_opens
                (u0 :: rest)) as [|v valid] eqn:Ev; [discriminate H|].
    destruct (generate_content (v :: valid)) as [|raw].
    - inversion H; subst. left. reflexivity.
    - destruct (ImageSelection.chosen is_digit digit_value (v :: valid) (strip raw))
        as [x|] eqn:Ec.
      + inversion H; subst.
        apply (ImageSelectionFacts.chosen_In is_digit digit_value _ _ _ Ec).
      + inversion H; subst. left. reflexivity. }
  apply ImageSelectionFacts.load_from_In in Hvalid.
  rewrite <- (firstn_skipn 5 (u0 :: rest)). apply in_or_app. left. exact Hvalid.
Qed.

End ScrapeFacts.

(** X18: the cleaned text of an article is in normal form: every whitespace
    character in it is a single space between two other characters, it
    neither starts nor ends with whitespace, its other characters are those
    of the raw text in the same order, and cleaning it again changes
    nothing. *)
Theorem cleaned_text_is_normal (raw : str) :
  let text := DataFetcher.cleaned_text raw in
  DataFetcher.single_spaced false text = true
  /\ (forall c rest, text = c :: rest -> isspace c = false)
  /\ (forall pre c, text = pre ++ [c] -> isspace c = false)
  /\ DataFetcher.visible text = DataFetcher.visible raw
  /\ DataFetcher.cleaned_text text = text.
Proof.
  intros text. subst text. unfold DataFetcher.cleaned_text.
  assert (Hs : DataFetcher.single_spaced false
                 (strip (DataFetcher.collapse_whitespace false raw)) = true).
  { unfold strip. apply ScrapeFacts.rstrip_single_spaced.
    apply (ScrapeFacts.lstrip_single_spaced _ false).
    apply ScrapeFacts.collapse_single_spaced. }
  split; [exact Hs|]. split; [|split; [|split]].
  - intros c rest H. apply (PostGenerationFacts.strip_head _ _ _ H).
  - intros pre c H. unfold strip in H.
    apply (TruncatorMore.rstrip_no_trailing_space _ _ _ H).
  - unfold strip. rewrite ScrapeFacts.visible_rstrip, ScrapeFacts.visible_lstrip.
    apply ScrapeFacts.visible_collapse.
  - rewrite (ScrapeFacts.collapse_fixed _ false Hs).
    apply ScrapeFacts.strip_idempotent.
Qed.

(** X19: the image URLs of a scraped article hold no duplicate, and they are
    exactly the [src] attributes of the article's images, joined to the
    page URL, that do not start with "data:", have at least 20 characters
    and do not end, in lower case, in ".svg" or ".gif". *)
Theorem scraped_images_are_filtered
    (lower : str -> str) (urljoin : str -> str -> str) (url : str)
    (article : DataFetcher.article_body) (result : DataFetcher.scraped) :
  DataFetcher.scrape_article_content lower urljoin url
    (DataFetcher.Page (Some article)) = Some result ->
  NoDup (DataFetcher.image_urls result)
  /\ (forall u,
        In u (DataFetcher.image_urls result)
        <-> exists src,
              In (Some src) (DataFetcher.img_srcs article)
              /\ u = urljoin url src
              /\ DataFetcher.startswith src DataFetcher.DATA_COLON = false
              /\ (20 <= len src)%Z
              /\ endswith (lower src) DOT_SVG = false
              /\ endswith (lower src) DataFetcher.DOT_GIF = false).
Proof.
  cbn [DataFetcher.scrape_article_content]. intros H. inversion H; subst result.
  cbn [DataFetcher.image_urls]. split; [apply ScrapeFacts.unique_from_NoDup|].
  intros u. rewrite ScrapeFacts.unique_from_In, ScrapeFacts.collect_images_In.
  split.
  - intros [(src & H1 & H2 & H3) _]. exists src.
    apply ScrapeFacts.keeps_means in H2. tauto.
  - intros (src & H1 & H2 & H3). split; [|reflexivity].
    exists src. rewrite ScrapeFacts.keeps_means. tauto.
Qed.

Lemma scraped_images_are_filtered_witness :
  let long := repeat 97%N 20 in
  let article := {| DataFetcher.body_text := [97; 32; 32; 98]%N;
                    DataFetcher.img_srcs := [Some long; None; Some long] |} in
  let result := {| DataFetcher.raw_text := [97; 32; 98]%N;
                   DataFetcher.image_urls := [long] |} in
  DataFetcher.scrape_article_content (fun s => s) (fun _ src => src) []
    (DataFetcher.Page (Some article)) = Some result
  /\ NoDup (DataFetcher.image_urls result).
Proof.
  intros long article result.
  assert (H : DataFetcher.scrape_article_content (fun s => s) (fun _ src => src) []
                (DataFetcher.Page (Some article)) = Some result) by reflexivity.
  split; [exact H|].
  apply (scraped_images_are_filtered (fun s => s) (fun _ src => src) []
           article result H).
Defined.

(** ** One cycle *)

(** X20: the file of published URLs after a cycle is the one the feed
    reader left, whatever the scraper, the model and the transport did.
    So, where the line separator is "\n" or "\r\n", the file before the
    cycle is made of whole lines (or absent) and is read and written
    without error, and the URL of the article that was found holds no
    line feed and no carriage return and has no whitespace at either end,
    that URL is among the published URLs loaded after the cycle, delivered
    or not. *)
Theorem found_article_stays_published
    (w : Orchestrator.world) (f : DataFetcher.file) :
  let reading :=
    DataFetcher.get_latest_news_from_rss (Orchestrator.linesep w) f
      (Orchestrator.read_raises w) (Orchestrator.write w) (Orchestrator.feeds w) in
  let after := Orchestrator.published_file (Orchestrator.process_and_post_news w f) in
  after = snd reading
  /\ (forall t url,
        fst reading = Some (t, url) ->
        DataFetcher.known_linesep (Orchestrator.linesep w) ->
        match f with
        | None => True
        | Some content => DataFetcher.ends_lines content
        end ->
        Orchestrator.read_raises w = false ->
        Orchestrator.write w = DataFetcher.Written ->
        DataFetcher.one_line url ->
        DataFetcher.member url (DataFetcher.load_published_urls after false) = true).
Proof.
  intros reading after.
  assert (Hafter : after = snd reading).
  { subst after reading. unfold Orchestrator.process_and_post_news.
    destruct (DataFetcher.get_latest_news_from_rss (Orchestrator.linesep w) f
                (Orchestrator.read_raises w) (Orchestrator.write w)
                (Orchestrator.feeds w)) as [[[t [|c u]]|] f'];
      cbn [snd]; try reflexivity.
    destruct (DataFetcher.scrape_article_content _ _ _ _) as [s|];
      [|reflexivity].
    destruct (DataFetcher.raw_text s); [reflexivity|].
    destruct (PostGeneration.generate_news_post _ _ _) as [[|p post]|];
      try reflexivity.
    destruct (match DataFetcher.image_urls s with
              | [] => false
              | _ :: _ => Orchestrator.image_prompt_raises w
              end); [reflexivity|].
    destruct (Delivery.send_to_telegram _ _ _ _ _). reflexivity. }
  split; [exact Hafter|].
  intros t url Hfound Hl Hf Hr Hw Hu. rewrite Hafter.
  destruct (reader_finds_first_unpublished (Orchestrator.linesep w) f
              (Orchestrator.read_raises w) (Orchestrator.write w)
              (Orchestrator.feeds w)) as [H1 _].
  destruct (H1 t url Hfound) as (_ & Hfile & _). fold reading in Hfile.
  rewrite Hfile, Hw.
  apply (url_is_loaded_after_add (Orchestrator.linesep w) f url Hl Hf Hu).
Qed.

(* the article "u1" found in the quiet world is published after the cycle *)
Lemma found_article_stays_published_witness :
  let w := Orchestrator.quiet_world in
  let after := Orchestrator.published_file (Orchestrator.process_and_post_news w None) in
  fst (DataFetcher.get_latest_news_from_rss (Orchestrator.linesep w) None
         (Orchestrator.read_raises w) (Orchestrator.write w) (Orchestrator.feeds w))
  = Some ([116]%N, [117; 49]%N)
  /\ DataFetcher.known_linesep (Orchestrator.linesep w)
  /\ DataFetcher.one_line [117; 49]%N
  /\ DataFetcher.member [117; 49]%N (DataFetcher.load_published_urls after false)
     = true.
Proof.
  intros w after.
  assert (Hl : DataFetcher.known_linesep (Orchestrator.linesep w))
    by (left; reflexivity).
  assert (Hu : DataFetcher.one_line [117; 49]%N) by (repeat split).
  split; [reflexivity|]. split; [exact Hl|]. split; [exact Hu|].
  destruct (found_article_stays_published w None) as [_ H].
  exact (H [116]%N [117; 49]%N eq_refl Hl I eq_refl eq_refl Hu).
Defined.

(** X21: a cycle delivers nothing unless an article with a non-empty URL was
    found, its page gave a non-empty cleaned text and the model gave a
    non-empty post for that text; the delivery is then the delivery chain
    run on that post, which neither starts nor ends with whitespace, with
    no image or with one of the scraped image URLs. *)
Theorem delivery_needs_content
    (w : Orchestrator.world) (f : DataFetcher.file) :
  Orchestrator.delivery (Orchestrator.process_and_post_news w f) <> [] ->
  exists t url article post image,
    fst (DataFetcher.get_latest_news_from_rss (Orchestrator.linesep w) f
           (Orchestrator.read_raises w) (Orchestrator.write w)
           (Orchestrator.feeds w)) = Some (t, url)
    /\ url <> []
    /\ Orchestrator.page_of w url = DataFetcher.Page (Some article)
    /\ DataFetcher.cleaned_text (DataFetcher.body_text article) <> []
    /\ PostGeneration.generate_news_post (Orchestrator.prompt_of w)
         (Orchestrator.generate_content w)
         (DataFetcher.cleaned_text (DataFetcher.body_text article)) = Some post
    /\ post <> [] /\ strip post = post
    /\ Orchestrator.delivery (Orchestrator.process_and_post_news w f)
       = fst (Delivery.send_to_telegram (Orchestrator.CHANNEL_LINK w)
                (Orchestrator.lower w) (Orchestrator.telegram w) post image)
    /\ (forall u, image = Some u ->
          In u (DataFetcher.unique_from []
                  (DataFetcher.collect_images (Orchestrator.lower w)
                     (Orchestrator.urljoin w) url
                     (DataFetcher.img_srcs article)))).
Proof.
  unfold Orchestrator.process_and_post_news.
  destruct (DataFetcher.get_latest_news_from_rss (Orchestrator.linesep w) f
              (Orchestrator.read_raises w) (Orchestrator.write w)
              (Orchestrator.feeds w)) as [[[t [|c u]]|] f'];
    cbn [Orchestrator.delivery fst]; try (intros H; contradiction H; reflexivity).
  unfold DataFetcher.scrape_article_content.
  destruct (Orchestrator.page_of w (c :: u)) as [|[article|]] eqn:Ep;
    cbn [Orchestrator.delivery]; try (intros H; contradiction H; reflexivity).
  cbn [DataFetcher.raw_text DataFetcher.image_urls].
  destruct (DataFetcher.cleaned_text (DataFetcher.body_text article))
    as [|x text] eqn:Et;
    cbn [Orchestrator.delivery]; try (intros H; contradiction H; reflexivity).
  destruct (PostGeneration.generate_news_post (Orchestrator.prompt_of w)
              (Orchestrator.generate_content w) (x :: text))
    as [[|p post]|] eqn:Eg;
    cbn [Orchestrator.delivery]; try (intros H; contradiction H; reflexivity).
  set (images := DataFetcher.unique_from []
                   (DataFetcher.collect_images (Orchestrator.lower w)
                      (Orchestrator.urljoin w) (c :: u)
                      (DataFetcher.img_srcs article))).
  assert (Hstrip : strip (p :: post) = p :: post).
  { unfold PostGeneration.generate_news_post in Eg.
    destruct (_ || _); [discriminate Eg|].
    destruct (Orchestrator.prompt_of w (x :: text)); [|discriminate Eg].
    destruct (Orchestrator.generate_content w s); [discriminate Eg|].
    injection Eg as E. rewrite <- E.
    apply ScrapeFacts.strip_idempotent. }
  destruct (match images with
            | [] => false
            | _ :: _ => Orchestrator.image_prompt_raises w
            end) eqn:Ei;
    cbn [Orchestrator.delivery]; try (intros H; contradiction H; reflexivity).
  set (image := match images with
                | [] => None
                | _ :: _ =>
                    ImageSelection.select_best_image (Orchestrator.lower w)
                      (Orchestrator.is_digit w) (Orchestrator.digit_value w)
                      (Orchestrator.image_get w) (Orchestrator.image_opens w)
                      (Orchestrator.rank w) images
                end).
  destruct (Delivery.send_to_telegram (Orchestrator.CHANNEL_LINK w)
              (Orchestrator.lower w) (Orchestrator.telegram w) (p :: post) image)
    as [events ending] eqn:Es.
  cbn [Orchestrator.delivery]. intros _.
  exists t, (c :: u), article, (p :: post), image.
  split; [reflexivity|]. split; [discriminate|]. split; [exact Ep|].
  rewrite Et. split; [discriminate|]. split; [exact Eg|].
  split; [discriminate|].
  split; [exact Hstrip|]. split; [rewrite Es; reflexivity|].
  intros u0 Hu. subst image. change (In u0 images). clearbody images.
  destruct images as [|i0 rest]; [discriminate Hu|].
  apply (ScrapeFacts.selected_in_candidates _ _ _ _ _ _ _ _ Hu).
Qed.

(* the quiet world delivers: its article was found, scraped and turned
   into a post *)
Lemma delivery_needs_content_witness :
  let w := Orchestrator.quiet_world in
  Orchestrator.delivery (Orchestrator.process_and_post_news w None) <> []
  /\ exists t url article post image,
       fst (DataFetcher.get_latest_news_from_rss (Orchestrator.linesep w) None
              (Orchestrator.read_raises w) (Orchestrator.write w)
              (Orchestrator.feeds w)) = Some (t, url)
       /\ url <> []
       /\ Orchestrator.page_of w url = DataFetcher.Page (Some article)
       /\ DataFetcher.cleaned_text (DataFetcher.body_text article) <> []
       /\ PostGeneration.generate_news_post (Orchestrator.prompt_of w)
            (Orchestrator.generate_content w)
            (DataFetcher.cleaned_text (DataFetcher.body_text article)) = Some post
       /\ post <> [] /\ strip post = post
       /\ Orchestrator.delivery (Orchestrator.process_and_post_news w None)
          = fst (Delivery.send_to_telegram (Orchestrator.CHANNEL_LINK w)
                   (Orchestrator.lower w) (Orchestrator.telegram w) post image)
       /\ (forall u, image = Some u ->
             In u (DataFetcher.unique_from []
                     (DataFetcher.collect_images (Orchestrator.lower w)
                        (Orchestrator.urljoin w) url
                        (DataFetcher.img_srcs article)))).
Proof.
  intros w.
  assert (Hd : Orchestrator.delivery (Orchestrator.process_and_post_news w None)
               <> []) by (vm_compute; discriminate).
  split; [exact Hd | exact (delivery_needs_content w None Hd)].
Defined.
